(** * The LMS discrete scheduler of the Stable Diffusion 1.5 sample

    A shallow embedding of the numeric core of
    [image_generation/stable_diffusion_1_5/cpp/src/stable_diffusion.hpp]:
    [linspace], [trapezoidal], [LMSDiscreteScheduler], [sigma_to_timestemp],
    [lms_derivative_function], [unet_infer_function] and
    [diffusion_function].

    Arithmetic model.  The C++ code computes on [float] and [double].  The
    embedding computes on exact reals extended with the three special values
    of IEEE 754 ([+inf], [-inf], [NaN]); rounding and the sign of zero are
    left out, everything else (what a division by zero gives, how [NaN]
    goes through comparisons, [std::min] and [std::max]) follows the
    standard.  Operations whose behaviour C++ leaves undefined (a vector
    read out of range, a conversion of [NaN] or of an infinity to an integer
    type, a shift by the width of [int]) return [None].

    Where rounding decides what the code does (a table that stops
    increasing, a time that falls below zero) the exact model does not show
    it: the modules [Binary32] and [Binary64] at the end of the definitions
    compute the same expressions on the formats of IEEE 754, rounding
    included. *)

From Stdlib Require Import Reals Lra Lia ZArith List String Bool SpecFloat.
Import ListNotations.

Local Open Scope R_scope.

(** ** Extended reals *)

Inductive xreal : Type :=
| Fin (r : R)
| PInf
| NInf
| NaN.

Definition Rltb (a b : R) : bool := if Rlt_dec a b then true else false.
Definition Rleb (a b : R) : bool := if Rle_dec a b then true else false.
Definition Reqb (a b : R) : bool := if Req_dec_T a b then true else false.

Definition xinf (negative : bool) : xreal := if negative then NInf else PInf.

Definition xadd (x y : xreal) : xreal :=
  match x, y with
  | NaN, _ | _, NaN => NaN
  | Fin a, Fin b => Fin (a + b)
  | PInf, NInf | NInf, PInf => NaN
  | PInf, _ | _, PInf => PInf
  | NInf, _ | _, NInf => NInf
  end.

Definition xsub (x y : xreal) : xreal :=
  match x, y with
  | NaN, _ | _, NaN => NaN
  | Fin a, Fin b => Fin (a - b)
  | PInf, PInf | NInf, NInf => NaN
  | PInf, _ | _, NInf => PInf
  | NInf, _ | _, PInf => NInf
  end.

(** [inf * 0] is [NaN]; otherwise an infinite product takes the sign of its
    factors. *)
Definition xmul (x y : xreal) : xreal :=
  match x, y with
  | NaN, _ | _, NaN => NaN
  | Fin a, Fin b => Fin (a * b)
  | Fin a, PInf | PInf, Fin a =>
      if Reqb a 0 then NaN else xinf (Rltb a 0)
  | Fin a, NInf | NInf, Fin a =>
      if Reqb a 0 then NaN else xinf (negb (Rltb a 0))
  | PInf, PInf | NInf, NInf => PInf
  | PInf, NInf | NInf, PInf => NInf
  end.

(** [0 / 0] and [inf / inf] are [NaN]; a nonzero finite number over zero is
    the infinity of the sign of the numerator (the zero divisors of this
    program, [steps - 1] and [low - high], are positive zeros). *)
Definition xdiv (x y : xreal) : xreal :=
  match x, y with
  | NaN, _ | _, NaN => NaN
  | Fin a, Fin b =>
      if Reqb b 0
      then (if Reqb a 0 then NaN else xinf (Rltb a 0))
      else Fin (a / b)
  | Fin _, PInf | Fin _, NInf => Fin 0
  | PInf, Fin b => xinf (Rltb b 0)
  | NInf, Fin b => xinf (negb (Rltb b 0))
  | PInf, PInf | PInf, NInf | NInf, PInf | NInf, NInf => NaN
  end.

Definition xabs (x : xreal) : xreal :=
  match x with
  | Fin a => Fin (Rabs a)
  | PInf | NInf => PInf
  | NaN => NaN
  end.

Definition xsqrt (x : xreal) : xreal :=
  match x with
  | Fin a => if Rltb a 0 then NaN else Fin (sqrt a)
  | PInf => PInf
  | NInf | NaN => NaN
  end.

Definition xlog (x : xreal) : xreal :=
  match x with
  | Fin a => if Rltb a 0 then NaN else if Reqb a 0 then NInf else Fin (ln a)
  | PInf => PInf
  | NInf | NaN => NaN
  end.

Definition xexp (x : xreal) : xreal :=
  match x with
  | Fin a => Fin (exp a)
  | PInf => PInf
  | NInf => Fin 0
  | NaN => NaN
  end.

Definition xfloor (x : xreal) : xreal :=
  match x with
  | Fin a => Fin (IZR (Zfloor a))
  | _ => x
  end.

Definition xceil (x : xreal) : xreal :=
  match x with
  | Fin a => Fin (IZR (Zceil a))
  | _ => x
  end.

(** Comparisons: every comparison with [NaN] is false. *)
Definition xltb (x y : xreal) : bool :=
  match x, y with
  | NaN, _ | _, NaN => false
  | Fin a, Fin b => Rltb a b
  | NInf, NInf | PInf, _ | _, NInf => false
  | NInf, _ | _, PInf => true
  end.

Definition xgeb (x y : xreal) : bool :=
  match x, y with
  | NaN, _ | _, NaN => false
  | Fin a, Fin b => Rleb b a
  | PInf, _ | _, NInf => true
  | NInf, _ | _, PInf => false
  end.

(** [std::min (a, b)] is [(b < a) ? b : a] and [std::max (a, b)] is
    [(a < b) ? b : a]. *)
Definition std_min (a b : xreal) : xreal := if xltb b a then b else a.
Definition std_max (a b : xreal) : xreal := if xltb a b then b else a.

(** ** Integers and their conversions *)

Definition of_Z (z : Z) : xreal := Fin (IZR z).

(** Truncation toward zero, as a conversion from floating point to an integer
    type does. *)
Definition Rtrunc (a : R) : Z := if Rleb 0 a then Zfloor a else Zceil a.

(** Conversion to [int32_t]: undefined unless the truncated value fits. *)
Definition to_int32 (x : xreal) : option Z :=
  match x with
  | Fin a =>
      let z := Rtrunc a in
      if ((- 2 ^ 31 <=? z) && (z <? 2 ^ 31))%Z then Some z else None
  | _ => None
  end.

(** [std::llround]: to the nearest integer, halfway cases away from zero. *)
Definition Rround_away (a : R) : Z :=
  if Rleb 0 a then Zfloor (a + / 2) else Zceil (a - / 2).

Definition llround (x : xreal) : option Z :=
  match x with
  | Fin a =>
      let z := Rround_away a in
      if ((- 2 ^ 63 <=? z) && (z <? 2 ^ 63))%Z then Some z else None
  | _ => None
  end.

(** Unsigned 64-bit wrap-around ([size_t]). *)
Definition size_t_wrap (z : Z) : Z := (z mod 2 ^ 64)%Z.

(** Conversion of an integer to [int32_t]. *)
Definition int32_wrap (z : Z) : Z := ((z + 2 ^ 31) mod 2 ^ 32 - 2 ^ 31)%Z.

(** ** Vectors and the error monad *)

Definition bind {A B : Type} (m : option A) (k : A -> option B) : option B :=
  match m with
  | Some a => k a
  | None => None
  end.

Notation "x <- m ;; k" := (bind m (fun x => k))
  (at level 61, m at next level, right associativity).

(** [v[i]]: undefined out of range. *)
Definition vec_at {A : Type} (v : list A) (i : Z) : option A :=
  if (i <? 0)%Z then None else nth_error v (Z.to_nat i).

(** The index values of [for (i = 0; i < n; i++)]. *)
Definition int_range (n : Z) : list Z := map Z.of_nat (seq 0 (Z.to_nat n)).

Fixpoint mapM {A B : Type} (f : A -> option B) (l : list A) : option (list B) :=
  match l with
  | [] => Some []
  | a :: l' =>
      b <- f a ;;
      bs <- mapM f l' ;;
      Some (b :: bs)
  end.

(** ** [linspace] *)

Fixpoint linspace_fill (n : nat) (val h : xreal) : list xreal :=
  match n with
  | O => []
  | S n' => val :: linspace_fill n' (xadd val h) h
  end.

(** [N] is a [size_t]. *)
Definition linspace (a b : xreal) (N : Z) : list xreal :=
  let h := xdiv (xsub b a) (of_Z (size_t_wrap (N - 1))) in
  linspace_fill (Z.to_nat N) a h.

(** ** [LMSDiscreteScheduler] *)

Definition warning_beta_schedule : string :=
  " beta_schedule must be one of 'linear' or 'scaled_linear' "%string.

(** [std::accumulate (begin, begin + i, 1.0, std::multiplies<float>{})] *)
Definition accumulate_mul (alphas : list xreal) (i : nat) : xreal :=
  fold_left xmul (firstn i alphas) (Fin 1).

Definition log_sigma_of (alphas : list xreal) (i : nat) : xreal :=
  let alphas_cumprod := accumulate_mul alphas i in
  let sigma := xsqrt (xdiv (xsub (Fin 1) alphas_cumprod) alphas_cumprod) in
  xlog sigma.

(** The two loops after the branches: [alphas] from [betas], then one
    log-sigma for each prefix of [alphas].  In exact arithmetic; on [float]
    [1 - b] can round to 1 and the product can underflow to 0, which
    [Binary32.log_sigma_table] shows. *)
Definition log_sigma_table (betas : list xreal) : list xreal :=
  let alphas := map (fun b => xsub (Fin 1) b) betas in
  map (fun i => log_sigma_of alphas i) (seq 1 (List.length alphas)).

(** The branch ["linear"]. *)
Definition linear_betas (num_train_timesteps : Z) (beta_start beta_end : xreal)
  : list xreal :=
  map (fun i =>
         xadd beta_start
           (xdiv (xmul (xsub beta_end beta_start) (of_Z i))
                 (of_Z (num_train_timesteps - 1))))
      (int_range num_train_timesteps).

(** The branch ["scaled_linear"]; the [int32_t] count becomes the [size_t]
    argument of [linspace]. *)
Definition scaled_linear_betas (num_train_timesteps : Z)
    (beta_start beta_end : xreal) : list xreal :=
  let start := xsqrt beta_start in
  let end_ := xsqrt beta_end in
  let temp := linspace start end_ (size_t_wrap num_train_timesteps) in
  map (fun b => xmul b b) temp.

(** The result is the pair of what is written to [std::cout] and the
    returned [log_sigma_vec].  In the first branch the declaration
    [auto betas = trained_betas;] introduces a new variable of the inner
    block: the [betas] of the function stays empty. *)
Definition LMSDiscreteScheduler
    (num_train_timesteps : Z) (beta_start beta_end : xreal)
    (beta_schedule prediction_type : string) (trained_betas : list xreal)
  : list string * list xreal :=
  let betas : list xreal := [] in
  let '(out, betas) :=
    match trained_betas with
    | _ :: _ =>
        let betas_inner_block := trained_betas in
        ([], betas)
    | [] =>
        if String.eqb beta_schedule "linear"%string then
          ([], linear_betas num_train_timesteps beta_start beta_end)
        else if String.eqb beta_schedule "scaled_linear"%string then
          ([], scaled_linear_betas num_train_timesteps beta_start beta_end)
        else
          ([warning_beta_schedule], betas)
    end in
  (out, log_sigma_table betas).

(** The call [LMSDiscreteScheduler ()] with its default arguments. *)
Definition LMSDiscreteScheduler_default : list string * list xreal :=
  LMSDiscreteScheduler 1000 (Fin (85 / 100000)) (Fin (12 / 1000))
    "scaled_linear"%string "epsilon"%string [].

(** ** The run schedule (the block [t_to_sigma] of [diffusion_function])

    [steps] is a [size_t]; [steps - 1] wraps around at zero.  The indices
    [low_idx] and [high_idx] are conversions of [std::floor (t)] and
    [std::ceil (t)] to [int32_t].  In exact arithmetic; the times and the
    indices as [float] rounds them are [Binary32.t_to_sigma_time] and
    [Binary32.t_to_sigma_indices]. *)

Definition t_to_sigma_at (log_sigma_vec : list xreal) (delta : xreal) (i : Z)
  : option xreal :=
  let t := xadd (Fin 999) (xmul (of_Z i) delta) in
  low_idx <- to_int32 (xfloor t) ;;
  high_idx <- to_int32 (xceil t) ;;
  let w := xsub t (of_Z low_idx) in
  lo <- vec_at log_sigma_vec low_idx ;;
  hi <- vec_at log_sigma_vec high_idx ;;
  Some (xexp (xadd (xmul (xsub (Fin 1) w) lo) (xmul w hi))).

Definition t_to_sigma (log_sigma_vec : list xreal) (steps : nat)
  : option (list xreal) :=
  let delta := xdiv (Fin (- 999)) (of_Z (size_t_wrap (Z.of_nat steps - 1))) in
  sigma <- mapM (t_to_sigma_at log_sigma_vec delta)
                (int_range (Z.of_nat steps)) ;;
  Some (sigma ++ [Fin 0]).

(** ** [sigma_to_timestemp] *)

(** The loop that fills [dists]: [n] iterations are left, [i] is the
    current index and [prev] is [dists[i - 1]]. *)
Fixpoint dists_loop (log_sigmas : list xreal) (log_sigma : xreal)
    (n : nat) (i : Z) (prev : xreal) : option (list xreal) :=
  match n with
  | O => Some []
  | S n' =>
      x <- vec_at log_sigmas i ;;
      let d := if xgeb (xsub log_sigma x) (Fin 0) then Fin 1 else Fin 0 in
      let d := if (i =? 0)%Z then d else xadd d prev in
      rest <- dists_loop log_sigmas log_sigma n' (i + 1) d ;;
      Some (d :: rest)
  end.

(** [std::max_element]: the position of the first greatest element;
    [best] is the position of the greatest element so far, [bestv] its
    value and [i] the position of the head of [l]. *)
Fixpoint max_element_from (l : list xreal) (i best : nat) (bestv : xreal)
  : nat :=
  match l with
  | [] => best
  | x :: l' =>
      if xltb bestv x
      then max_element_from l' (S i) i x
      else max_element_from l' (S i) best bestv
  end.

Definition max_element (l : list xreal) : nat :=
  match l with
  | [] => O
  | x :: l' => max_element_from l' 1 0 x
  end.

Definition stt_low_idx (dists : list xreal) : Z :=
  Z.min (Z.of_nat (max_element dists)) (1000 - 2).

Definition stt_weight (low high log_sigma : xreal) : xreal :=
  let w := xdiv (xsub low log_sigma) (xsub low high) in
  std_max (Fin 0) (std_min (Fin 1) w).

(** The result is the single [int64_t] of the returned tensor.  The
    logarithm is the exact one: where the position of [log_sigma] between two
    entries is half-way up to rounding, the code may return the other
    neighbour. *)
Definition sigma_to_timestemp (log_sigmas : list xreal) (sigma : xreal)
  : option Z :=
  let log_sigma := xlog sigma in
  dists <- dists_loop log_sigmas log_sigma 1000 0 (Fin 0) ;;
  let low_idx := stt_low_idx dists in
  let high_idx := (low_idx + 1)%Z in
  low <- vec_at log_sigmas low_idx ;;
  high <- vec_at log_sigmas high_idx ;;
  let w := stt_weight low high log_sigma in
  llround (xadd (xmul (xsub (Fin 1) w) (of_Z low_idx)) (xmul w (of_Z high_idx))).

(** ** [lms_derivative_function] *)

Fixpoint lms_derivative_loop (tau : xreal) (curr_order : Z)
    (sigma_vec : list xreal) (t : Z) (ks : list Z) (prod : xreal)
  : option xreal :=
  match ks with
  | [] => Some prod
  | k :: ks' =>
      if (curr_order =? k)%Z
      then lms_derivative_loop tau curr_order sigma_vec t ks' prod
      else
        s_k <- vec_at sigma_vec (t - k) ;;
        s_c <- vec_at sigma_vec (t - curr_order) ;;
        lms_derivative_loop tau curr_order sigma_vec t ks'
          (xmul prod (xdiv (xsub tau s_k) (xsub s_c s_k)))
  end.

Definition lms_derivative_function (tau : xreal) (order curr_order : Z)
    (sigma_vec : list xreal) (t : Z) : option xreal :=
  lms_derivative_loop tau curr_order sigma_vec t (int_range order) (Fin 1).

(** ** [trapezoidal] *)

(** [1 << n] on [int]: undefined for a shift by 32 or more or by a negative
    amount; a shift by 31 wraps to the least [int]. *)
Definition shl_one (n : Z) : option Z :=
  if ((0 <=? n) && (n <? 31))%Z then Some (2 ^ n)%Z
  else if (n =? 31)%Z then Some (- 2 ^ 31)%Z
  else None.

(** The inner loop [for (j = 1; j <= cnt; ++j) sum += f (a + (2 * j - 1) * h)]:
    [cnt] iterations are left. *)
Fixpoint trapezoidal_sum (f : xreal -> option xreal) (a h : xreal)
    (cnt : nat) (j : Z) (sum : xreal) : option xreal :=
  match cnt with
  | O => Some sum
  | S cnt' =>
      y <- f (xadd a (xmul (of_Z (2 * j - 1)) h)) ;;
      trapezoidal_sum f a h cnt' (j + 1) (xadd sum y)
  end.

(** The outer loop [for (k = 1; k <= max_refinements; ++k)]: [left]
    iterations are left. *)
Fixpoint trapezoidal_loop (f : xreal -> option xreal) (a tol : xreal)
    (left : nat) (k : Z) (I0 h : xreal) : option xreal :=
  match left with
  | O => Some I0
  | S left' =>
      cnt <- shl_one (k - 1) ;;
      sum <- trapezoidal_sum f a h (Z.to_nat cnt) 1 (Fin 0) ;;
      let I1 := xadd (xmul (Fin (1 / 2)) I0) (xmul h sum) in
      if ((1 <? k)%Z && xltb (xabs (xsub I1 I0)) tol)%bool
      then Some I1
      else trapezoidal_loop f a tol left' (k + 1) I1 (xdiv h (Fin 2))
  end.

Definition trapezoidal (f : xreal -> option xreal) (a b tol : xreal)
    (max_refinements : Z) : option xreal :=
  let h := xdiv (xsub b a) (Fin 2) in
  ya <- f a ;;
  yb <- f b ;;
  let I0 := xmul (xadd ya yb) h in
  trapezoidal_loop f a tol (Z.to_nat max_refinements) 1 I0 h.

(** ** Tensors *)

Record Tensor : Type := mkTensor {
  get_shape : list Z;
  data : list xreal
}.

Definition shape_size (shape : list Z) : Z := fold_left Z.mul shape 1%Z.

Definition get_size (t : Tensor) : Z := shape_size (get_shape t).

(** [shape[0] = v] *)
Definition set_dim0 (shape : list Z) (v : Z) : option (list Z) :=
  match shape with
  | [] => None
  | _ :: rest => Some (v :: rest)
  end.

(** [std::transform (first1, last1, first2, out, op)]: the second range is
    read as far as the first one goes. *)
Fixpoint transform2 (op : xreal -> xreal -> xreal) (l1 l2 : list xreal)
  : option (list xreal) :=
  match l1 with
  | [] => Some []
  | x :: l1' =>
      match l2 with
      | [] => None
      | y :: l2' =>
          r <- transform2 op l1' l2' ;;
          Some (op x y :: r)
      end
  end.

(** ** [unet_infer_function]

    The compiled UNet is a function of the tensors set on the request:
    [timestep], [sample] and [encoder_hidden_states]. *)

Definition UNet : Type := Z -> Tensor -> Tensor -> Tensor.

Definition guidance_scale : xreal := Fin (75 / 10).

Definition unet_infer_function (unet_model : UNet) (timestemp : Z)
    (latent_input_1d text_embedding_1d : Tensor) : option Tensor :=
  let noise_pred_tensor := unet_model timestemp latent_input_1d text_embedding_1d in
  noise_pred_shape <- set_dim0 (get_shape noise_pred_tensor) 1 ;;
  let n := shape_size noise_pred_shape in
  noise_pred <-
    mapM (fun i =>
            uncond <- vec_at (data noise_pred_tensor) i ;;
            text <- vec_at (data noise_pred_tensor) (n + i) ;;
            Some (xadd uncond (xmul guidance_scale (xsub text uncond))))
         (int_range n) ;;
  Some (mkTensor noise_pred_shape noise_pred).

(** ** [diffusion_function] *)

(** The state that the sampling loop carries from one step to the next. *)
Record LoopState : Type := mkLoopState {
  latent_vector_1d_new : list xreal;
  derivative_list : list (list xreal)
}.

(** [derivative_list.push_back (d)], then the first element is erased when
    the list has more than [order = 4] elements. *)
Definition push_derivative (derivative_list : list (list xreal))
    (derivative_vec_1d : list xreal) : list (list xreal) :=
  let pushed := derivative_list ++ [derivative_vec_1d] in
  if (4 <? Z.of_nat (List.length pushed))%Z then tl pushed else pushed.

(** [order = std::min (i + 1, order)] with [order = 4] before. *)
Definition lms_order (i : nat) : Z := Z.min (Z.of_nat i + 1) 4.

(** Steps 1 and 2 of the LMS step: the predicted original sample and the
    derivative, both taken from [latent_vector_1d]. *)
Definition derivative_at (latent noise_pred : list xreal) (sigma_i : xreal)
    (j : Z) : option xreal :=
  l <- vec_at latent j ;;
  e <- vec_at noise_pred j ;;
  let pred_latent := xsub l (xmul sigma_i e) in
  Some (xdiv (xsub l pred_latent) sigma_i).

Definition derivative_vec (latent_vector_1d noise_pred_1d : Tensor)
    (sigma_i : xreal) : option (list xreal) :=
  mapM (derivative_at (data latent_vector_1d) (data noise_pred_1d) sigma_i)
       (int_range (get_size latent_vector_1d)).

Definition lms_tolerance : xreal := Fin (1 / 10000).

(** Step 3: the linear multistep coefficients of step [i].  The [size_t]
    values [order] and [i] become the [int32_t] arguments of
    [lms_derivative_function]. *)
Definition lms_coeffs (sigma : list xreal) (i : nat) (order : Z)
  : option (list xreal) :=
  mapM (fun curr_order =>
          a <- vec_at sigma (Z.of_nat i) ;;
          b <- vec_at sigma (Z.of_nat i + 1) ;;
          trapezoidal
            (fun tau =>
               lms_derivative_function tau (int32_wrap order) curr_order
                 sigma (int32_wrap (Z.of_nat i)))
            a b lms_tolerance 100)
       (int_range order).

(** Step 4: the derivatives, latest first, each one multiplied by its
    coefficient, and their sum. *)
Definition scale_derivatives (rev_derivative : list (list xreal))
    (coeffs : list xreal) (order : Z) : option (list (list xreal)) :=
  scaled <- mapM (fun m =>
                    coeffs_const <- vec_at coeffs m ;;
                    d <- vec_at rev_derivative m ;;
                    Some (map (fun x => xmul x coeffs_const) d))
                 (int_range order) ;;
  Some (scaled ++ skipn (Z.to_nat order) rev_derivative).

Fixpoint sum_derivatives (rev_derivative : list (list xreal)) (ds : list Z)
    (derivative_sum : list xreal) : option (list xreal) :=
  match ds with
  | [] => Some derivative_sum
  | d :: ds' =>
      next <- vec_at rev_derivative (d + 1) ;;
      s <- transform2 xadd derivative_sum next ;;
      sum_derivatives rev_derivative ds' s
  end.

(** One iteration of the sampling loop.  The two halves of
    [latent_model_input] are written at [j] and [j + lanent_size]: the
    tensor is filled, and within its bounds, when its size is twice that of
    the latent. *)
Definition lms_step (unet_model : UNet) (log_sigma_vec sigma : list xreal)
    (latent_model_input_shape : list Z)
    (latent_vector_1d text_embeddings : Tensor) (i : nat) (st : LoopState)
  : option LoopState :=
  sigma_i <- vec_at sigma (Z.of_nat i) ;;
  let scale := xdiv (Fin 1) (xsqrt (xadd (xmul sigma_i sigma_i) (Fin 1))) in
  let lanent_size := get_size latent_vector_1d in
  let sample := map (fun x => xmul x scale) (latent_vector_1d_new st) in
  latent_model_input <-
    (if (2 * lanent_size =? shape_size latent_model_input_shape)%Z
     then Some (mkTensor latent_model_input_shape (sample ++ sample))
     else None) ;;
  timestemp <- sigma_to_timestemp log_sigma_vec sigma_i ;;
  noise_pred_1d <-
    unet_infer_function unet_model timestemp latent_model_input text_embeddings ;;
  derivative_vec_1d <- derivative_vec latent_vector_1d noise_pred_1d sigma_i ;;
  let derivative_list := push_derivative (derivative_list st) derivative_vec_1d in
  let order := lms_order i in
  coeffs <- lms_coeffs sigma i order ;;
  rev_derivative <- scale_derivatives (rev derivative_list) coeffs order ;;
  first <- vec_at rev_derivative 0 ;;
  derivative_sum <-
    (if (1 <? order)%Z
     then sum_derivatives rev_derivative (int_range (order - 1)) first
     else Some first) ;;
  updated <- transform2 xadd derivative_sum (latent_vector_1d_new st) ;;
  Some (mkLoopState
          (updated ++ skipn (List.length derivative_sum) (latent_vector_1d_new st))
          derivative_list).

Fixpoint lms_loop (body : nat -> LoopState -> option LoopState)
    (idxs : list nat) (st : LoopState) : option LoopState :=
  match idxs with
  | [] => Some st
  | i :: idxs' =>
      st' <- body i st ;;
      lms_loop body idxs' st'
  end.

(** The state before the first step: the latent multiplied by [sigma[0]]
    and an empty [derivative_list]. *)
Definition init_state (sigma : list xreal) (latent_vector_1d : Tensor)
  : option LoopState :=
  n <- vec_at sigma 0 ;;
  scaled <- mapM (fun i =>
                    x <- vec_at (data latent_vector_1d) i ;;
                    Some (xmul x n))
                 (int_range (get_size latent_vector_1d)) ;;
  Some (mkLoopState scaled []).

Definition diffusion_function (unet_compiled_model : UNet) (seed : Z)
    (steps : nat) (latent_vector_1d text_embeddings : Tensor)
  : option Tensor :=
  let log_sigma_vec := snd LMSDiscreteScheduler_default in
  sigma <- t_to_sigma log_sigma_vec steps ;;
  latent_model_input_shape <- set_dim0 (get_shape latent_vector_1d) 2 ;;
  st0 <- init_state sigma latent_vector_1d ;;
  st <- lms_loop
          (lms_step unet_compiled_model log_sigma_vec sigma
                    latent_model_input_shape latent_vector_1d text_embeddings)
          (seq 0 steps) st0 ;;
  Some (mkTensor (get_shape latent_vector_1d) (latent_vector_1d_new st)).


(** ** Orderings on tables and schedules *)

Definition strictly_increasing (l : list xreal) : Prop :=
  forall i j x y, (i < j)%nat ->
    nth_error l i = Some x -> nth_error l j = Some y -> xltb x y = true.

Definition strictly_decreasing (l : list xreal) : Prop :=
  forall i j x y, (i < j)%nat ->
    nth_error l i = Some x -> nth_error l j = Some y -> xltb y x = true.

(** The sigma values under a table of log-sigmas. *)
Definition sigma_values (log_sigma_vec : list xreal) : list xreal :=
  map xexp log_sigma_vec.

(** The real numbers behind [LMSDiscreteScheduler]: the cumulative product
    of the first [i] alphas and the sigma of a cumulative product. *)
Definition cumprod (alphas : list R) (i : nat) : R :=
  fold_left Rmult (firstn i alphas) 1.

Definition sigma_of_cumprod (c : R) : R := sqrt ((1 - c) / c).

(** A table of finite log-sigmas, strictly increasing. *)
Definition increasing_reals (ls : list R) : Prop :=
  forall i j, (i < j < List.length ls)%nat -> nth i ls 0 < nth j ls 0.

(** The entry [j] of [dists] when the target is the table entry [k] of an
    increasing table: the number of entries up to [j] that the target
    reaches. *)
Definition dists_count (k j : nat) : xreal :=
  Fin (IZR (Z.min (Z.of_nat j) (Z.of_nat k) + 1)).

(** The interpolation of the block [t_to_sigma] on a table of finite
    values: the entries at the floor and at the ceiling of [t], weighted by
    the fractional part of [t]. *)
Definition entry_at (ls : list R) (m : Z) : R := nth (Z.to_nat m) ls 0.

Definition interpolate (ls : list R) (t : R) : R :=
  let w := t - IZR (Zfloor t) in
  (1 - w) * nth (Z.to_nat (Zfloor t)) ls 0 + w * nth (Z.to_nat (Zceil t)) ls 0.

(** ** The inputs of the end-to-end test *)

Definition zeros (n : nat) : list xreal := repeat (Fin 0) n.

(** The UNet stub of the end-to-end test: zero predictions for the batch of
    two latents of shape [1, 4, 8, 8], whatever the input. *)
Definition zero_unet : UNet :=
  fun _ _ _ => mkTensor [2; 4; 8; 8]%Z (zeros 512).

Definition zero_latent : Tensor := mkTensor [1; 4; 8; 8]%Z (zeros 256).

(** ** [std_randn_function]

    The generator [std::mt19937] and [std::normal_distribution] belong to
    the C++ library: [normal seed k] stands for the draw number [k] of the
    generator seeded with [seed]. *)

Definition uint32_wrap (z : Z) : Z := (z mod 2 ^ 32)%Z.

(** [h / 8 * w / 8 * 4 * 1] on [uint32_t], from left to right. *)
Definition randn_size (h w : Z) : Z :=
  uint32_wrap (uint32_wrap (uint32_wrap (h / 8 * w) / 8 * 4) * 1).

Definition std_randn_function (normal : Z -> nat -> xreal)
    (seed h w : Z) : list xreal :=
  map (normal seed) (seq 0 (Z.to_nat (randn_size h w))).

(** [latent_vector_shape] of [stable_diffusion]. *)
Definition latent_vector_shape (height width : Z) : list Z :=
  [1; 4; height / 8; width / 8]%Z.

(** ** Images and [vae_decoder_function] *)

Inductive element_type : Type := f32 | u8 | i64.

Definition element_type_eqb (a b : element_type) : bool :=
  match a, b with
  | f32, f32 | u8, u8 | i64, i64 => true
  | _, _ => false
  end.

(** A tensor of integer elements. *)
Record Image : Type := mkImage {
  image_type : element_type;
  image_shape : list Z;
  image_data : list Z
}.

(** [std::clamp (v, lo, hi)] is [(v < lo) ? lo : (hi < v) ? hi : v]. *)
Definition std_clamp (v lo hi : xreal) : xreal :=
  if xltb v lo then lo else if xltb hi v then hi else v.

(** Conversion to [std::uint8_t]: undefined unless the truncated value
    fits. *)
Definition to_uint8 (x : xreal) : option Z :=
  match x with
  | Fin a =>
      let z := Rtrunc a in
      if ((0 <=? z) && (z <? 256))%Z then Some z else None
  | _ => None
  end.

(** [static_cast<std::uint8_t> (std::clamp (d * 0.5f + 0.5f, 0.0f, 1.0f)
    * 255)], in exact arithmetic: for a [d] next to a threshold of the
    floor the code may return the neighbouring value. *)
Definition pixel_of (decoded : xreal) : option Z :=
  to_uint8 (xmul (std_clamp (xadd (xmul decoded (Fin (1 / 2))) (Fin (1 / 2)))
                            (Fin 0) (Fin 1))
                 (Fin 255)).

Definition vae_coeffs_const : xreal := xdiv (Fin 1) (Fin (18215 / 100000)).

(** The compiled decoder is a function of its input tensor. *)
Definition Decoder : Type := Tensor -> Tensor.

(** The result is the pair of [sample] after the call (the tensor shares
    its data with the caller's and is scaled in place) and the generated
    image. *)
Definition vae_decoder_function (decoder_compiled_model : Decoder)
    (sample : Tensor) : option (Tensor * Image) :=
  scaled <- mapM (fun i =>
                    x <- vec_at (data sample) i ;;
                    Some (xmul x vae_coeffs_const))
                 (int_range (get_size sample)) ;;
  let sample :=
    mkTensor (get_shape sample)
             (scaled ++ skipn (List.length scaled) (data sample)) in
  let decoded_image := decoder_compiled_model sample in
  generated_data <- mapM (fun i =>
                            d <- vec_at (data decoded_image) i ;;
                            pixel_of d)
                         (int_range (get_size decoded_image)) ;;
  Some (sample, mkImage u8 (get_shape decoded_image) generated_data).

(** ** [convertBGRtoRGB] *)

(** How a call ends: normally, with the exception of [OPENVINO_ASSERT], or
    undefined. *)
Inductive outcome (A : Type) : Type :=
| Ok (a : A)
| Throws (message : string)
| Undefined.

Arguments Ok {A} a.
Arguments Throws {A} message.
Arguments Undefined {A}.

Definition expected_image : string :=
  "Image of u8 type and [1, H, W, 3] shape is expected"%string.

Fixpoint set_nth {A : Type} (l : list A) (n : nat) (v : A) : list A :=
  match l, n with
  | [], _ => []
  | _ :: l', O => v :: l'
  | x :: l', S n' => x :: set_nth l' n' v
  end.

(** [std::swap (image_data[i], image_data[j])] *)
Definition swap_at (image_data : list Z) (i j : Z) : option (list Z) :=
  x <- vec_at image_data i ;;
  y <- vec_at image_data j ;;
  Some (set_nth (set_nth image_data (Z.to_nat i) y) (Z.to_nat j) x).

Fixpoint swap_loop (idxs : list Z) (image_data : list Z) : option (list Z) :=
  match idxs with
  | [] => Some image_data
  | i :: idxs' =>
      swapped <- swap_at image_data (size_t_wrap (i * 3))
                         (size_t_wrap (i * 3 + 2)) ;;
      swap_loop idxs' swapped
  end.

Definition convertBGRtoRGB (image : Image) : outcome Image :=
  let shape := image_shape image in
  if (element_type_eqb (image_type image) u8
      && (Z.of_nat (List.length shape) =? 4)%Z
      && (nth 0 shape 0 =? 1)%Z && (nth 3 shape 0 =? 3)%Z)%bool
  then
    let spatial_dims := size_t_wrap (nth 1 shape 0 * nth 2 shape 0)%Z in
    match swap_loop (int_range spatial_dims) (image_data image) with
    | Some swapped => Ok (mkImage (image_type image) shape swapped)
    | None => Undefined
    end
  else Throws expected_image.

(** The size check of [stable_diffusion] on a UNet whose [sample] input has
    a static shape:
    [sample_shape[2] * 8 == width && sample_shape[3] * 8 == height]. *)
Definition static_shape_accepted (sample_shape : list Z) (width height : Z)
  : bool :=
  ((nth 2 sample_shape 0 * 8 =? width)
   && (nth 3 sample_shape 0 * 8 =? height))%Z.

(** ** Definitions for the statements and their examples *)

(** The Lagrange basis polynomial behind [lms_derivative_function], on a
    schedule of finite values: the product over the indices [ks], the
    factor of [curr_order] left out. *)
Fixpoint lagrange_basis (ss : list R) (t curr_order : Z) (tau : R)
    (ks : list Z) : R :=
  match ks with
  | [] => 1
  | k :: ks' =>
      (if (curr_order =? k)%Z then 1
       else (tau - entry_at ss (t - k))
            / (entry_at ss (t - curr_order) - entry_at ss (t - k)))
      * lagrange_basis ss t curr_order tau ks'
  end.

(** The target [t] lies in the segment that starts at the entry [k] of the
    first 1000 entries of [ls]: the entries up to [k] are at most [t], the
    later ones are greater. *)
Definition brackets (ls : list R) (k : nat) (t : R) : Prop :=
  (k < 1000)%nat
  /\ (forall i, (i <= k)%nat -> nth i ls 0 <= t)
  /\ (forall i, (k < i < 1000)%nat -> t < nth i ls 0).

(** The time of the run index [i] of a run of [steps] steps. *)
Definition run_time (steps : nat) (i : Z) : R :=
  999 + IZR i * (- 999 / IZR (Z.of_nat steps - 1)).

(** A table for examples: the entry [i] is [i]. *)
Definition ramp_table : list R := map INR (seq 0 1000).

(** An integrand for examples: [2 * tau + 1]. *)
Definition affine_example (tau : xreal) : option xreal :=
  Some (xadd (xmul (Fin 2) tau) (Fin 1)).

(** UNet stubs for examples: a prediction for the batch of two, and one for
    a single batch. *)
Definition pair_unet : UNet :=
  fun _ _ _ => mkTensor [2; 2]%Z [Fin 1; Fin 2; Fin 3; Fin 4].

Definition single_unet : UNet :=
  fun _ _ _ => mkTensor [1; 2]%Z [Fin 1; Fin 2].

(** ** The history update, statement by statement *)






(** * The arithmetic of the code: binary32 and binary64

    [float] and [double] as the formats binary32 and binary64 of IEEE 754
    with rounding to nearest, ties to even, through the specification of
    floating-point operations of the Standard Library.  A number is a
    [spec_float]: a signed zero, a signed infinity, [NaN], or the finite
    value [m * 2 ^ e] with its sign.  [std::log] and [std::exp] are
    functions of the C++ library, whose results the language does not fix
    bit for bit: the definitions that call them take them as arguments. *)

Module Binary64.

Definition add : spec_float -> spec_float -> spec_float := SFadd 53 1024.

(** The [double] of an integer. *)
Definition of_Z (z : Z) : spec_float := binary_normalize 53 1024 z 0 false.

(** The conversion of a [float] to [double]: the same value. *)
Definition of_float (x : spec_float) : spec_float :=
  match x with
  | S754_finite s m e => binary_round 53 1024 s m e
  | _ => x
  end.

End Binary64.

Module Binary32.

Definition add : spec_float -> spec_float -> spec_float := SFadd 24 128.
Definition sub : spec_float -> spec_float -> spec_float := SFsub 24 128.
Definition mul : spec_float -> spec_float -> spec_float := SFmul 24 128.
Definition div : spec_float -> spec_float -> spec_float := SFdiv 24 128.
Definition sqrt : spec_float -> spec_float := SFsqrt 24 128.
Definition ltb : spec_float -> spec_float -> bool := SFltb.

(** The [float] nearest to [m * 2 ^ e]; the [float] of an integer. *)
Definition literal (m e : Z) : spec_float := binary_normalize 24 128 m e false.
Definition of_Z (z : Z) : spec_float := literal z 0.

(** The conversion of a [double] to [float]. *)
Definition of_double (x : spec_float) : spec_float :=
  match x with
  | S754_finite s m e => binary_round 24 128 s m e
  | _ => x
  end.

(** [std::floor] and [std::ceil] followed by the conversion to [int32_t]:
    undefined for [NaN], the infinities and the values that do not fit. *)
Definition floor_Z (x : spec_float) : option Z :=
  match x with
  | S754_zero _ => Some 0%Z
  | S754_finite s m e =>
      let n := if s then Z.neg m else Z.pos m in
      Some (if (0 <=? e)%Z then n * 2 ^ e else n / 2 ^ (- e))%Z
  | _ => None
  end.

Definition ceil_Z (x : spec_float) : option Z :=
  match x with
  | S754_zero _ => Some 0%Z
  | S754_finite s m e =>
      let n := if s then Z.neg m else Z.pos m in
      Some (if (0 <=? e)%Z then n * 2 ^ e else - (- n / 2 ^ (- e)))%Z
  | _ => None
  end.

Definition to_int32 (z : option Z) : option Z :=
  z <- z ;;
  if ((- 2 ^ 31 <=? z) && (z <? 2 ^ 31))%Z then Some z else None.

(** ** [linspace] on [float] *)

Fixpoint linspace_fill (n : nat) (val h : spec_float) : list spec_float :=
  match n with
  | O => []
  | S n' => val :: linspace_fill n' (add val h) h
  end.

Definition linspace (a b : spec_float) (N : Z) : list spec_float :=
  let h := div (sub b a) (of_Z (size_t_wrap (N - 1))) in
  linspace_fill (Z.to_nat N) a h.

(** ** [LMSDiscreteScheduler] on [float] *)

Section Library.

Variable logf : spec_float -> spec_float.

(** The accumulator of [std::accumulate] is a [double] that holds the
    [float] products of [std::multiplies<float>]; the square root of a
    [float], also when it is taken in [double] and then converted, is the
    correctly rounded one. *)
Definition accumulate_mul (alphas : list spec_float) (i : nat) : spec_float :=
  fold_left mul (firstn i alphas) (of_Z 1).

Definition log_sigma_of (alphas : list spec_float) (i : nat) : spec_float :=
  let alphas_cumprod := accumulate_mul alphas i in
  let sigma := sqrt (div (sub (of_Z 1) alphas_cumprod) alphas_cumprod) in
  logf sigma.

Definition log_sigma_table (betas : list spec_float) : list spec_float :=
  let alphas := map (fun b => sub (of_Z 1) b) betas in
  map (fun i => log_sigma_of alphas i) (seq 1 (List.length alphas)).

Definition linear_betas (num_train_timesteps : Z)
    (beta_start beta_end : spec_float) : list spec_float :=
  map (fun i =>
         add beta_start
           (div (mul (sub beta_end beta_start) (of_Z i))
                (of_Z (num_train_timesteps - 1))))
      (int_range num_train_timesteps).

Definition scaled_linear_betas (num_train_timesteps : Z)
    (beta_start beta_end : spec_float) : list spec_float :=
  let start := sqrt beta_start in
  let end_ := sqrt beta_end in
  let temp := linspace start end_ (size_t_wrap num_train_timesteps) in
  map (fun b => mul b b) temp.

Definition LMSDiscreteScheduler
    (num_train_timesteps : Z) (beta_start beta_end : spec_float)
    (beta_schedule prediction_type : string) (trained_betas : list spec_float)
  : list string * list spec_float :=
  let betas : list spec_float := [] in
  let '(out, betas) :=
    match trained_betas with
    | _ :: _ =>
        let betas_inner_block := trained_betas in
        ([], betas)
    | [] =>
        if String.eqb beta_schedule "linear"%string then
          ([], linear_betas num_train_timesteps beta_start beta_end)
        else if String.eqb beta_schedule "scaled_linear"%string then
          ([], scaled_linear_betas num_train_timesteps beta_start beta_end)
        else
          ([warning_beta_schedule], betas)
    end in
  (out, log_sigma_table betas).

End Library.

(** The sigma values under a table, and their order. *)
Definition sigma_values (expf : spec_float -> spec_float)
    (log_sigma_vec : list spec_float) : list spec_float :=
  map expf log_sigma_vec.

Definition strictly_increasing (l : list spec_float) : Prop :=
  forall i j x y, (i < j)%nat ->
    nth_error l i = Some x -> nth_error l j = Some y -> ltb x y = true.

(** ** The times of the run schedule on [float]

    [float delta = -999.0f / (steps - 1)] and, for the run index [i],
    [float t = 999.0 + i * delta]: the product is a [float], the sum is
    taken in [double] and converted. *)
Definition t_to_sigma_delta (steps : Z) : spec_float :=
  div (of_Z (- 999)) (of_Z (size_t_wrap (steps - 1))).

Definition t_to_sigma_time (steps i : Z) : spec_float :=
  of_double
    (Binary64.add (Binary64.of_Z 999)
       (Binary64.of_float (mul (of_Z i) (t_to_sigma_delta steps)))).

(** The indices [low_idx] and [high_idx] at which the run index [i] reads
    [log_sigma_vec]. *)
Definition t_to_sigma_indices (steps i : Z) : option (Z * Z) :=
  let t := t_to_sigma_time steps i in
  low_idx <- to_int32 (floor_Z t) ;;
  high_idx <- to_int32 (ceil_Z t) ;;
  Some (low_idx, high_idx).

End Binary32.

(** The step counts up to 100 whose last time is negative on [float]. *)
Definition steps_reading_before_table : list Z := [22; 43; 46; 56; 85; 91]%Z.

(** What the run index [i] of a run of [steps] steps is checked for: the
    reads are defined, the first time is 999, the indices are ordered and
    at most 999, and the low index is negative, namely -1, exactly at the
    last index of the step counts listed above. *)
Definition t_to_sigma_reads_check (steps i : Z) : bool :=
  match Binary32.t_to_sigma_indices steps i with
  | Some (low_idx, high_idx) =>
      (if (i =? 0)%Z then (low_idx =? 999)%Z && (high_idx =? 999)%Z else true)
      && (low_idx <=? high_idx)%Z && (high_idx <=? 999)%Z
      && Bool.eqb (low_idx <? 0)%Z
           ((i =? steps - 1)%Z
            && existsb (Z.eqb steps) steps_reading_before_table)
      && (if (low_idx <? 0)%Z then (low_idx =? - 1)%Z else true)
  | None => false
  end.

(** * Properties *)

(** ** The arithmetic on finite values *)

Lemma Rltb_true a b : a < b -> Rltb a b = true.
Proof. intros H. unfold Rltb. destruct (Rlt_dec a b); [reflexivity | contradiction]. Qed.

Lemma Rltb_false a b : b <= a -> Rltb a b = false.
Proof. intros H. unfold Rltb. destruct (Rlt_dec a b); [lra | reflexivity]. Qed.

Lemma Rleb_true a b : a <= b -> Rleb a b = true.
Proof. intros H. unfold Rleb. destruct (Rle_dec a b); [reflexivity | contradiction]. Qed.

Lemma Rleb_false a b : b < a -> Rleb a b = false.
Proof. intros H. unfold Rleb. destruct (Rle_dec a b); [lra | reflexivity]. Qed.

Lemma Reqb_true a b : a = b -> Reqb a b = true.
Proof. intros H. unfold Reqb. destruct (Req_dec_T a b); [reflexivity | contradiction]. Qed.

Lemma Reqb_false a b : a <> b -> Reqb a b = false.
Proof. intros H. unfold Reqb. destruct (Req_dec_T a b); [contradiction | reflexivity]. Qed.

Lemma xdiv_fin a b : b <> 0 -> xdiv (Fin a) (Fin b) = Fin (a / b).
Proof. intros H. simpl. now rewrite (Reqb_false b 0 H). Qed.

Lemma xsqrt_fin a : 0 <= a -> xsqrt (Fin a) = Fin (sqrt a).
Proof. intros H. simpl. now rewrite (Rltb_false a 0 H). Qed.

Lemma xlog_fin a : 0 < a -> xlog (Fin a) = Fin (ln a).
Proof.
  intros H. simpl. rewrite (Rltb_false a 0) by lra.
  rewrite (Reqb_false a 0) by lra. reflexivity.
Qed.

Lemma xltb_fin a b : a < b -> xltb (Fin a) (Fin b) = true.
Proof. intros H. simpl. now apply Rltb_true. Qed.

Lemma xltb_fin_false a b : b <= a -> xltb (Fin a) (Fin b) = false.
Proof. intros H. simpl. now apply Rltb_false. Qed.

(** ** The error monad and vectors *)

Lemma bind_some {A B : Type} (m : option A) (k : A -> option B) b :
  (x <- m ;; k x) = Some b -> exists a, m = Some a /\ k a = Some b.
Proof. destruct m as [a|]; simpl; [eauto | discriminate]. Qed.

Lemma vec_at_nat {A : Type} (v : list A) (i : nat) :
  vec_at v (Z.of_nat i) = nth_error v i.
Proof.
  unfold vec_at. destruct (Z.ltb_spec (Z.of_nat i) 0); [lia |].
  now rewrite Nat2Z.id.
Qed.

Lemma vec_at_beyond {A : Type} (v : list A) (i : Z) :
  (Z.of_nat (List.length v) <= i)%Z -> vec_at v i = None.
Proof.
  intros H. unfold vec_at. destruct (Z.ltb_spec i 0); [reflexivity |].
  apply nth_error_None. lia.
Qed.

Lemma int_range_length n : List.length (int_range n) = Z.to_nat n.
Proof. unfold int_range. now rewrite length_map, length_seq. Qed.

Lemma int_range_nat n : int_range (Z.of_nat n) = map Z.of_nat (seq 0 n).
Proof. unfold int_range. now rewrite Nat2Z.id. Qed.

Lemma mapM_length {A B : Type} (f : A -> option B) l bs :
  mapM f l = Some bs -> List.length bs = List.length l.
Proof.
  revert bs. induction l as [|a l IH]; intros bs H; simpl in H.
  - injection H as <-. reflexivity.
  - apply bind_some in H as (b & _ & H).
    apply bind_some in H as (bs' & Hbs & H).
    injection H as <-. simpl. f_equal. now apply IH.
Qed.

Lemma mapM_total {A B : Type} (f : A -> option B) (g : A -> B) l :
  (forall a, In a l -> f a = Some (g a)) -> mapM f l = Some (map g l).
Proof.
  induction l as [|a l IH]; intros H; simpl; [reflexivity |].
  rewrite (H a) by now left. simpl.
  rewrite IH by (intros; apply H; now right). reflexivity.
Qed.

Lemma map_nth_seq {A B : Type} (f : A -> B) (l : list A) (d : A) :
  map (fun n => f (nth n l d)) (seq 0 (List.length l)) = map f l.
Proof.
  induction l as [|a l IH]; [reflexivity |].
  simpl. f_equal. rewrite <- seq_shift, map_map. exact IH.
Qed.

(** ** [LMSDiscreteScheduler]: the branches that leave [betas] empty *)

Lemma scheduler_trained_betas N bs be sched pt b rest :
  LMSDiscreteScheduler N bs be sched pt (b :: rest) = ([], []).
Proof. reflexivity. Qed.

Lemma scheduler_unknown_schedule N bs be sched pt :
  sched <> "linear"%string -> sched <> "scaled_linear"%string ->
  LMSDiscreteScheduler N bs be sched pt [] = ([warning_beta_schedule], []).
Proof.
  intros H1 H2. unfold LMSDiscreteScheduler.
  apply String.eqb_neq in H1, H2. rewrite H1, H2. reflexivity.
Qed.

(** ** The run schedule at [steps = 1] *)

Lemma delta_one_step :
  xdiv (Fin (- 999)) (of_Z (size_t_wrap (Z.of_nat 1 - 1))) = NInf.
Proof.
  change (size_t_wrap (Z.of_nat 1 - 1)) with 0%Z. unfold of_Z. simpl.
  rewrite (Reqb_true 0 0) by reflexivity.
  rewrite (Reqb_false (- 999) 0) by lra.
  rewrite (Rltb_true (- 999) 0) by lra. reflexivity.
Qed.

Lemma t_to_sigma_one_step log_sigma_vec : t_to_sigma log_sigma_vec 1 = None.
Proof.
  unfold t_to_sigma. rewrite delta_one_step.
  change (int_range (Z.of_nat 1)) with [0%Z]. unfold mapM, t_to_sigma_at, of_Z.
  simpl. rewrite (Reqb_true 0 0) by reflexivity. reflexivity.
Qed.

(** ** Cumulative products of alphas in (0, 1) *)

Lemma fold_left_xmul_fin l c :
  fold_left xmul (map Fin l) (Fin c) = Fin (fold_left Rmult l c).
Proof. revert c. induction l as [|a l IH]; intros c; simpl; [reflexivity | apply IH]. Qed.

Lemma accumulate_mul_fin alphas i :
  accumulate_mul (map Fin alphas) i = Fin (cumprod alphas i).
Proof. unfold accumulate_mul, cumprod. rewrite firstn_map. apply fold_left_xmul_fin. Qed.

Lemma fold_left_firstn_S l : forall i c, (i < List.length l)%nat ->
  fold_left Rmult (firstn (S i) l) c = fold_left Rmult (firstn i l) c * nth i l 0.
Proof.
  induction l as [|a l IH]; intros i c Hi; simpl in Hi; [lia |].
  destruct i as [|i].
  - simpl. reflexivity.
  - change (firstn (S (S i)) (a :: l)) with (a :: firstn (S i) l).
    change (firstn (S i) (a :: l)) with (a :: firstn i l).
    simpl fold_left. simpl nth. apply IH. lia.
Qed.

Lemma cumprod_S alphas i : (i < List.length alphas)%nat ->
  cumprod alphas (S i) = cumprod alphas i * nth i alphas 0.
Proof. intros H. unfold cumprod. now apply fold_left_firstn_S. Qed.

Section Cumprod.
Variable alphas : list R.
Hypothesis alphas_unit : Forall (fun a => 0 < a < 1) alphas.

Lemma alpha_nth i : (i < List.length alphas)%nat -> 0 < nth i alphas 0 < 1.
Proof. intros H. now apply (proj1 (Forall_nth _ alphas) alphas_unit). Qed.

Lemma cumprod_bounds i : (i <= List.length alphas)%nat ->
  0 < cumprod alphas i <= 1 /\ ((1 <= i)%nat -> cumprod alphas i < 1).
Proof.
  induction i as [|i IH]; intros Hi.
  - unfold cumprod. simpl. split; [lra | lia].
  - rewrite cumprod_S by lia.
    destruct IH as [IH _]; [lia |].
    pose proof (alpha_nth i ltac:(lia)) as Ha.
    split; [split |]; try intros _; nra.
Qed.

Lemma cumprod_step i : (i < List.length alphas)%nat ->
  cumprod alphas (S i) < cumprod alphas i.
Proof.
  intros Hi. rewrite cumprod_S by lia.
  destruct (cumprod_bounds i ltac:(lia)) as [Hc _].
  pose proof (alpha_nth i Hi) as Ha. nra.
Qed.

Lemma cumprod_decreasing i j : (i < j <= List.length alphas)%nat ->
  cumprod alphas j < cumprod alphas i.
Proof.
  intros [Hij Hj]. induction j as [|j IH]; [lia |].
  destruct (Nat.eq_dec i j) as [-> | Hne].
  - apply cumprod_step. lia.
  - apply Rlt_trans with (cumprod alphas j).
    + apply cumprod_step. lia.
    + apply IH; lia.
Qed.
End Cumprod.

Lemma sigma_of_cumprod_pos c : 0 < c < 1 -> 0 < sigma_of_cumprod c.
Proof.
  intros H. unfold sigma_of_cumprod. apply sqrt_lt_R0.
  apply Rdiv_lt_0_compat; lra.
Qed.

Lemma sigma_of_cumprod_decreasing c c' :
  0 < c' -> c' < c -> c < 1 -> sigma_of_cumprod c < sigma_of_cumprod c'.
Proof.
  intros H0 H1 H2. unfold sigma_of_cumprod.
  assert (Hinv : / c < / c') by (apply Rinv_lt_contravar; nra).
  replace ((1 - c) / c) with (/ c - 1) by (field; lra).
  replace ((1 - c') / c') with (/ c' - 1) by (field; lra).
  apply sqrt_lt_1_alt. split; [| lra].
  assert (1 < / c) by (rewrite <- Rinv_1; apply Rinv_lt_contravar; lra).
  lra.
Qed.

Lemma log_sigma_of_fin alphas i :
  0 < cumprod alphas i < 1 ->
  log_sigma_of (map Fin alphas) i
  = Fin (ln (sigma_of_cumprod (cumprod alphas i))).
Proof.
  intros Hc. unfold log_sigma_of. rewrite accumulate_mul_fin.
  cbv zeta. change (xsub (Fin 1) (Fin (cumprod alphas i)))
    with (Fin (1 - cumprod alphas i)).
  rewrite xdiv_fin by lra.
  rewrite xsqrt_fin by (apply Rlt_le, Rdiv_lt_0_compat; lra).
  rewrite xlog_fin by (now apply sigma_of_cumprod_pos).
  reflexivity.
Qed.

(** The table of a beta sequence of finite values in (0, 1). *)
Lemma log_sigma_table_fin betas :
  Forall (fun b => 0 < b < 1) betas ->
  log_sigma_table (map Fin betas)
  = map (fun i => Fin (ln (sigma_of_cumprod
                             (cumprod (map (fun b => 1 - b) betas) i))))
        (seq 1 (List.length betas)).
Proof.
  intros Hb. unfold log_sigma_table. cbv zeta.
  rewrite map_map. change (fun x => xsub (Fin 1) (Fin x)) with (fun x => Fin (1 - x)).
  rewrite <- (map_map (fun b => 1 - b) Fin).
  rewrite !length_map.
  apply map_ext_in. intros i Hi. apply in_seq in Hi.
  apply log_sigma_of_fin.
  assert (Ha : Forall (fun a => 0 < a < 1) (map (fun b => 1 - b) betas)).
  { apply Forall_map. eapply Forall_impl; [| exact Hb]. simpl. intros; lra. }
  destruct (cumprod_bounds _ Ha i) as [H1 H2]; [rewrite length_map; lia |].
  split; [lra | apply H2; lia].
Qed.

Lemma log_sigma_table_increasing betas :
  Forall (fun b => 0 < b < 1) betas ->
  exists ls, log_sigma_table (map Fin betas) = map Fin ls
             /\ List.length ls = List.length betas
             /\ increasing_reals ls.
Proof.
  intros Hb.
  set (alphas := map (fun b => 1 - b) betas).
  set (f := fun i => ln (sigma_of_cumprod (cumprod alphas i))).
  exists (map f (seq 1 (List.length betas))).
  assert (Ha : Forall (fun a => 0 < a < 1) alphas).
  { apply Forall_map. eapply Forall_impl; [| exact Hb]. simpl. intros; lra. }
  assert (Hlen : List.length alphas = List.length betas)
    by (unfold alphas; now rewrite length_map).
  split; [| split].
  - rewrite log_sigma_table_fin by assumption. now rewrite map_map.
  - now rewrite length_map, length_seq.
  - intros i j Hij. rewrite length_map, length_seq in Hij.
    rewrite !(nth_indep _ 0 (f O)) by (rewrite length_map, length_seq; lia).
    rewrite !map_nth, !seq_nth by lia. unfold f.
    destruct (cumprod_bounds _ Ha (1 + i)) as [Hi1 Hi2]; [lia |].
    destruct (cumprod_bounds _ Ha (1 + j)) as [Hj1 Hj2]; [lia |].
    apply ln_increasing.
    + apply sigma_of_cumprod_pos. split; [lra | apply Hi2; lia].
    + apply sigma_of_cumprod_decreasing; [lra | | apply Hi2; lia].
      apply cumprod_decreasing; [assumption | lia].
Qed.


(** ** The beta sequences of the two schedules *)

Lemma int_range_bounds n i : In i (int_range n) -> (0 <= i < n)%Z.
Proof.
  unfold int_range. intros H. apply in_map_iff in H as (k & <- & Hk).
  apply in_seq in Hk. lia.
Qed.

Lemma linear_betas_fin N bs be :
  (2 <= N)%Z -> 0 < bs -> bs < be -> be < 1 ->
  exists rs, linear_betas N (Fin bs) (Fin be) = map Fin rs
             /\ List.length rs = Z.to_nat N
             /\ Forall (fun b => 0 < b < 1) rs.
Proof.
  intros HN H0 H1 H2.
  assert (Hd : 0 < IZR (N - 1)) by (apply IZR_lt; lia).
  exists (map (fun i => bs + (be - bs) * IZR i / IZR (N - 1)) (int_range N)).
  split; [| split].
  - unfold linear_betas. rewrite map_map. apply map_ext. intros i.
    unfold of_Z. simpl xsub. simpl xmul. rewrite xdiv_fin by lra. reflexivity.
  - now rewrite length_map, int_range_length.
  - apply Forall_map, Forall_forall. intros i Hi. apply int_range_bounds in Hi.
    assert (Hi0 : 0 <= IZR i) by (apply IZR_le; lia).
    assert (Hi1 : IZR i <= IZR (N - 1)) by (apply IZR_le; lia).
    set (q := IZR i / IZR (N - 1)).
    assert (Hq : q * IZR (N - 1) = IZR i) by (unfold q; field; lra).
    replace ((be - bs) * IZR i / IZR (N - 1)) with ((be - bs) * q)
      by (unfold q; field; lra).
    assert (0 <= q <= 1) by (split; nra). nra.
Qed.

Lemma linspace_fill_fin n : forall v h, 0 <= h ->
  exists l, linspace_fill n (Fin v) (Fin h) = map Fin l
            /\ List.length l = n
            /\ Forall (fun x => v <= x <= v + (INR n - 1) * h) l.
Proof.
  induction n as [|n IH]; intros v h Hh.
  - exists []. repeat split; constructor.
  - destruct (IH (v + h) h Hh) as (l & El & Hlen & Hl).
    exists (v :: l). split; [| split].
    + simpl. now rewrite El.
    + simpl. now rewrite Hlen.
    + rewrite S_INR. pose proof (pos_INR n) as Hn. constructor.
      * split; nra.
      * eapply Forall_impl; [| exact Hl]. simpl. intros x Hx. split; nra.
Qed.

Lemma scaled_linear_betas_fin N bs be :
  (2 <= N < 2 ^ 31)%Z -> 0 < bs -> bs < be -> be < 1 ->
  exists rs, scaled_linear_betas N (Fin bs) (Fin be) = map Fin rs
             /\ List.length rs = Z.to_nat N
             /\ Forall (fun b => 0 < b < 1) rs.
Proof.
  intros HN H0 H1 H2. unfold scaled_linear_betas, linspace. cbv zeta.
  rewrite !xsqrt_fin by lra.
  assert (Hw : size_t_wrap N = N) by (apply Z.mod_small; lia).
  assert (Hw1 : size_t_wrap (N - 1) = (N - 1)%Z) by (apply Z.mod_small; lia).
  rewrite Hw, Hw1.
  assert (Hd : 0 < IZR (N - 1)) by (apply IZR_lt; lia).
  assert (Hs : sqrt bs < sqrt be) by (apply sqrt_lt_1_alt; lra).
  assert (Hs0 : 0 < sqrt bs) by (apply sqrt_lt_R0; lra).
  unfold of_Z. simpl xsub. rewrite xdiv_fin by lra.
  set (h := (sqrt be - sqrt bs) / IZR (N - 1)).
  assert (Hh : 0 <= h) by (apply Rlt_le, Rdiv_lt_0_compat; lra).
  destruct (linspace_fill_fin (Z.to_nat N) (sqrt bs) h Hh) as (l & El & Hlen & Hl).
  exists (map (fun b => b * b) l). split; [| split].
  - rewrite El, !map_map. reflexivity.
  - now rewrite length_map.
  - apply Forall_map. eapply Forall_impl; [| exact Hl]. simpl. intros x Hx.
    rewrite INR_IZR_INZ, Z2Nat.id in Hx by lia.
    replace ((IZR N - 1) * h) with (sqrt be - sqrt bs) in Hx
      by (unfold h; rewrite minus_IZR; field; rewrite minus_IZR in Hd; lra).
    pose proof (sqrt_sqrt bs ltac:(lra)) as Eb.
    pose proof (sqrt_sqrt be ltac:(lra)) as Ee.
    split; nra.
Qed.

Lemma scheduler_linear N bs be pt :
  LMSDiscreteScheduler N bs be "linear" pt []
  = ([], log_sigma_table (linear_betas N bs be)).
Proof. reflexivity. Qed.

Lemma scheduler_scaled_linear N bs be pt :
  LMSDiscreteScheduler N bs be "scaled_linear" pt []
  = ([], log_sigma_table (scaled_linear_betas N bs be)).
Proof. reflexivity. Qed.

(** The table of either schedule: finite entries, one for each training
    timestep, strictly increasing. *)
Lemma scheduler_table_fin N bs be sched pt :
  (2 <= N < 2 ^ 31)%Z -> 0 < bs -> bs < be -> be < 1 ->
  sched = "linear"%string \/ sched = "scaled_linear"%string ->
  exists ls, snd (LMSDiscreteScheduler N (Fin bs) (Fin be) sched pt [])
             = map Fin ls
             /\ List.length ls = Z.to_nat N
             /\ increasing_reals ls.
Proof.
  intros HN H0 H1 H2 [-> | ->].
  - rewrite scheduler_linear. simpl snd.
    destruct (linear_betas_fin N bs be) as (rs & -> & Hlen & Hrs); try lia; try lra.
    destruct (log_sigma_table_increasing rs Hrs) as (ls & -> & Hl & Hinc).
    exists ls. repeat split; [congruence | assumption].
  - rewrite scheduler_scaled_linear. simpl snd.
    destruct (scaled_linear_betas_fin N bs be) as (rs & -> & Hlen & Hrs); try lia; try lra.
    destruct (log_sigma_table_increasing rs Hrs) as (ls & -> & Hl & Hinc).
    exists ls. repeat split; [congruence | assumption].
Qed.

(** ** [sigma_to_timestemp]: bounds *)

Lemma vec_at_some {A : Type} (v : list A) (i : Z) :
  (0 <= i < Z.of_nat (List.length v))%Z -> exists x, vec_at v i = Some x.
Proof.
  intros H. unfold vec_at. destruct (Z.ltb_spec i 0); [lia |].
  destruct (nth_error v (Z.to_nat i)) as [x|] eqn:E; [eauto |].
  apply nth_error_None in E. lia.
Qed.

Lemma vec_at_firstn {A : Type} (v : list A) (n : nat) (i : Z) :
  (i < Z.of_nat n)%Z -> vec_at (firstn n v) i = vec_at v i.
Proof.
  intros H. unfold vec_at. destruct (Z.ltb_spec i 0); [reflexivity |].
  rewrite nth_error_firstn.
  destruct (Nat.ltb_spec (Z.to_nat i) n); [reflexivity | lia].
Qed.

Lemma dists_loop_total log_sigmas log_sigma n : forall i prev,
  (0 <= i)%Z -> (i + Z.of_nat n <= Z.of_nat (List.length log_sigmas))%Z ->
  exists dists, dists_loop log_sigmas log_sigma n i prev = Some dists
                /\ List.length dists = n.
Proof.
  induction n as [|n IH]; intros i prev Hi Hn.
  - exists []. split; reflexivity.
  - destruct (vec_at_some log_sigmas i) as [x Ex]; [lia |].
    simpl. rewrite Ex. simpl.
    match goal with |- context [dists_loop _ _ n (i + 1)%Z ?d] =>
      destruct (IH (i + 1)%Z d) as (ds & -> & Hlen); [lia | lia |] end.
    simpl. eexists. split; [reflexivity |]. simpl. now rewrite Hlen.
Qed.

Lemma dists_loop_short log_sigmas log_sigma n : forall i prev,
  (0 <= i <= Z.of_nat (List.length log_sigmas))%Z ->
  (Z.of_nat (List.length log_sigmas) < i + Z.of_nat n)%Z ->
  dists_loop log_sigmas log_sigma n i prev = None.
Proof.
  induction n as [|n IH]; intros i prev Hi Hn; [lia |].
  simpl. destruct (vec_at log_sigmas i) as [x|] eqn:Ex; [| reflexivity].
  simpl. rewrite IH; [reflexivity | | lia].
  destruct (Z.le_gt_cases (Z.of_nat (List.length log_sigmas)) i) as [Hge | Hlt].
  - rewrite vec_at_beyond in Ex by assumption. discriminate.
  - lia.
Qed.

Lemma dists_loop_firstn log_sigmas log_sigma m n : forall i prev,
  (i + Z.of_nat n <= Z.of_nat m)%Z ->
  dists_loop (firstn m log_sigmas) log_sigma n i prev
  = dists_loop log_sigmas log_sigma n i prev.
Proof.
  induction n as [|n IH]; intros i prev Hn; [reflexivity |].
  simpl. rewrite vec_at_firstn by lia.
  destruct (vec_at log_sigmas i) as [x|]; [| reflexivity].
  simpl. rewrite IH by lia. reflexivity.
Qed.

Lemma max_element_from_bound l : forall i best bestv,
  (best < i)%nat -> (max_element_from l i best bestv < i + List.length l)%nat.
Proof.
  induction l as [|x l IH]; intros i best bestv Hb; simpl; [lia |].
  destruct (xltb bestv x).
  - specialize (IH (S i) i x). lia.
  - specialize (IH (S i) best bestv). lia.
Qed.

Lemma max_element_bound l : l <> [] -> (max_element l < List.length l)%nat.
Proof.
  destruct l as [|x l]; [congruence |]. intros _. simpl.
  pose proof (max_element_from_bound l 1 0 x). lia.
Qed.

Lemma stt_low_idx_bounds dists :
  (0 <= stt_low_idx dists <= 998)%Z.
Proof. unfold stt_low_idx. lia. Qed.

(** Whatever [w] is, also [NaN] or an infinity, the two clamps leave a
    finite weight between 0 and 1. *)
Lemma clamp_unit x :
  exists w, std_max (Fin 0) (std_min (Fin 1) x) = Fin w /\ 0 <= w <= 1.
Proof.
  unfold std_max, std_min. destruct x as [a | | |]; simpl.
  - unfold Rltb. destruct (Rlt_dec a 1) as [H1 | H1]; simpl; unfold Rltb.
    + destruct (Rlt_dec 0 a); [exists a | exists 0]; split; try reflexivity; lra.
    + destruct (Rlt_dec 0 1); [exists 1 | exists 0]; split; try reflexivity; lra.
  - rewrite Rltb_true by lra. exists 1. split; [reflexivity | lra].
  - exists 0. split; [reflexivity | lra].
  - rewrite Rltb_true by lra. exists 1. split; [reflexivity | lra].
Qed.

Lemma stt_weight_unit low high log_sigma :
  exists w, stt_weight low high log_sigma = Fin w /\ 0 <= w <= 1.
Proof. unfold stt_weight. apply clamp_unit. Qed.

Lemma Rround_away_between (m : Z) a :
  (0 <= m)%Z -> IZR m <= a <= IZR m + 1 -> (m <= Rround_away a <= m + 1)%Z.
Proof.
  intros Hm Ha. unfold Rround_away.
  assert (0 <= IZR m) by (apply IZR_le; lia).
  rewrite Rleb_true by lra. split.
  - apply Zfloor_lub. lra.
  - pose proof (Zfloor_bound (a + / 2)) as [Hf _].
    assert (Hlt : IZR (Zfloor (a + / 2)) < IZR (m + 2)).
    { rewrite plus_IZR. lra. }
    apply lt_IZR in Hlt. lia.
Qed.

Lemma Rround_away_Z (m : Z) : (0 <= m)%Z -> Rround_away (IZR m) = m.
Proof.
  intros Hm. unfold Rround_away.
  assert (0 <= IZR m) by (apply IZR_le; lia).
  rewrite Rleb_true by lra. apply Zfloor_eq. lra.
Qed.

Lemma llround_fin a :
  (- 2 ^ 63 <= Rround_away a < 2 ^ 63)%Z ->
  llround (Fin a) = Some (Rround_away a).
Proof.
  intros H. unfold llround. cbv zeta.
  destruct (Z.leb_spec (- 2 ^ 63) (Rround_away a)); [| lia].
  destruct (Z.ltb_spec (Rround_away a) (2 ^ 63)); [reflexivity | lia].
Qed.

Lemma llround_interpolation (low_idx : Z) w :
  (0 <= low_idx <= 998)%Z -> 0 <= w <= 1 ->
  exists t,
    llround (xadd (xmul (xsub (Fin 1) (Fin w)) (of_Z low_idx))
                  (xmul (Fin w) (of_Z (low_idx + 1)))) = Some t
    /\ (low_idx <= t <= low_idx + 1)%Z.
Proof.
  intros Hl Hw. unfold of_Z.
  set (a := (1 - w) * IZR low_idx + w * IZR (low_idx + 1)).
  change (xadd _ _) with (Fin a).
  assert (Ha : IZR low_idx <= a <= IZR low_idx + 1).
  { unfold a. rewrite plus_IZR. split; nra. }
  pose proof (Rround_away_between low_idx a ltac:(lia) Ha) as Hr.
  exists (Rround_away a). split; [| assumption].
  apply llround_fin. lia.
Qed.

(** With a table of at least 1000 entries the mapper returns a timestep
    between its two neighbouring indices, whatever the sigma. *)
Lemma sigma_to_timestemp_total log_sigmas sigma :
  (1000 <= List.length log_sigmas)%nat ->
  exists dists low high w t,
    dists_loop log_sigmas (xlog sigma) 1000 0 (Fin 0) = Some dists
    /\ vec_at log_sigmas (stt_low_idx dists) = Some low
    /\ vec_at log_sigmas (stt_low_idx dists + 1) = Some high
    /\ stt_weight low high (xlog sigma) = Fin w /\ 0 <= w <= 1
    /\ sigma_to_timestemp log_sigmas sigma = Some t
    /\ (stt_low_idx dists <= t <= stt_low_idx dists + 1)%Z.
Proof.
  intros Hlen. unfold sigma_to_timestemp.
  destruct (dists_loop_total log_sigmas (xlog sigma) 1000 0 (Fin 0))
    as (dists & Ed & Hd); [lia | lia |].
  pose proof (stt_low_idx_bounds dists) as Hlow.
  destruct (vec_at_some log_sigmas (stt_low_idx dists)) as [low El]; [lia |].
  destruct (vec_at_some log_sigmas (stt_low_idx dists + 1)) as [high Eh]; [lia |].
  destruct (stt_weight_unit low high (xlog sigma)) as (w & Ew & Hw).
  destruct (llround_interpolation (stt_low_idx dists) w Hlow Hw) as (t & Et & Ht).
  exists dists, low, high, w, t.
  rewrite Ed. cbn [bind]. rewrite El, Eh. cbn [bind]. rewrite Ew.
  repeat split; try assumption; try reflexivity; try lra; try lia.
Qed.

(** ** [sigma_to_timestemp] at a sigma of the table *)

Lemma max_element_from_skip l : forall i best bestv,
  Forall (fun z => xltb bestv z = false) l ->
  max_element_from l i best bestv = best.
Proof.
  induction l as [|z l IH]; intros i best bestv H; simpl; [reflexivity |].
  inversion H as [|? ? Hz Hl]; subst. rewrite Hz. now apply IH.
Qed.

Lemma max_element_from_climb l1 x l2 : forall i best bestv,
  xltb bestv x = true ->
  Forall (fun y => xltb y x = true) l1 ->
  Forall (fun z => xltb x z = false) l2 ->
  max_element_from (l1 ++ x :: l2) i best bestv = (i + List.length l1)%nat.
Proof.
  induction l1 as [|y l1 IH]; intros i best bestv Hb H1 H2; simpl.
  - rewrite Hb, max_element_from_skip by assumption. lia.
  - inversion H1 as [|? ? Hy Hl1]; subst.
    destruct (xltb bestv y); rewrite IH by assumption; lia.
Qed.

(** The first greatest element: everything before it is smaller, nothing
    after it is greater. *)
Lemma max_element_first l1 x l2 :
  Forall (fun y => xltb y x = true) l1 ->
  Forall (fun z => xltb x z = false) l2 ->
  max_element (l1 ++ x :: l2) = List.length l1.
Proof.
  intros H1 H2. destruct l1 as [|y l1]; simpl.
  - now apply max_element_from_skip.
  - inversion H1 as [|? ? Hy Hl1]; subst.
    now rewrite max_element_from_climb.
Qed.

Section Aligned.
Variable ls : list R.
Variable k : nat.
Hypothesis ls_increasing : increasing_reals ls.
Hypothesis k_valid : (k < List.length ls)%nat.

Lemma vec_at_fin (i : nat) : (i < List.length ls)%nat ->
  vec_at (map Fin ls) (Z.of_nat i) = Some (Fin (nth i ls 0)).
Proof.
  intros Hi. rewrite vec_at_nat. apply map_nth_error.
  now apply nth_error_nth'.
Qed.

Lemma indicator_aligned (i : nat) : (i < List.length ls)%nat ->
  xgeb (xsub (Fin (nth k ls 0)) (Fin (nth i ls 0))) (Fin 0)
  = (i <=? k)%nat.
Proof.
  intros Hi. simpl. destruct (Nat.leb_spec i k) as [Hle | Hgt].
  - apply Rleb_true. destruct (Nat.eq_dec i k) as [-> | Hne]; [lra |].
    pose proof (ls_increasing i k ltac:(lia)). lra.
  - apply Rleb_false. pose proof (ls_increasing k i ltac:(lia)). lra.
Qed.

Lemma dists_loop_aligned n : forall (i : nat) prev,
  (i + n <= List.length ls)%nat ->
  (i = O \/ exists i', i = S i' /\ prev = dists_count k i') ->
  dists_loop (map Fin ls) (Fin (nth k ls 0)) n (Z.of_nat i) prev
  = Some (map (dists_count k) (seq i n)).
Proof.
  induction n as [|n IH]; intros i prev Hn Hprev; [reflexivity |].
  cbn [dists_loop seq map]. rewrite vec_at_fin by lia. cbn [bind].
  rewrite indicator_aligned by lia.
  replace (Z.of_nat i + 1)%Z with (Z.of_nat (S i)) by lia.
  match goal with |- context [dists_loop _ _ n _ ?d] =>
    assert (Ed : d = dists_count k i) end.
  { unfold dists_count. destruct Hprev as [-> | (i' & -> & ->)].
    - change (Z.of_nat 0 =? 0)%Z with true. cbv iota.
      change (0 <=? k)%nat with true. cbv iota.
      replace (Z.min (Z.of_nat 0) (Z.of_nat k) + 1)%Z with 1%Z by lia.
      reflexivity.
    - destruct (Z.eqb_spec (Z.of_nat (S i')) 0); [lia |].
      unfold dists_count.
      destruct (Nat.leb_spec (S i') k); simpl; f_equal;
        rewrite <- plus_IZR; f_equal; lia. }
  rewrite Ed, IH; [reflexivity | lia | right; eauto].
Qed.

Lemma dists_aligned : (1000 <= List.length ls)%nat ->
  dists_loop (map Fin ls) (Fin (nth k ls 0)) 1000 0 (Fin 0)
  = Some (map (dists_count k) (seq 0 1000)).
Proof.
  intros H. apply (dists_loop_aligned 1000 O); [lia | now left].
Qed.
End Aligned.

Lemma max_element_counts (k n : nat) : (k < n)%nat ->
  max_element (map (dists_count k) (seq 0 n)) = k.
Proof.
  intros Hk. replace n with (k + S (n - S k))%nat by lia.
  rewrite seq_app, map_app. cbn [seq map]. rewrite max_element_first.
  - now rewrite length_map, length_seq.
  - apply Forall_map, Forall_forall. intros j Hj. apply in_seq in Hj.
    apply xltb_fin, IZR_lt. lia.
  - apply Forall_map, Forall_forall. intros j Hj. apply in_seq in Hj.
    apply xltb_fin_false, IZR_le. lia.
Qed.


Lemma stt_weight_at_low lo hi : lo <> hi ->
  stt_weight (Fin lo) (Fin hi) (Fin lo) = Fin 0.
Proof.
  intros H. unfold stt_weight. cbv zeta. simpl xsub.
  rewrite xdiv_fin by lra.
  replace ((lo - lo) / (lo - hi)) with 0 by (field; lra).
  unfold std_min. rewrite xltb_fin by lra.
  unfold std_max. now rewrite xltb_fin_false by lra.
Qed.

Lemma stt_weight_at_high lo hi : lo <> hi ->
  stt_weight (Fin lo) (Fin hi) (Fin hi) = Fin 1.
Proof.
  intros H. unfold stt_weight. cbv zeta. simpl xsub.
  rewrite xdiv_fin by lra.
  replace ((lo - hi) / (lo - hi)) with 1 by (field; lra).
  unfold std_min. rewrite xltb_fin_false by lra.
  unfold std_max. now rewrite xltb_fin by lra.
Qed.

Lemma llround_at_low (m : Z) : (0 <= m < 2 ^ 62)%Z ->
  llround (xadd (xmul (xsub (Fin 1) (Fin 0)) (of_Z m))
                (xmul (Fin 0) (of_Z (m + 1)))) = Some m.
Proof.
  intros Hm. unfold of_Z.
  change (xadd _ _) with (Fin ((1 - 0) * IZR m + 0 * IZR (m + 1))).
  replace ((1 - 0) * IZR m + 0 * IZR (m + 1)) with (IZR m) by ring.
  rewrite llround_fin; rewrite Rround_away_Z; try reflexivity; lia.
Qed.

Lemma llround_at_high (m : Z) : (0 <= m < 2 ^ 62)%Z ->
  llround (xadd (xmul (xsub (Fin 1) (Fin 1)) (of_Z m))
                (xmul (Fin 1) (of_Z (m + 1)))) = Some (m + 1)%Z.
Proof.
  intros Hm. unfold of_Z.
  change (xadd _ _) with (Fin ((1 - 1) * IZR m + 1 * IZR (m + 1))).
  replace ((1 - 1) * IZR m + 1 * IZR (m + 1)) with (IZR (m + 1)) by ring.
  rewrite llround_fin; rewrite Rround_away_Z; try reflexivity; lia.
Qed.

(** On an increasing finite table the mapper inverts the table exactly. *)
Lemma sigma_to_timestemp_aligned ls k :
  increasing_reals ls -> (1000 <= List.length ls)%nat -> (k < 1000)%nat ->
  sigma_to_timestemp (map Fin ls) (Fin (exp (nth k ls 0)))
  = Some (Z.of_nat k).
Proof.
  intros Hinc Hlen Hk. unfold sigma_to_timestemp.
  rewrite xlog_fin by apply exp_pos. rewrite ln_exp.
  rewrite dists_aligned by (assumption || lia). cbn [bind].
  unfold stt_low_idx. rewrite max_element_counts by assumption.
  destruct (Nat.eq_dec k 999) as [-> | Hne].
  - change (Z.min (Z.of_nat 999) (1000 - 2)) with (Z.of_nat 998).
    rewrite (vec_at_fin ls 998) by lia. cbn [bind].
    change (Z.of_nat 998 + 1)%Z with (Z.of_nat 999).
    rewrite (vec_at_fin ls 999) by lia. cbn [bind].
    pose proof (Hinc 998%nat 999%nat ltac:(lia)).
    rewrite stt_weight_at_high by lra.
    change (Z.of_nat 999) with (Z.of_nat 998 + 1)%Z.
    apply llround_at_high. lia.
  - replace (Z.min (Z.of_nat k) (1000 - 2)) with (Z.of_nat k) by lia.
    rewrite (vec_at_fin ls k) by lia. cbn [bind].
    replace (Z.of_nat k + 1)%Z with (Z.of_nat (S k)) by lia.
    rewrite (vec_at_fin ls (S k)) by lia. cbn [bind].
    pose proof (Hinc k (S k) ltac:(lia)).
    rewrite stt_weight_at_low by lra.
    replace (Z.of_nat (S k)) with (Z.of_nat k + 1)%Z by lia.
    apply llround_at_low. lia.
Qed.

Lemma sigma_to_timestemp_short log_sigmas sigma :
  (List.length log_sigmas < 1000)%nat ->
  sigma_to_timestemp log_sigmas sigma = None.
Proof.
  intros H. unfold sigma_to_timestemp.
  rewrite dists_loop_short by lia. reflexivity.
Qed.

Lemma sigma_to_timestemp_firstn log_sigmas sigma :
  sigma_to_timestemp (firstn 1000 log_sigmas) sigma
  = sigma_to_timestemp log_sigmas sigma.
Proof.
  unfold sigma_to_timestemp. rewrite dists_loop_firstn by lia.
  destruct (dists_loop log_sigmas (xlog sigma) 1000 0 (Fin 0)) as [dists|];
    [| reflexivity].
  cbn [bind]. pose proof (stt_low_idx_bounds dists).
  rewrite !vec_at_firstn by lia. reflexivity.
Qed.

(** ** [trapezoidal] on the constant integrand of order 1 *)

Lemma lms_derivative_order_one tau sigma_vec t :
  lms_derivative_function tau 1 0 sigma_vec t = Some (Fin 1).
Proof. reflexivity. Qed.

Lemma trapezoidal_loop_S f a tol left k I0 h :
  trapezoidal_loop f a tol (S left) k I0 h
  = (cnt <- shl_one (k - 1) ;;
     sum <- trapezoidal_sum f a h (Z.to_nat cnt) 1 (Fin 0) ;;
     let I1 := xadd (xmul (Fin (1 / 2)) I0) (xmul h sum) in
     if ((1 <? k)%Z && xltb (xabs (xsub I1 I0)) tol)%bool
     then Some I1
     else trapezoidal_loop f a tol left (k + 1) I1 (xdiv h (Fin 2))).
Proof. reflexivity. Qed.

Lemma trapezoidal_sum_const a h cnt : forall j s,
  trapezoidal_sum (fun _ => Some (Fin 1)) a h cnt j (Fin s)
  = Some (Fin (s + INR cnt)).
Proof.
  induction cnt as [|cnt IH]; intros j s.
  - simpl. do 2 f_equal. ring.
  - cbn [trapezoidal_sum bind]. change (xadd (Fin s) (Fin 1)) with (Fin (s + 1)).
    rewrite IH, S_INR. do 2 f_equal. ring.
Qed.

(** The first estimate is already [b - a]; the refinements at [k = 1] and
    [k = 2] give the same value and the loop returns at [k = 2]. *)
Lemma trapezoidal_const a b tol : 0 < tol ->
  trapezoidal (fun _ => Some (Fin 1)) (Fin a) (Fin b) (Fin tol) 100
  = Some (Fin (b - a)).
Proof.
  intros Htol. unfold trapezoidal. cbn [bind]. simpl xsub.
  rewrite xdiv_fin by lra.
  set (h := (b - a) / 2).
  change (xmul (xadd (Fin 1) (Fin 1)) (Fin h)) with (Fin ((1 + 1) * h)).
  change (Z.to_nat 100) with (S (S 98)).
  rewrite trapezoidal_loop_S.
  change (shl_one (1 - 1)) with (Some 1%Z). cbn [bind].
  rewrite trapezoidal_sum_const. cbn [bind]. cbv zeta.
  change (1 <? 1)%Z with false. cbn [andb].
  rewrite xdiv_fin by lra.
  change (Z.to_nat 1) with 1%nat.
  change (xadd (xmul (Fin (1 / 2)) (Fin ((1 + 1) * h)))
               (xmul (Fin h) (Fin (0 + INR 1))))
    with (Fin (1 / 2 * ((1 + 1) * h) + h * (0 + INR 1))).
  rewrite trapezoidal_loop_S.
  change (shl_one (1 + 1 - 1)) with (Some 2%Z). cbn [bind].
  rewrite trapezoidal_sum_const. cbn [bind]. cbv zeta.
  change (1 <? 1 + 1)%Z with true. cbn [andb].
  change (Z.to_nat 2) with 2%nat.
  match goal with
  | |- context [xadd (xmul (Fin ?c) (Fin ?i)) (xmul (Fin ?g) (Fin ?s))] =>
      change (xadd (xmul (Fin c) (Fin i)) (xmul (Fin g) (Fin s)))
        with (Fin (c * i + g * s))
  end.
  simpl xsub. simpl xabs. simpl INR.
  match goal with
  | |- context [Rabs ?e] => replace e with 0 by (unfold h; field)
  end.
  rewrite Rabs_R0, xltb_fin by lra.
  do 2 f_equal. unfold h. field.
Qed.

Lemma lms_coeffs_order_one sigma i a b :
  vec_at sigma (Z.of_nat i) = Some (Fin a) ->
  vec_at sigma (Z.of_nat i + 1) = Some (Fin b) ->
  lms_coeffs sigma i 1 = Some [Fin (b - a)].
Proof.
  intros Ha Hb. unfold lms_coeffs. change (int_range 1) with [0%Z].
  cbn [mapM]. rewrite Ha, Hb. cbn [bind].
  change (fun tau => lms_derivative_function tau (int32_wrap 1) 0 sigma
                      (int32_wrap (Z.of_nat i)))
    with (fun _ : xreal => Some (Fin 1)).
  unfold lms_tolerance. rewrite trapezoidal_const by lra. reflexivity.
Qed.

(** ** The derivative and the history *)

Lemma derivative_at_fin latent noise_pred s j l e :
  vec_at latent j = Some (Fin l) -> vec_at noise_pred j = Some (Fin e) ->
  s <> 0 ->
  derivative_at latent noise_pred (Fin s) j = Some (Fin e).
Proof.
  intros Hl He Hs. unfold derivative_at. rewrite Hl, He. cbn [bind].
  simpl xmul. simpl xsub. rewrite xdiv_fin by assumption.
  do 2 f_equal. field. assumption.
Qed.

Lemma derivative_vec_fin latent_vector_1d noise_pred_1d ls es s :
  data latent_vector_1d = map Fin ls ->
  data noise_pred_1d = map Fin es ->
  get_size latent_vector_1d = Z.of_nat (List.length ls) ->
  List.length es = List.length ls ->
  s <> 0 ->
  derivative_vec latent_vector_1d noise_pred_1d (Fin s)
  = Some (data noise_pred_1d).
Proof.
  intros Hl He Hsize Hlen Hs. unfold derivative_vec.
  rewrite Hl, He, Hsize, int_range_nat.
  rewrite (mapM_total _ (fun j => Fin (nth (Z.to_nat j) es 0))).
  - f_equal. rewrite map_map, <- Hlen.
    rewrite (map_ext _ (fun n => Fin (nth n es 0)))
      by (intros n; now rewrite Nat2Z.id).
    apply map_nth_seq.
  - intros j Hj. apply in_map_iff in Hj as (n & <- & Hn). apply in_seq in Hn.
    rewrite Nat2Z.id.
    apply derivative_at_fin with (l := nth n ls 0); try assumption.
    + rewrite vec_at_nat. apply map_nth_error, nth_error_nth'. lia.
    + rewrite vec_at_nat. apply map_nth_error, nth_error_nth'. lia.
Qed.

Lemma push_derivative_last hist d : last (push_derivative hist d) [] = d.
Proof.
  unfold push_derivative. cbv zeta.
  destruct (Z.ltb_spec 4 (Z.of_nat (List.length (hist ++ [d])))) as [H | H].
  - rewrite length_app in H. cbn [List.length] in H.
    destruct hist as [|x hist]; [cbn [List.length] in H; lia |].
    cbn [tl app]. apply last_last.
  - apply last_last.
Qed.

Lemma push_derivative_length hist d :
  List.length (push_derivative hist d)
  = Nat.min (List.length hist + 1) (Nat.max 4 (List.length hist)).
Proof.
  unfold push_derivative. cbv zeta.
  destruct (Z.ltb_spec 4 (Z.of_nat (List.length (hist ++ [d])))) as [H | H];
    rewrite length_app in H; cbn [List.length] in H.
  - destruct hist as [|x hist]; [cbn [List.length] in H; lia |].
    cbn [tl app]. rewrite length_app. cbn [List.length] in *. lia.
  - rewrite length_app. cbn [List.length]. lia.
Qed.





(** ** The run schedule for two steps or more *)

Lemma Rtrunc_Z z : Rtrunc (IZR z) = z.
Proof.
  unfold Rtrunc. destruct (Rleb 0 (IZR z)).
  - apply ZfloorZ.
  - unfold Zceil. rewrite ZfloorNZ. lia.
Qed.

Lemma to_int32_Z z : (- 2 ^ 31 <= z < 2 ^ 31)%Z -> to_int32 (Fin (IZR z)) = Some z.
Proof.
  intros H. unfold to_int32. cbv zeta. rewrite Rtrunc_Z.
  destruct (Z.leb_spec (- 2 ^ 31) z); [| lia].
  destruct (Z.ltb_spec z (2 ^ 31)); [reflexivity | lia].
Qed.

Lemma Zceil_cases t :
  (t = IZR (Zfloor t) /\ Zceil t = Zfloor t)
  \/ (IZR (Zfloor t) < t /\ Zceil t = (Zfloor t + 1)%Z).
Proof.
  pose proof (Zfloor_bound t) as [Hl Hu].
  destruct (Req_dec_T t (IZR (Zfloor t))) as [E | N].
  - left. split; [assumption |]. apply Zceil_eq. lra.
  - right. split; [lra |]. apply Zceil_eq. rewrite plus_IZR. lra.
Qed.

Lemma Zfloor_range t : 0 <= t <= 999 -> (0 <= Zfloor t <= 999)%Z.
Proof.
  intros [H0 H1]. split.
  - apply Zfloor_lub. simpl. lra.
  - pose proof (Zfloor_bound t) as [Hl _].
    apply le_IZR. lra.
Qed.

Lemma Zceil_range t : 0 <= t <= 999 -> (0 <= Zceil t <= 999)%Z.
Proof.
  intros H. pose proof (Zfloor_range t H).
  destruct (Zceil_cases t) as [[_ ->] | [Hlt ->]]; [lia |].
  split; [lia |].
  assert (IZR (Zfloor t) < IZR 999) by lra.
  apply lt_IZR in H1. lia.
Qed.

Lemma vec_at_fin_Z ls (m : Z) :
  (0 <= m < Z.of_nat (List.length ls))%Z ->
  vec_at (map Fin ls) m = Some (Fin (nth (Z.to_nat m) ls 0)).
Proof.
  intros H. rewrite <- (Z2Nat.id m) at 1 by lia. apply vec_at_fin. lia.
Qed.

Section Interpolation.
Variable ls : list R.
Hypothesis ls_increasing : increasing_reals ls.
Hypothesis ls_long : (1000 <= List.length ls)%nat.

Lemma entry_at_lt m m' :
  (0 <= m < m')%Z -> (m' <= 999)%Z -> entry_at ls m < entry_at ls m'.
Proof. intros H H'. apply ls_increasing. lia. Qed.

Lemma entry_at_le m m' :
  (0 <= m <= m')%Z -> (m' <= 999)%Z -> entry_at ls m <= entry_at ls m'.
Proof.
  intros H H'. destruct (Z.eq_dec m m') as [-> | N]; [lra |].
  left. apply entry_at_lt; lia.
Qed.

Lemma interpolate_cases t : 0 <= t <= 999 ->
  (t = IZR (Zfloor t) /\ interpolate ls t = entry_at ls (Zfloor t))
  \/ (0 < t - IZR (Zfloor t) < 1 /\ (Zfloor t + 1 <= 999)%Z
      /\ interpolate ls t
         = (1 - (t - IZR (Zfloor t))) * entry_at ls (Zfloor t)
           + (t - IZR (Zfloor t)) * entry_at ls (Zfloor t + 1)).
Proof.
  intros Ht. unfold interpolate. cbv zeta.
  pose proof (Zfloor_bound t) as [Hl Hu].
  pose proof (Zceil_range t Ht) as Hc.
  destruct (Zceil_cases t) as [[E Ec] | [Hlt Ec]]; rewrite Ec in *.
  - left. split; [assumption |]. fold (entry_at ls (Zfloor t)).
    rewrite <- E. ring.
  - right. split; [lra | split; [lia | reflexivity]].
Qed.

Lemma interpolate_lower t :
  0 <= t <= 999 -> entry_at ls (Zfloor t) <= interpolate ls t.
Proof.
  intros Ht. pose proof (Zfloor_range t Ht).
  destruct (interpolate_cases t Ht) as [[_ ->] | (Hw & Hm & ->)]; [lra |].
  pose proof (entry_at_lt (Zfloor t) (Zfloor t + 1) ltac:(lia) Hm). nra.
Qed.

Lemma interpolate_upper t : 0 <= t <= 999 -> (Zfloor t + 1 <= 999)%Z ->
  interpolate ls t < entry_at ls (Zfloor t + 1).
Proof.
  intros Ht Hm. pose proof (Zfloor_range t Ht).
  pose proof (entry_at_lt (Zfloor t) (Zfloor t + 1) ltac:(lia) Hm).
  destruct (interpolate_cases t Ht) as [[_ ->] | (Hw & _ & ->)]; [lra | nra].
Qed.

Lemma interpolate_increasing t t' : 0 <= t -> t < t' -> t' <= 999 ->
  interpolate ls t < interpolate ls t'.
Proof.
  intros H0 Hlt H1.
  assert (Ht : 0 <= t <= 999) by lra. assert (Ht' : 0 <= t' <= 999) by lra.
  pose proof (Zfloor_range t Ht) as Hm. pose proof (Zfloor_range t' Ht') as Hm'.
  pose proof (Zfloor_le t t' ltac:(lra)) as Hle.
  destruct (Z.eq_dec (Zfloor t) (Zfloor t')) as [E | N].
  - pose proof (Zfloor_bound t) as [Hl Hu]. pose proof (Zfloor_bound t') as [Hl' Hu'].
    destruct (interpolate_cases t' Ht') as [[E' _] | (Hw' & Hmm & ->)].
    + rewrite <- E in E'. lra.
    + rewrite <- E in *.
      pose proof (entry_at_lt (Zfloor t) (Zfloor t + 1) ltac:(lia) Hmm).
      destruct (interpolate_cases t Ht) as [[_ ->] | (Hw & _ & ->)]; nra.
  - apply Rlt_le_trans with (entry_at ls (Zfloor t + 1)).
    + apply interpolate_upper; [assumption | lia].
    + apply Rle_trans with (entry_at ls (Zfloor t')).
      * apply entry_at_le; lia.
      * now apply interpolate_lower.
Qed.

Lemma t_to_sigma_at_fin delta (i : Z) :
  0 <= 999 + IZR i * delta <= 999 ->
  t_to_sigma_at (map Fin ls) (Fin delta) i
  = Some (Fin (exp (interpolate ls (999 + IZR i * delta)))).
Proof.
  intros Ht. unfold t_to_sigma_at, of_Z. cbv zeta.
  change (xadd (Fin 999) (xmul (Fin (IZR i)) (Fin delta)))
    with (Fin (999 + IZR i * delta)).
  set (t := 999 + IZR i * delta) in *.
  pose proof (Zfloor_range t Ht) as Hf. pose proof (Zceil_range t Ht) as Hc.
  cbn [xfloor xceil]. rewrite !to_int32_Z by lia. cbn [bind].
  rewrite !vec_at_fin_Z by lia. cbn [bind].
  reflexivity.
Qed.
End Interpolation.

Lemma run_times (steps : nat) (j : Z) :
  (2 <= steps)%nat -> (0 <= j <= Z.of_nat steps - 1)%Z ->
  let delta := - 999 / IZR (Z.of_nat steps - 1) in
  0 <= 999 + IZR j * delta <= 999
  /\ (forall j', (j < j')%Z -> 999 + IZR j' * delta < 999 + IZR j * delta).
Proof.
  intros Hs Hj delta.
  assert (Hd : 0 < IZR (Z.of_nat steps - 1)) by (apply IZR_lt; lia).
  assert (Hj0 : 0 <= IZR j) by (apply IZR_le; lia).
  assert (Hj1 : IZR j <= IZR (Z.of_nat steps - 1)) by (apply IZR_le; lia).
  set (d := IZR (Z.of_nat steps - 1)) in *.
  set (q := IZR j / d).
  assert (Hq : q * d = IZR j) by (unfold q; field; lra).
  assert (Hq01 : 0 <= q <= 1) by (split; nra).
  assert (Hdelta : delta < 0).
  { unfold delta. apply Ropp_lt_cancel. rewrite Ropp_0.
    replace (- (- 999 / d)) with (999 / d) by (field; lra).
    apply Rdiv_lt_0_compat; lra. }
  split.
  - replace (IZR j * delta) with (- 999 * q) by (unfold delta, q; field; lra).
    lra.
  - intros j' Hlt. apply IZR_lt in Hlt. nra.
Qed.

Lemma t_to_sigma_decreasing ls (steps : nat) :
  increasing_reals ls -> (1000 <= List.length ls)%nat ->
  (2 <= steps)%nat -> (Z.of_nat steps < 2 ^ 64)%Z ->
  exists sigma, t_to_sigma (map Fin ls) steps = Some sigma
                /\ List.length sigma = (steps + 1)%nat
                /\ nth_error sigma steps = Some (Fin 0)
                /\ strictly_decreasing sigma.
Proof.
  intros Hinc Hlen Hs Hmax. unfold t_to_sigma. cbv zeta.
  assert (Hw : size_t_wrap (Z.of_nat steps - 1) = (Z.of_nat steps - 1)%Z)
    by (apply Z.mod_small; lia).
  assert (Hd : 0 < IZR (Z.of_nat steps - 1)) by (apply IZR_lt; lia).
  rewrite Hw. unfold of_Z at 1. rewrite xdiv_fin by lra.
  set (delta := - 999 / IZR (Z.of_nat steps - 1)).
  set (g := fun j : Z => Fin (exp (interpolate ls (999 + IZR j * delta)))).
  rewrite (mapM_total _ g).
  2:{ intros j Hj. apply int_range_bounds in Hj.
      apply t_to_sigma_at_fin; try assumption.
      apply (run_times steps j); lia. }
  cbn [bind]. eexists. split; [reflexivity |].
  assert (Hl : List.length (map g (int_range (Z.of_nat steps))) = steps)
    by (rewrite length_map, int_range_length; lia).
  split; [| split].
  - rewrite length_app, Hl. reflexivity.
  - rewrite nth_error_app2 by lia. rewrite Hl, Nat.sub_diag. reflexivity.
  - assert (Hnth : forall i x, (i < steps)%nat ->
              nth_error (map g (int_range (Z.of_nat steps)) ++ [Fin 0]) i = Some x ->
              x = g (Z.of_nat i)).
    { intros i x Hi Hx. rewrite nth_error_app1 in Hx by lia.
      rewrite int_range_nat, map_map in Hx.
      rewrite nth_error_map, nth_error_seq in Hx.
      destruct (Nat.ltb_spec i steps); [| lia].
      simpl in Hx. now injection Hx as <-. }
    intros i j x y Hij Hx Hy.
    assert (Hj : (j < steps + 1)%nat).
    { rewrite <- Hl at 1. rewrite <- (length_app _ [Fin 0]).
      apply nth_error_Some. congruence. }
    rewrite (Hnth i x ltac:(lia) Hx).
    destruct (Nat.eq_dec j steps) as [-> | Hne].
    + rewrite nth_error_app2 in Hy by lia.
      rewrite Hl, Nat.sub_diag in Hy. injection Hy as <-.
      apply xltb_fin, exp_pos.
    + rewrite (Hnth j y ltac:(lia) Hy). apply xltb_fin, exp_increasing.
      destruct (run_times steps (Z.of_nat i) Hs ltac:(lia)) as [Hti Hdec].
      destruct (run_times steps (Z.of_nat j) Hs ltac:(lia)) as [Htj _].
      apply interpolate_increasing; try assumption.
      * apply Htj.
      * apply Hdec. lia.
      * apply Hti.
Qed.

(** The default table: 1000 finite entries, strictly increasing. *)
Lemma default_table_fin :
  exists ls, snd LMSDiscreteScheduler_default = map Fin ls
             /\ List.length ls = 1000%nat
             /\ increasing_reals ls.
Proof.
  unfold LMSDiscreteScheduler_default.
  destruct (scheduler_table_fin 1000 (85 / 100000) (12 / 1000)
              "scaled_linear" "epsilon")
    as (ls & E & Hlen & Hinc); [lia | lra | lra | lra | now right |].
  exists ls. repeat split; assumption.
Qed.

(** On the default table the run schedule of [steps >= 2] has [steps + 1]
    entries, ends with 0 and decreases strictly. *)
Lemma default_run_schedule (steps : nat) :
  (2 <= steps)%nat -> (Z.of_nat steps < 2 ^ 64)%Z ->
  exists sigma, t_to_sigma (snd LMSDiscreteScheduler_default) steps = Some sigma
                /\ List.length sigma = (steps + 1)%nat
                /\ nth_error sigma steps = Some (Fin 0)
                /\ strictly_decreasing sigma.
Proof.
  intros Hs Hmax. destruct default_table_fin as (ls & -> & Hlen & Hinc).
  apply t_to_sigma_decreasing; [assumption | lia | assumption | assumption].
Qed.

(** ** One step over the all-zero latent *)

Lemma vec_at_zeros n i : (0 <= i < Z.of_nat n)%Z -> vec_at (zeros n) i = Some (Fin 0).
Proof.
  intros H. unfold vec_at, zeros. destruct (Z.ltb_spec i 0); [lia |].
  apply nth_error_repeat. lia.
Qed.

Lemma map_zeros {A : Type} (l : list A) :
  map (fun _ => Fin 0) l = zeros (List.length l).
Proof. induction l as [|a l IH]; simpl; [reflexivity | now rewrite IH]. Qed.

Lemma zeros_fin n : zeros n = map Fin (repeat 0 n).
Proof. unfold zeros. now rewrite map_repeat. Qed.

Lemma scale_zeros c n : map (fun x => xmul x (Fin c)) (zeros n) = zeros n.
Proof.
  unfold zeros. induction n as [|n IH]; simpl; [reflexivity |].
  rewrite IH. do 2 f_equal. ring.
Qed.

Lemma transform2_zeros n : transform2 xadd (zeros n) (zeros n) = Some (zeros n).
Proof.
  unfold zeros. induction n as [|n IH]; simpl; [reflexivity |].
  rewrite IH. simpl. do 3 f_equal. ring.
Qed.

Lemma unet_infer_zero timestemp input emb :
  unet_infer_function zero_unet timestemp input emb
  = Some (mkTensor [1; 4; 8; 8]%Z (zeros 256)).
Proof.
  unfold unet_infer_function, zero_unet. cbv zeta. cbn [get_shape data set_dim0 bind].
  change (shape_size [1; 4; 8; 8]%Z) with 256%Z.
  rewrite (mapM_total _ (fun _ => Fin 0)).
  - cbn [bind]. rewrite map_zeros, int_range_length. reflexivity.
  - intros i Hi. apply int_range_bounds in Hi.
    rewrite !vec_at_zeros by lia. cbn [bind]. unfold guidance_scale.
    simpl. do 2 f_equal. ring.
Qed.

Lemma lms_step_zero log_sigma_vec sigma a b emb st :
  (1000 <= List.length log_sigma_vec)%nat ->
  vec_at sigma 0 = Some (Fin a) -> vec_at sigma 1 = Some (Fin b) -> a <> 0 ->
  latent_vector_1d_new st = zeros 256 -> derivative_list st = [] ->
  lms_step zero_unet log_sigma_vec sigma [2; 4; 8; 8]%Z zero_latent emb 0 st
  = Some (mkLoopState (zeros 256) [zeros 256]).
Proof.
  intros Hlen Ha Hb Ha0 Hst Hd. unfold lms_step.
  change (Z.of_nat 0) with 0%Z. rewrite Ha. cbn [bind]. cbv zeta.
  change (get_size zero_latent) with 256%Z.
  change (shape_size [2; 4; 8; 8]%Z) with 512%Z.
  change (2 * 256 =? 512)%Z with true. cbn [bind].
  destruct (sigma_to_timestemp_total log_sigma_vec (Fin a) Hlen)
    as (_ & _ & _ & _ & t & _ & _ & _ & _ & _ & -> & _).
  cbn [bind]. rewrite unet_infer_zero. cbn [bind].
  rewrite (derivative_vec_fin _ _ (repeat 0 256) (repeat 0 256) a);
    try (cbn [data zero_latent]; apply zeros_fin);
    try assumption; try reflexivity.
  cbn [bind data]. rewrite Hd.
  change (push_derivative [] (zeros 256)) with [zeros 256].
  change (lms_order 0) with 1%Z.
  rewrite (lms_coeffs_order_one sigma 0 a b) by assumption. cbn [bind].
  unfold scale_derivatives. change (int_range 1) with [0%Z].
  cbn [mapM rev app]. change (vec_at [Fin (b - a)] 0) with (Some (Fin (b - a))).
  change (vec_at [zeros 256] 0) with (Some (zeros 256)). cbn [bind].
  rewrite scale_zeros. change (skipn (Z.to_nat 1) [zeros 256]) with (@nil (list xreal)).
  cbn [app]. change (vec_at [zeros 256] 0) with (Some (zeros 256)). cbn [bind].
  change (1 <? 1)%Z with false. cbv iota. cbn [bind].
  rewrite Hst, transform2_zeros. cbn [bind].
  rewrite skipn_all, app_nil_r. reflexivity.
Qed.

Lemma init_state_zero sigma a :
  vec_at sigma 0 = Some (Fin a) ->
  init_state sigma zero_latent = Some (mkLoopState (zeros 256) []).
Proof.
  intros Ha. unfold init_state. rewrite Ha. cbn [bind].
  change (get_size zero_latent) with 256%Z.
  rewrite (mapM_total _ (fun _ => Fin 0)).
  - cbn [bind]. now rewrite map_zeros, int_range_length.
  - intros i Hi. apply int_range_bounds in Hi. cbn [data zero_latent].
    rewrite vec_at_zeros by lia. cbn [bind]. simpl. do 2 f_equal. ring.
Qed.

(** With a finite, nonzero first sigma (what the run schedule gives for two
    steps or more) a first step over the all-zero latent with the zero stub
    leaves the latent all-zero. *)
Lemma lms_loop_zero_first_step log_sigma_vec sigma a b emb :
  (1000 <= List.length log_sigma_vec)%nat ->
  vec_at sigma 0 = Some (Fin a) -> vec_at sigma 1 = Some (Fin b) -> a <> 0 ->
  exists st0,
    init_state sigma zero_latent = Some st0
    /\ lms_loop (lms_step zero_unet log_sigma_vec sigma [2; 4; 8; 8]%Z
                          zero_latent emb) [0%nat] st0
       = Some (mkLoopState (zeros 256) [zeros 256]).
Proof.
  intros Hlen Ha Hb Ha0.
  exists (mkLoopState (zeros 256) []). split.
  - now apply init_state_zero with (a := a).
  - cbn [lms_loop]. rewrite (lms_step_zero _ _ a b) by (assumption || reflexivity).
    reflexivity.
Qed.

(** * The rest of the code *)

(** ** [linspace] *)

Lemma linspace_fill_length n : forall val h,
  List.length (linspace_fill n val h) = n.
Proof. induction n as [|n IH]; intros; simpl; [reflexivity | now rewrite IH]. Qed.

Lemma linspace_fill_nth n : forall v h k, (k < n)%nat ->
  nth_error (linspace_fill n (Fin v) (Fin h)) k = Some (Fin (v + INR k * h)).
Proof.
  induction n as [|n IH]; intros v h k Hk; [lia |].
  destruct k as [|k].
  - simpl. do 2 f_equal. ring.
  - cbn [linspace_fill nth_error].
    change (xadd (Fin v) (Fin h)) with (Fin (v + h)). rewrite IH by lia.
    do 2 f_equal. rewrite S_INR. ring.
Qed.

Lemma linspace_nth a b (N : Z) (k : nat) :
  (2 <= N < 2 ^ 64)%Z -> (Z.of_nat k < N)%Z ->
  nth_error (linspace (Fin a) (Fin b) N) k
  = Some (Fin (a + INR k * ((b - a) / IZR (N - 1)))).
Proof.
  intros HN Hk. unfold linspace. cbv zeta.
  assert (Hw : size_t_wrap (N - 1) = (N - 1)%Z) by (apply Z.mod_small; lia).
  assert (Hd : 0 < IZR (N - 1)) by (apply IZR_lt; lia).
  rewrite Hw. unfold of_Z. simpl xsub. rewrite xdiv_fin by lra.
  apply linspace_fill_nth. lia.
Qed.

Lemma linspace_endpoints a b (N : Z) :
  (2 <= N < 2 ^ 64)%Z ->
  List.length (linspace (Fin a) (Fin b) N) = Z.to_nat N
  /\ nth_error (linspace (Fin a) (Fin b) N) 0 = Some (Fin a)
  /\ exists last, nth_error (linspace (Fin a) (Fin b) N) (Z.to_nat N - 1)
                  = Some (Fin last) /\ last = b.
Proof.
  intros HN.
  assert (Hd : 0 < IZR (N - 1)) by (apply IZR_lt; lia).
  split; [| split].
  - unfold linspace. apply linspace_fill_length.
  - rewrite (linspace_nth a b N 0) by lia. do 2 f_equal. simpl. ring.
  - eexists. split; [apply linspace_nth; lia |].
    rewrite INR_IZR_INZ. replace (Z.of_nat (Z.to_nat N - 1)) with (N - 1)%Z by lia.
    field. lra.
Qed.

Lemma linspace_one a b : linspace a b 1 = [a].
Proof. reflexivity. Qed.

Lemma linspace_zero a b : linspace a b 0 = [].
Proof. reflexivity. Qed.

(** ** [trapezoidal] on affine integrands *)

Lemma trapezoidal_affine f p q a b tol (m : Z) :
  (forall x, f (Fin x) = Some (Fin (p * x + q))) ->
  0 < tol -> (2 <= m)%Z ->
  trapezoidal f (Fin a) (Fin b) (Fin tol) m
  = Some (Fin ((p * a + q + (p * b + q)) * ((b - a) / 2))).
Proof.
  intros Hf Htol Hm. unfold trapezoidal. rewrite !Hf. cbn [bind]. simpl xsub.
  rewrite xdiv_fin by lra.
  set (h := (b - a) / 2).
  change (xmul (xadd (Fin (p * a + q)) (Fin (p * b + q))) (Fin h))
    with (Fin ((p * a + q + (p * b + q)) * h)).
  set (I0 := (p * a + q + (p * b + q)) * h).
  destruct (Z.to_nat m) as [|[|left]] eqn:Em; try lia.
  rewrite trapezoidal_loop_S.
  change (shl_one (1 - 1)) with (Some 1%Z). cbn [bind].
  change (Z.to_nat 1) with 1%nat. cbn [trapezoidal_sum].
  unfold of_Z. simpl xmul. simpl xadd. rewrite Hf. cbn [bind]. cbv zeta.
  simpl xadd. simpl xmul.
  change (1 <? 1)%Z with false. cbn [andb].
  rewrite xdiv_fin by lra.
  rewrite trapezoidal_loop_S.
  change (shl_one (1 + 1 - 1)) with (Some 2%Z). cbn [bind].
  change (Z.to_nat 2) with 2%nat. cbn [trapezoidal_sum].
  unfold of_Z. simpl xmul. simpl xadd. rewrite Hf. cbn [bind].
  simpl xmul. simpl xadd. rewrite Hf. cbn [bind]. cbv zeta.
  simpl xadd. simpl xmul.
  change (1 <? 1 + 1)%Z with true. cbn [andb].
  simpl xsub. simpl xabs.
  match goal with
  | |- context [Rabs ?e] => replace e with 0 by (unfold I0, h; simpl; field)
  end.
  rewrite Rabs_R0, xltb_fin by lra.
  do 2 f_equal. unfold I0, h. simpl. field.
Qed.

(** ** [lms_derivative_function] as a Lagrange basis *)

Lemma lms_derivative_loop_fin ss t c tau ks : forall prod,
  (0 <= t - c < Z.of_nat (List.length ss))%Z ->
  (forall k, In k ks -> k <> c ->
     (0 <= t - k < Z.of_nat (List.length ss))%Z
     /\ entry_at ss (t - c) <> entry_at ss (t - k)) ->
  lms_derivative_loop (Fin tau) c (map Fin ss) t ks (Fin prod)
  = Some (Fin (prod * lagrange_basis ss t c tau ks)).
Proof.
  induction ks as [|k ks IH]; intros prod Hc Hks.
  - simpl. do 2 f_equal. ring.
  - cbn [lms_derivative_loop lagrange_basis].
    destruct (Z.eqb_spec c k) as [E | N].
    + rewrite IH; [| assumption | intros; apply Hks; [now right | assumption]].
      do 2 f_equal. ring.
    + destruct (Hks k (or_introl eq_refl) (not_eq_sym N)) as [Hk Hd].
      rewrite !vec_at_fin_Z by assumption. cbn [bind]. simpl xsub.
      fold (entry_at ss (t - k)). fold (entry_at ss (t - c)).
      rewrite xdiv_fin by lra. simpl xmul.
      rewrite IH; [| assumption | intros; apply Hks; [now right | assumption]].
      do 2 f_equal. ring.
Qed.

Lemma lagrange_basis_own ss t c ks :
  (forall k, In k ks -> k <> c -> entry_at ss (t - c) <> entry_at ss (t - k)) ->
  lagrange_basis ss t c (entry_at ss (t - c)) ks = 1.
Proof.
  induction ks as [|k ks IH]; intros H; [reflexivity |].
  cbn [lagrange_basis]. rewrite IH by (intros; apply H; [now right | assumption]).
  destruct (Z.eqb_spec c k) as [E | N]; [ring |].
  pose proof (H k (or_introl eq_refl) (not_eq_sym N)). field. lra.
Qed.

Lemma lagrange_basis_other ss t c j ks :
  In j ks -> j <> c ->
  (forall k, In k ks -> k <> c -> entry_at ss (t - c) <> entry_at ss (t - k)) ->
  lagrange_basis ss t c (entry_at ss (t - j)) ks = 0.
Proof.
  induction ks as [|k ks IH]; intros Hj Hjc H; [contradiction |].
  cbn [lagrange_basis]. destruct Hj as [-> | Hj].
  - destruct (Z.eqb_spec c j) as [E | N]; [congruence |].
    pose proof (H j (or_introl eq_refl) Hjc).
    replace ((entry_at ss (t - j) - entry_at ss (t - j))
             / (entry_at ss (t - c) - entry_at ss (t - j))) with 0
      by (field; lra).
    ring.
  - rewrite IH; [ring | assumption | assumption |].
    intros; apply H; [now right | assumption].
Qed.

Lemma lms_derivative_function_fin ss tau (order c t : Z) :
  (0 <= c < order)%Z -> (order <= t + 1)%Z ->
  (t < Z.of_nat (List.length ss))%Z ->
  (forall k, (0 <= k < order)%Z -> k <> c ->
             entry_at ss (t - c) <> entry_at ss (t - k)) ->
  lms_derivative_function (Fin tau) order c (map Fin ss) t
  = Some (Fin (lagrange_basis ss t c tau (int_range order))).
Proof.
  intros Hc Ho Ht Hd. unfold lms_derivative_function.
  rewrite lms_derivative_loop_fin.
  - do 2 f_equal. ring.
  - lia.
  - intros k Hk Hkc. apply int_range_bounds in Hk. split; [lia |].
    apply Hd; assumption.
Qed.

(** Reads in range: defined for every [tau] and every table. *)
Lemma lms_derivative_loop_defined sigma_vec tau c t ks : forall prod,
  (0 <= t - c < Z.of_nat (List.length sigma_vec))%Z ->
  (forall k, In k ks -> (0 <= t - k < Z.of_nat (List.length sigma_vec))%Z) ->
  exists y, lms_derivative_loop tau c sigma_vec t ks prod = Some y.
Proof.
  induction ks as [|k ks IH]; intros prod Hc Hks; [simpl; eauto |].
  cbn [lms_derivative_loop].
  destruct (c =? k)%Z.
  - apply IH; [assumption | intros; apply Hks; now right].
  - destruct (vec_at_some sigma_vec (t - k)) as [x ->]; [apply Hks; now left |].
    destruct (vec_at_some sigma_vec (t - c)) as [z ->]; [assumption |].
    cbn [bind]. apply IH; [assumption | intros; apply Hks; now right].
Qed.

Lemma vec_at_negative {A : Type} (v : list A) i : (i < 0)%Z -> vec_at v i = None.
Proof. intros H. unfold vec_at. destruct (Z.ltb_spec i 0); [reflexivity | lia]. Qed.

(** A read before the start of the schedule: undefined. *)
Lemma lms_derivative_loop_undefined sigma_vec tau c t ks : forall prod,
  (exists k, In k ks /\ k <> c /\ (t - k < 0 \/ t - c < 0)%Z) ->
  lms_derivative_loop tau c sigma_vec t ks prod = None.
Proof.
  induction ks as [|k0 ks IH]; intros prod (k & Hin & Hkc & Hbad);
    [contradiction |].
  cbn [lms_derivative_loop]. destruct (Z.eqb_spec c k0) as [E | N].
  - apply IH. exists k. destruct Hin as [-> | Hin]; [congruence | auto].
  - destruct (vec_at sigma_vec (t - k0)) as [x|] eqn:Ek; [| reflexivity].
    cbn [bind].
    destruct (vec_at sigma_vec (t - c)) as [z|] eqn:Ec; [| reflexivity].
    cbn [bind]. apply IH. exists k. destruct Hin as [-> | Hin]; [| auto].
    destruct Hbad as [Hb | Hb];
      [rewrite vec_at_negative in Ek by lia | rewrite vec_at_negative in Ec by lia];
      discriminate.
Qed.

Lemma in_int_range n k : (0 <= k < n)%Z -> In k (int_range n).
Proof.
  intros H. unfold int_range. apply in_map_iff. exists (Z.to_nat k).
  split; [lia | apply in_seq; lia].
Qed.

(** ** The coefficients of order 2 *)

Lemma int32_wrap_small z : (- 2 ^ 31 <= z < 2 ^ 31)%Z -> int32_wrap z = z.
Proof. intros H. unfold int32_wrap. rewrite Z.mod_small; lia. Qed.

Lemma lms_coeffs_order_two ss (i : nat) :
  (1 <= i)%nat -> (i + 1 < List.length ss)%nat -> (Z.of_nat i < 2 ^ 31)%Z ->
  nth (i - 1) ss 0 <> nth i ss 0 ->
  let a := nth i ss 0 in
  let h := nth (i + 1) ss 0 - a in
  let h_prev := a - nth (i - 1) ss 0 in
  exists c0 c1,
    lms_coeffs (map Fin ss) i 2 = Some [Fin c0; Fin c1]
    /\ c0 = h * (1 + h / (2 * h_prev))
    /\ c1 = - (h * h) / (2 * h_prev)
    /\ c0 + c1 = h.
Proof.
  intros Hi Hlen Hmax Hd a h h_prev.
  set (b := nth (i + 1) ss 0). set (p := nth (i - 1) ss 0).
  assert (Ea : entry_at ss (Z.of_nat i) = a)
    by (unfold entry_at; now rewrite Nat2Z.id).
  assert (Ep : entry_at ss (Z.of_nat i - 1) = p).
  { unfold entry_at, p. f_equal. lia. }
  assert (Hf0 : forall x,
    lms_derivative_function (Fin x) (int32_wrap 2) 0 (map Fin ss)
      (int32_wrap (Z.of_nat i))
    = Some (Fin (/ (a - p) * x + - p / (a - p)))).
  { intros x. rewrite (int32_wrap_small (Z.of_nat i)) by lia.
    change (int32_wrap 2) with 2%Z.
    rewrite lms_derivative_function_fin; try lia.
    - change (int_range 2) with [0; 1]%Z. cbn [lagrange_basis].
      change (0 =? 0)%Z with true. change (0 =? 1)%Z with false. cbv iota.
      rewrite Z.sub_0_r, Ea, Ep. do 2 f_equal. field. unfold a, p. lra.
    - intros k Hk Hk0. assert (k = 1%Z) as -> by lia.
      rewrite Z.sub_0_r, Ea, Ep. unfold a, p. congruence. }
  assert (Hf1 : forall x,
    lms_derivative_function (Fin x) (int32_wrap 2) 1 (map Fin ss)
      (int32_wrap (Z.of_nat i))
    = Some (Fin (/ (p - a) * x + - a / (p - a)))).
  { intros x. rewrite (int32_wrap_small (Z.of_nat i)) by lia.
    change (int32_wrap 2) with 2%Z.
    rewrite lms_derivative_function_fin; try lia.
    - change (int_range 2) with [0; 1]%Z. cbn [lagrange_basis].
      change (1 =? 0)%Z with false. change (1 =? 1)%Z with true. cbv iota.
      rewrite Z.sub_0_r, Ea, Ep. do 2 f_equal. field. unfold a, p. lra.
    - intros k Hk Hk0. assert (k = 0%Z) as -> by lia.
      rewrite Z.sub_0_r, Ea, Ep. unfold a, p. congruence. }
  unfold lms_coeffs. change (int_range 2) with [0; 1]%Z. cbn [mapM].
  rewrite (vec_at_fin ss i) by lia.
  replace (Z.of_nat i + 1)%Z with (Z.of_nat (i + 1)) by lia.
  rewrite (vec_at_fin ss (i + 1)) by lia. cbn [bind].
  fold a b. unfold lms_tolerance.
  rewrite (trapezoidal_affine _ _ _ a b _ 100 Hf0) by (lra || lia).
  rewrite (trapezoidal_affine _ _ _ a b _ 100 Hf1) by (lra || lia).
  cbn [bind]. do 2 eexists. split; [reflexivity |].
  assert (a - p <> 0) by (unfold a, p; lra).
  unfold h, h_prev. fold b p. repeat split; field; lra.
Qed.

(** ** [sigma_to_timestemp] between the entries of the table *)

Lemma indicator_bracketed ls k t (i : nat) :
  brackets ls k t -> (i < 1000)%nat ->
  xgeb (xsub (Fin t) (Fin (nth i ls 0))) (Fin 0) = (i <=? k)%nat.
Proof.
  intros (Hk & Hle & Hgt) Hi. simpl.
  destruct (Nat.leb_spec i k) as [H | H].
  - apply Rleb_true. pose proof (Hle i H). lra.
  - apply Rleb_false. pose proof (Hgt i ltac:(lia)). lra.
Qed.

Lemma dists_loop_bracketed ls k t n : forall (i : nat) prev,
  brackets ls k t -> (1000 <= List.length ls)%nat -> (i + n <= 1000)%nat ->
  (i = O \/ exists i', i = S i' /\ prev = dists_count k i') ->
  dists_loop (map Fin ls) (Fin t) n (Z.of_nat i) prev
  = Some (map (dists_count k) (seq i n)).
Proof.
  induction n as [|n IH]; intros i prev Hb Hlen Hn Hprev; [reflexivity |].
  cbn [dists_loop seq map]. rewrite (vec_at_fin ls) by lia. cbn [bind].
  rewrite (indicator_bracketed ls k t i Hb) by lia.
  replace (Z.of_nat i + 1)%Z with (Z.of_nat (S i)) by lia.
  match goal with |- context [dists_loop _ _ n _ ?d] =>
    assert (Ed : d = dists_count k i) end.
  { unfold dists_count. destruct Hprev as [-> | (i' & -> & ->)].
    - change (Z.of_nat 0 =? 0)%Z with true. cbv iota.
      change (0 <=? k)%nat with true. cbv iota.
      replace (Z.min (Z.of_nat 0) (Z.of_nat k) + 1)%Z with 1%Z by lia.
      reflexivity.
    - destruct (Z.eqb_spec (Z.of_nat (S i')) 0); [lia |].
      unfold dists_count.
      destruct (Nat.leb_spec (S i') k); simpl; f_equal;
        rewrite <- plus_IZR; f_equal; lia. }
  rewrite Ed, IH; [reflexivity | assumption | assumption | lia | right; eauto].
Qed.

Lemma div_unit x y : 0 <= x -> x < y -> 0 <= x / y < 1.
Proof.
  intros Hx Hy. assert (Hq : x / y * y = x) by (field; lra).
  set (q := x / y) in *. split; nra.
Qed.

Lemma div_above_one x y : 0 < y -> y <= x -> 1 <= x / y.
Proof.
  intros Hy Hx. assert (Hq : x / y * y = x) by (field; lra).
  set (q := x / y) in *. nra.
Qed.

Lemma clamp_id w : 0 <= w <= 1 ->
  std_max (Fin 0) (std_min (Fin 1) (Fin w)) = Fin w.
Proof.
  intros [H0 H1]. unfold std_min, std_max.
  destruct (Rlt_dec w 1) as [Hlt | Hge].
  - rewrite xltb_fin by assumption.
    destruct (Rlt_dec 0 w) as [Hp | Hz].
    + now rewrite xltb_fin.
    + rewrite xltb_fin_false by lra. f_equal. lra.
  - rewrite xltb_fin_false by lra. rewrite xltb_fin by lra. f_equal. lra.
Qed.

Lemma clamp_high w : 1 <= w -> std_max (Fin 0) (std_min (Fin 1) (Fin w)) = Fin 1.
Proof.
  intros H. unfold std_min, std_max.
  destruct (Rlt_dec w 1) as [Hlt | Hge]; [lra |].
  rewrite xltb_fin_false by lra. now rewrite xltb_fin by lra.
Qed.

Lemma clamp_low w : w <= 0 -> std_max (Fin 0) (std_min (Fin 1) (Fin w)) = Fin 0.
Proof.
  intros H. unfold std_min, std_max.
  rewrite xltb_fin by lra. now rewrite xltb_fin_false by lra.
Qed.

Lemma stt_weight_fin lo hi t : lo <> hi ->
  stt_weight (Fin lo) (Fin hi) (Fin t)
  = std_max (Fin 0) (std_min (Fin 1) (Fin ((lo - t) / (lo - hi)))).
Proof.
  intros H. unfold stt_weight. cbv zeta.
  change (xsub (Fin lo) (Fin t)) with (Fin (lo - t)).
  change (xsub (Fin lo) (Fin hi)) with (Fin (lo - hi)).
  now rewrite xdiv_fin by lra.
Qed.

Lemma llround_position (m : Z) w :
  (0 <= m <= 998)%Z -> 0 <= w <= 1 ->
  llround (xadd (xmul (xsub (Fin 1) (Fin w)) (of_Z m))
                (xmul (Fin w) (of_Z (m + 1))))
  = Some (Rround_away (IZR m + w)).
Proof.
  intros Hm Hw. unfold of_Z.
  change (xadd _ _) with (Fin ((1 - w) * IZR m + w * IZR (m + 1))).
  replace ((1 - w) * IZR m + w * IZR (m + 1)) with (IZR m + w)
    by (rewrite plus_IZR; ring).
  apply llround_fin.
  pose proof (Rround_away_between m (IZR m + w) ltac:(lia) ltac:(lra)). lia.
Qed.

(** In a segment the mapper rounds the interpolated position. *)
Lemma sigma_to_timestemp_segment ls k t sigma :
  brackets ls k t -> (1000 <= List.length ls)%nat -> (k <= 998)%nat ->
  xlog sigma = Fin t ->
  sigma_to_timestemp (map Fin ls) sigma
  = Some (Rround_away
            (INR k + (t - nth k ls 0) / (nth (S k) ls 0 - nth k ls 0))).
Proof.
  intros Hb Hlen Hk Hlog. unfold sigma_to_timestemp. rewrite Hlog.
  rewrite (dists_loop_bracketed ls k t 1000 O) by (assumption || lia || now left).
  cbn [bind]. unfold stt_low_idx. rewrite max_element_counts by lia.
  replace (Z.min (Z.of_nat k) (1000 - 2)) with (Z.of_nat k) by lia.
  rewrite (vec_at_fin ls k) by lia. cbn [bind].
  replace (Z.of_nat k + 1)%Z with (Z.of_nat (S k)) by lia.
  rewrite (vec_at_fin ls (S k)) by lia. cbn [bind].
  destruct Hb as (_ & Hle & Hgt).
  pose proof (Hle k (Nat.le_refl k)) as Hlo.
  pose proof (Hgt (S k) ltac:(lia)) as Hhi.
  rewrite stt_weight_fin by lra.
  set (w := (nth k ls 0 - t) / (nth k ls 0 - nth (S k) ls 0)).
  assert (Ew : w = (t - nth k ls 0) / (nth (S k) ls 0 - nth k ls 0))
    by (unfold w; field; lra).
  assert (Hw : 0 <= w < 1) by (rewrite Ew; apply div_unit; lra).
  rewrite clamp_id by lra.
  replace (Z.of_nat (S k)) with (Z.of_nat k + 1)%Z by lia.
  rewrite llround_position by (lia || lra).
  rewrite <- INR_IZR_INZ, Ew. reflexivity.
Qed.

(** At and above the last of the 1000 entries: the last timestep. *)
Lemma sigma_to_timestemp_top ls t sigma :
  (1000 <= List.length ls)%nat ->
  nth 998 ls 0 < nth 999 ls 0 ->
  (forall i, (i < 1000)%nat -> nth i ls 0 <= t) ->
  xlog sigma = Fin t ->
  sigma_to_timestemp (map Fin ls) sigma = Some 999%Z.
Proof.
  intros Hlen Hinc Hall Hlog. unfold sigma_to_timestemp. rewrite Hlog.
  assert (Hb : brackets ls 999 t).
  { split; [lia | split]; [intros; apply Hall; lia | intros; lia]. }
  rewrite (dists_loop_bracketed ls 999 t 1000 O) by (assumption || lia || now left).
  cbn [bind]. unfold stt_low_idx. rewrite max_element_counts by lia.
  change (Z.min (Z.of_nat 999) (1000 - 2)) with (Z.of_nat 998).
  rewrite (vec_at_fin ls 998) by lia. cbn [bind].
  change (Z.of_nat 998 + 1)%Z with (Z.of_nat 999).
  rewrite (vec_at_fin ls 999) by lia. cbn [bind].
  pose proof (Hall 999%nat ltac:(lia)) as Ht.
  rewrite stt_weight_fin by lra.
  rewrite clamp_high.
  - change (Z.of_nat 999) with (Z.of_nat 998 + 1)%Z.
    apply llround_at_high. lia.
  - replace ((nth 998 ls 0 - t) / (nth 998 ls 0 - nth 999 ls 0))
      with ((t - nth 998 ls 0) / (nth 999 ls 0 - nth 998 ls 0))
      by (field; lra).
    apply div_above_one; lra.
Qed.

(** ** [sigma_to_timestemp] without a reachable entry *)

Lemma repeat_zero_counts n : forall (i : nat) (log_sigmas : list xreal) target prev,
  (Z.of_nat i + Z.of_nat n <= Z.of_nat (List.length log_sigmas))%Z ->
  (forall x, In x log_sigmas -> xgeb (xsub target x) (Fin 0) = false) ->
  (i = O \/ prev = Fin 0) ->
  dists_loop log_sigmas target n (Z.of_nat i) prev = Some (repeat (Fin 0) n).
Proof.
  induction n as [|n IH]; intros i tbl target prev Hn Hall Hprev;
    [reflexivity |].
  cbn [dists_loop repeat].
  destruct (vec_at_some tbl (Z.of_nat i)) as [x Ex]; [lia |].
  rewrite Ex. cbn [bind].
  rewrite Hall by (rewrite vec_at_nat in Ex; eapply nth_error_In; eassumption).
  match goal with |- context [dists_loop _ _ n _ ?d] =>
    assert (Ed : d = Fin 0) end.
  { destruct Hprev as [-> | ->].
    - reflexivity.
    - destruct (Z.of_nat i =? 0)%Z; [reflexivity |]. simpl. f_equal. ring. }
  rewrite Ed. replace (Z.of_nat i + 1)%Z with (Z.of_nat (S i)) by lia.
  rewrite IH; [reflexivity | lia | assumption | now right].
Qed.

Lemma max_element_repeat x n : xltb x x = false -> max_element (repeat x n) = O.
Proof.
  intros H. destruct n as [|n]; [reflexivity |]. simpl.
  apply max_element_from_skip. apply Forall_forall.
  intros z Hz. apply repeat_spec in Hz. now subst.
Qed.

Lemma sigma_to_timestemp_no_entry log_sigmas sigma :
  (1000 <= List.length log_sigmas)%nat ->
  (forall x, In x log_sigmas -> xgeb (xsub (xlog sigma) x) (Fin 0) = false) ->
  exists low high,
    vec_at log_sigmas 0 = Some low /\ vec_at log_sigmas 1 = Some high
    /\ sigma_to_timestemp log_sigmas sigma
       = llround (xadd (xmul (xsub (Fin 1) (stt_weight low high (xlog sigma)))
                             (of_Z 0))
                       (xmul (stt_weight low high (xlog sigma)) (of_Z 1))).
Proof.
  intros Hlen Hall. unfold sigma_to_timestemp.
  rewrite (repeat_zero_counts 1000 O) by (lia || assumption || now left).
  cbn [bind]. unfold stt_low_idx.
  rewrite max_element_repeat by (simpl; apply Rltb_false; lra).
  change (Z.min (Z.of_nat 0) (1000 - 2)) with 0%Z. change (0 + 1)%Z with 1%Z.
  destruct (vec_at_some log_sigmas 0) as [low El]; [lia |].
  destruct (vec_at_some log_sigmas 1) as [high Eh]; [lia |].
  exists low, high. rewrite El, Eh. cbn [bind]. repeat split.
Qed.

Lemma xlog_nan sigma :
  sigma = NaN \/ sigma = NInf \/ (exists a, sigma = Fin a /\ a < 0) ->
  xlog sigma = NaN.
Proof.
  intros [-> | [-> | (a & -> & Ha)]]; try reflexivity.
  simpl. now rewrite Rltb_true.
Qed.

(** A sigma whose logarithm is [NaN]: timestep 1, on every table. *)
Lemma sigma_to_timestemp_nan log_sigmas sigma :
  (1000 <= List.length log_sigmas)%nat -> xlog sigma = NaN ->
  sigma_to_timestemp log_sigmas sigma = Some 1%Z.
Proof.
  intros Hlen Hlog.
  destruct (sigma_to_timestemp_no_entry log_sigmas sigma Hlen)
    as (low & high & _ & _ & ->).
  - intros x _. rewrite Hlog. now destruct x.
  - rewrite Hlog.
    assert (Ew : stt_weight low high NaN = Fin 1).
    { unfold stt_weight. cbv zeta.
      replace (xsub low NaN) with NaN by now destruct low.
      change (xdiv NaN (xsub low high)) with NaN.
      unfold std_min. change (xltb NaN (Fin 1)) with false. cbv iota.
      unfold std_max. now rewrite xltb_fin by lra. }
    rewrite Ew. apply (llround_at_high 0). lia.
Qed.

(** Below the first entry of a finite table, down to sigma 0: timestep 0. *)
Lemma sigma_to_timestemp_bottom ls sigma :
  (1000 <= List.length ls)%nat -> nth 0 ls 0 < nth 1 ls 0 ->
  (sigma = Fin 0
   \/ exists t, xlog sigma = Fin t /\ forall x, In x ls -> t < x) ->
  sigma_to_timestemp (map Fin ls) sigma = Some 0%Z.
Proof.
  intros Hlen Hinc Hs.
  assert (El : vec_at (map Fin ls) 0 = Some (Fin (nth 0 ls 0)))
    by (apply (vec_at_fin ls 0); lia).
  assert (Eh : vec_at (map Fin ls) 1 = Some (Fin (nth 1 ls 0)))
    by (apply (vec_at_fin ls 1); lia).
  destruct (sigma_to_timestemp_no_entry (map Fin ls) sigma)
    as (low & high & El' & Eh' & ->).
  - rewrite length_map. lia.
  - intros x Hx. apply in_map_iff in Hx as (l & <- & Hl).
    destruct Hs as [-> | (t & -> & Ht)].
    + simpl. rewrite Rltb_false by lra. rewrite Reqb_true by reflexivity.
      reflexivity.
    + simpl. apply Rleb_false. pose proof (Ht l Hl). lra.
  - rewrite El in El'. rewrite Eh in Eh'.
    injection El' as <-. injection Eh' as <-.
    assert (Ew : stt_weight (Fin (nth 0 ls 0)) (Fin (nth 1 ls 0)) (xlog sigma)
                 = Fin 0).
    { unfold stt_weight. cbv zeta. destruct Hs as [-> | (t & -> & Ht)].
      - simpl xlog. rewrite Rltb_false by lra. rewrite Reqb_true by reflexivity.
        simpl. rewrite Rltb_true by lra. simpl.
        unfold std_min, std_max. simpl. reflexivity.
      - fold (stt_weight (Fin (nth 0 ls 0)) (Fin (nth 1 ls 0)) (Fin t)).
        rewrite stt_weight_fin by lra. apply clamp_low.
        pose proof (Ht (nth 0 ls 0) ltac:(apply nth_In; lia)).
        replace ((nth 0 ls 0 - t) / (nth 0 ls 0 - nth 1 ls 0))
          with (- ((nth 0 ls 0 - t) / (nth 1 ls 0 - nth 0 ls 0)))
          by (field; lra).
        assert (0 < (nth 0 ls 0 - t) / (nth 1 ls 0 - nth 0 ls 0))
          by (apply Rdiv_lt_0_compat; lra).
        lra. }
    rewrite Ew. apply (llround_at_low 0). lia.
Qed.

Lemma segment_round_range ls k t :
  brackets ls k t -> (k <= 998)%nat ->
  (Z.of_nat k
   <= Rround_away
        (INR k + (t - nth k ls 0%R) / (nth (S k) ls 0%R - nth k ls 0%R))%R
   <= Z.of_nat k + 1)%Z.
Proof.
  intros (_ & Hle & Hgt) Hk.
  pose proof (Hle k (Nat.le_refl k)). pose proof (Hgt (S k) ltac:(lia)).
  pose proof (div_unit (t - nth k ls 0) (nth (S k) ls 0 - nth k ls 0)
                ltac:(lra) ltac:(lra)).
  apply Rround_away_between; [lia |]. rewrite <- INR_IZR_INZ. lra.
Qed.

(** ** The timesteps of a run *)

Lemma increasing_le ls i j :
  increasing_reals ls -> (i <= j < List.length ls)%nat ->
  nth i ls 0 <= nth j ls 0.
Proof.
  intros Hinc H. destruct (Nat.eq_dec i j) as [-> | N]; [lra |].
  left. apply Hinc. lia.
Qed.

Lemma brackets_between ls m u :
  increasing_reals ls -> (1000 <= List.length ls)%nat -> (m <= 998)%nat ->
  nth m ls 0 <= u -> u < nth (S m) ls 0 ->
  brackets ls m u.
Proof.
  intros Hinc Hlen Hm Hlo Hhi. split; [lia | split].
  - intros i Hi. pose proof (increasing_le ls i m Hinc ltac:(lia)). lra.
  - intros i Hi. pose proof (increasing_le ls (S m) i Hinc ltac:(lia)). lra.
Qed.

Lemma t_to_sigma_fin ls (steps : nat) :
  (1000 <= List.length ls)%nat ->
  (2 <= steps)%nat -> (Z.of_nat steps < 2 ^ 64)%Z ->
  t_to_sigma (map Fin ls) steps
  = Some (map (fun j => Fin (exp (interpolate ls (run_time steps j))))
              (int_range (Z.of_nat steps)) ++ [Fin 0]).
Proof.
  intros Hlen Hs Hmax. unfold t_to_sigma. cbv zeta.
  assert (Hw : size_t_wrap (Z.of_nat steps - 1) = (Z.of_nat steps - 1)%Z)
    by (apply Z.mod_small; lia).
  assert (Hd : 0 < IZR (Z.of_nat steps - 1)) by (apply IZR_lt; lia).
  rewrite Hw. unfold of_Z at 1. rewrite xdiv_fin by lra.
  rewrite (mapM_total _
             (fun j => Fin (exp (interpolate ls (run_time steps j))))).
  - reflexivity.
  - intros j Hj. apply int_range_bounds in Hj.
    apply t_to_sigma_at_fin; [assumption |].
    apply (run_times steps j); lia.
Qed.

Lemma run_time_first steps : run_time steps 0 = 999.
Proof. unfold run_time. simpl. lra. Qed.

Lemma run_time_last steps : (2 <= steps)%nat ->
  run_time steps (Z.of_nat steps - 1) = 0.
Proof.
  intros H. unfold run_time.
  assert (0 < IZR (Z.of_nat steps - 1)) by (apply IZR_lt; lia).
  field. lra.
Qed.

(** ** The history as a queue *)

Lemma push_derivative_skipn hist d : (List.length hist <= 4)%nat ->
  push_derivative hist d
  = skipn (List.length (hist ++ [d]) - 4) (hist ++ [d]).
Proof.
  intros H. unfold push_derivative. cbv zeta.
  destruct (Z.ltb_spec 4 (Z.of_nat (List.length (hist ++ [d])))) as [Hgt | Hle];
    rewrite length_app in *; cbn [List.length] in *.
  - replace (List.length hist + 1 - 4)%nat with 1%nat by lia.
    destruct hist; [cbn [List.length] in *; lia | reflexivity].
  - replace (List.length hist + 1 - 4)%nat with 0%nat by lia. reflexivity.
Qed.

Lemma fold_push_derivative ds : forall hist,
  (List.length hist <= 4)%nat ->
  fold_left push_derivative ds hist
  = skipn (List.length (hist ++ ds) - 4) (hist ++ ds).
Proof.
  induction ds as [|d ds IH]; intros hist H.
  - simpl. rewrite app_nil_r. replace (List.length hist - 4)%nat with 0%nat by lia.
    reflexivity.
  - cbn [fold_left]. rewrite IH by (rewrite push_derivative_length; lia).
    rewrite push_derivative_skipn by assumption.
    set (l := hist ++ [d]).
    replace (hist ++ d :: ds) with (l ++ ds)
      by (unfold l; now rewrite <- app_assoc).
    assert (Hl : (List.length l <= 5)%nat)
      by (unfold l; rewrite length_app; simpl; lia).
    rewrite !length_app, length_skipn.
    destruct (Nat.le_gt_cases (List.length l) 4) as [Hs | Hb].
    + replace (List.length l - 4)%nat with 0%nat by lia.
      cbn [skipn]. f_equal. lia.
    + assert (El : (List.length l - 4 = 1)%nat) by lia. rewrite El.
      destruct l as [|x l']; [simpl in Hb; lia |]. cbn [skipn app List.length] in *.
      replace (S (List.length l') - 1 + List.length ds - 4)%nat
        with (List.length l' + List.length ds - 4)%nat by lia.
      replace (S (List.length l') + List.length ds - 4)%nat
        with (S (List.length l' + List.length ds - 4)) by lia.
      reflexivity.
Qed.

(** ** The size of the latent *)

Lemma transform2_length op l1 : forall l2 r,
  transform2 op l1 l2 = Some r ->
  List.length r = List.length l1 /\ (List.length l1 <= List.length l2)%nat.
Proof.
  induction l1 as [|x l1 IH]; intros l2 r H.
  - injection H as <-. simpl. lia.
  - destruct l2 as [|y l2]; [discriminate |]. cbn [transform2] in H.
    apply bind_some in H as (r' & Hr' & H). injection H as <-.
    destruct (IH _ _ Hr'). simpl. lia.
Qed.

Lemma lms_step_latent unet tbl sigma shape latent emb i st st' :
  lms_step unet tbl sigma shape latent emb i st = Some st' ->
  List.length (latent_vector_1d_new st')
  = List.length (latent_vector_1d_new st).
Proof.
  unfold lms_step. intros H.
  apply bind_some in H as (sigma_i & _ & H). cbv zeta in H.
  apply bind_some in H as (input & _ & H).
  apply bind_some in H as (timestemp & _ & H).
  apply bind_some in H as (noise & _ & H).
  apply bind_some in H as (dvec & _ & H).
  apply bind_some in H as (coeffs & _ & H).
  apply bind_some in H as (revd & _ & H).
  apply bind_some in H as (first & _ & H).
  apply bind_some in H as (dsum & _ & H).
  apply bind_some in H as (updated & Hu & H).
  injection H as <-. cbn [latent_vector_1d_new].
  apply transform2_length in Hu as [Hl Hle].
  rewrite length_app, length_skipn. lia.
Qed.

Lemma init_state_latent sigma latent st0 :
  init_state sigma latent = Some st0 ->
  List.length (latent_vector_1d_new st0) = Z.to_nat (get_size latent).
Proof.
  unfold init_state. intros H.
  apply bind_some in H as (n & _ & H).
  apply bind_some in H as (scaled & Hs & H).
  injection H as <-. cbn [latent_vector_1d_new].
  apply mapM_length in Hs. now rewrite Hs, int_range_length.
Qed.

Lemma lms_loop_latent body idxs : forall st st',
  (forall i s s', body i s = Some s' ->
     List.length (latent_vector_1d_new s') = List.length (latent_vector_1d_new s)) ->
  lms_loop body idxs st = Some st' ->
  List.length (latent_vector_1d_new st') = List.length (latent_vector_1d_new st).
Proof.
  induction idxs as [|i idxs IH]; intros st st' Hb H.
  - now injection H as <-.
  - cbn [lms_loop] in H. apply bind_some in H as (s1 & H1 & H).
    rewrite (IH _ _ Hb H). eapply Hb; eassumption.
Qed.

Lemma diffusion_function_shape unet seed steps latent emb out :
  diffusion_function unet seed steps latent emb = Some out ->
  get_shape out = get_shape latent
  /\ List.length (data out) = Z.to_nat (get_size latent).
Proof.
  unfold diffusion_function. cbv zeta. intros H.
  apply bind_some in H as (sigma & _ & H).
  apply bind_some in H as (shape & _ & H).
  apply bind_some in H as (st0 & H0 & H).
  apply bind_some in H as (st & Hl & H).
  injection H as <-. cbn [get_shape data]. split; [reflexivity |].
  transitivity (List.length (latent_vector_1d_new st0)).
  - eapply lms_loop_latent; [| exact Hl].
    intros i s s' Hs. eapply lms_step_latent. exact Hs.
  - eapply init_state_latent. exact H0.
Qed.

(** ** No step at all *)

Lemma t_to_sigma_no_step log_sigma_vec : t_to_sigma log_sigma_vec 0 = Some [Fin 0].
Proof. reflexivity. Qed.

Lemma diffusion_function_no_step unet seed latent emb d rest ls :
  get_shape latent = d :: rest ->
  data latent = map Fin ls ->
  get_size latent = Z.of_nat (List.length ls) ->
  diffusion_function unet seed 0 latent emb
  = Some (mkTensor (d :: rest) (zeros (List.length ls))).
Proof.
  intros Hshape Hdata Hsize. unfold diffusion_function. cbv zeta.
  rewrite t_to_sigma_no_step. cbn [bind]. rewrite Hshape. cbn [set_dim0 bind].
  unfold init_state. change (vec_at [Fin 0] 0) with (Some (Fin 0)). cbn [bind].
  rewrite Hsize, Hdata, int_range_nat.
  rewrite (mapM_total _ (fun _ => Fin 0)).
  - cbn [bind seq lms_loop latent_vector_1d_new].
    now rewrite map_zeros, length_map, length_seq.
  - intros j Hj. apply in_map_iff in Hj as (n & <- & Hn). apply in_seq in Hn.
    rewrite (vec_at_fin ls n) by lia. cbn [bind]. simpl. do 2 f_equal. ring.
Qed.

(** ** [unet_infer_function]: the two halves of the prediction *)

Lemma vec_at_app_left {A : Type} (l1 l2 : list A) (i : nat) :
  (i < List.length l1)%nat -> vec_at (l1 ++ l2) (Z.of_nat i) = nth_error l1 i.
Proof. intros H. rewrite vec_at_nat. now apply nth_error_app1. Qed.

Lemma vec_at_app_right {A : Type} (l1 l2 : list A) (i : nat) :
  vec_at (l1 ++ l2) (Z.of_nat (List.length l1) + Z.of_nat i) = nth_error l2 i.
Proof.
  replace (Z.of_nat (List.length l1) + Z.of_nat i)%Z
    with (Z.of_nat (List.length l1 + i)) by lia.
  rewrite vec_at_nat, nth_error_app2 by lia. f_equal. lia.
Qed.

Lemma unet_infer_function_halves unet timestemp input emb batch rest us cs more :
  get_shape (unet timestemp input emb) = batch :: rest ->
  data (unet timestemp input emb) = map Fin us ++ map Fin cs ++ more ->
  shape_size (1%Z :: rest) = Z.of_nat (List.length us) ->
  List.length cs = List.length us ->
  unet_infer_function unet timestemp input emb
  = Some (mkTensor (1%Z :: rest)
            (map (fun uc => Fin (fst uc + 75 / 10 * (snd uc - fst uc)))
                 (combine us cs))).
Proof.
  intros Hshape Hdata Hn Hlen. unfold unet_infer_function. cbv zeta.
  rewrite Hshape. cbn [set_dim0 bind]. rewrite Hn, Hdata, int_range_nat.
  rewrite (mapM_total _
    (fun i => Fin (nth (Z.to_nat i) us 0
                   + 75 / 10 * (nth (Z.to_nat i) cs 0 - nth (Z.to_nat i) us 0)))).
  - cbn [bind]. do 2 f_equal. rewrite map_map.
    rewrite (map_ext _ (fun n => (fun uc => Fin (fst uc + 75 / 10 * (snd uc - fst uc)))
                                   (nth n (combine us cs) (0, 0))))
      by (intros n; rewrite Nat2Z.id, combine_nth by congruence; reflexivity).
    replace (List.length us) with (List.length (combine us cs))
      by (rewrite length_combine; lia).
    apply (map_nth_seq (fun uc => Fin (fst uc + 75 / 10 * (snd uc - fst uc)))).
  - intros j Hj. apply in_map_iff in Hj as (n & <- & Hn'). apply in_seq in Hn'.
    rewrite Nat2Z.id.
    rewrite vec_at_app_left by (rewrite length_map; lia).
    rewrite (map_nth_error Fin n us (d := nth n us 0)) by (apply nth_error_nth'; lia).
    cbn [bind].
    replace (Z.of_nat (List.length us)) with (Z.of_nat (List.length (map Fin us)))
      by now rewrite length_map.
    rewrite vec_at_app_right.
    rewrite nth_error_app1 by (rewrite length_map; lia).
    rewrite (map_nth_error Fin n cs (d := nth n cs 0)) by (apply nth_error_nth'; lia).
    cbn [bind]. reflexivity.
Qed.

Lemma unet_infer_function_short unet timestemp input emb batch rest :
  get_shape (unet timestemp input emb) = batch :: rest ->
  (0 < shape_size (1%Z :: rest))%Z ->
  (Z.of_nat (List.length (data (unet timestemp input emb)))
   < 2 * shape_size (1%Z :: rest))%Z ->
  unet_infer_function unet timestemp input emb = None.
Proof.
  intros Hshape Hpos Hshort. unfold unet_infer_function. cbv zeta.
  rewrite Hshape. cbn [set_dim0 bind].
  set (n := shape_size (1%Z :: rest)) in *.
  set (out := data (unet timestemp input emb)) in *.
  assert (H : forall l, (forall i, In i l -> (0 <= i < n)%Z) ->
            In (n - 1)%Z l ->
            mapM (fun i => uncond <- vec_at out i ;;
                           text <- vec_at out (n + i) ;;
                           Some (xadd uncond (xmul guidance_scale (xsub text uncond))))
                 l = None).
  { induction l as [|i l IH]; intros Hall Hin; [contradiction |].
    cbn [mapM]. destruct (vec_at out i) as [u|]; [| reflexivity]. cbn [bind].
    destruct Hin as [-> | Hin].
    - rewrite vec_at_beyond by lia. reflexivity.
    - destruct (vec_at out (n + i)) as [t|]; [| reflexivity]. cbn [bind].
      rewrite IH; [reflexivity | intros; apply Hall; now right | assumption]. }
  rewrite H; [reflexivity | apply int_range_bounds | apply in_int_range; lia].
Qed.

(** ** [std_randn_function] and the latent shape *)

Lemma randn_size_exact h w :
  (0 <= h)%Z -> (0 <= w)%Z -> (h / 8 * w < 2 ^ 32)%Z ->
  randn_size h w = (h / 8 * w / 8 * 4)%Z.
Proof.
  intros Hh Hw Hmax. unfold randn_size, uint32_wrap.
  assert (0 <= h / 8)%Z by (apply Z.div_pos; lia).
  assert (0 <= h / 8 * w)%Z by lia.
  assert (0 <= h / 8 * w / 8)%Z by (apply Z.div_pos; lia).
  assert (h / 8 * w / 8 * 8 <= h / 8 * w)%Z
    by (pose proof (Z.mul_div_le (h / 8 * w) 8 ltac:(lia)); lia).
  rewrite (Z.mod_small (h / 8 * w)) by lia.
  rewrite (Z.mod_small (h / 8 * w / 8 * 4)) by lia.
  rewrite Z.mul_1_r. apply Z.mod_small. lia.
Qed.

Lemma randn_covers_latent h w :
  (0 <= h)%Z -> (0 <= w)%Z -> (h / 8 * w < 2 ^ 32)%Z ->
  (shape_size (latent_vector_shape h w) <= randn_size h w)%Z
  /\ ((w mod 8 = 0)%Z ->
      shape_size (latent_vector_shape h w) = randn_size h w).
Proof.
  intros Hh Hw Hmax. rewrite randn_size_exact by assumption.
  unfold latent_vector_shape, shape_size. cbn [fold_left].
  assert (H8 : (0 <= h / 8)%Z) by (apply Z.div_pos; lia).
  pose proof (Z.div_mod w 8 ltac:(lia)) as Ew.
  pose proof (Z.mod_pos_bound w 8 ltac:(lia)) as Hm.
  split.
  - assert (h / 8 * (w / 8) <= h / 8 * w / 8)%Z.
    { apply Z.div_le_lower_bound; [lia |]. nia. }
    lia.
  - intros H0. rewrite H0, Z.add_0_r in Ew.
    replace (h / 8 * w)%Z with (h / 8 * (w / 8) * 8)%Z by lia.
    rewrite Z.div_mul by lia. lia.
Qed.

(** ** The pixels of [vae_decoder_function] *)

Lemma std_clamp_unit v :
  std_clamp (Fin v) (Fin 0) (Fin 1)
  = Fin (if Rlt_dec v 0 then 0 else if Rlt_dec 1 v then 1 else v).
Proof.
  unfold std_clamp. simpl. unfold Rltb.
  destruct (Rlt_dec v 0); [reflexivity |]. now destruct (Rlt_dec 1 v).
Qed.

Lemma to_uint8_fin a : 0 <= a < 256 -> to_uint8 (Fin a) = Some (Zfloor a).
Proof.
  intros [H0 H1]. unfold to_uint8. cbv zeta. unfold Rtrunc.
  rewrite Rleb_true by assumption.
  assert (0 <= Zfloor a)%Z by (apply Zfloor_lub; simpl; lra).
  assert (Zfloor a < 256)%Z.
  { apply lt_IZR. pose proof (Zfloor_bound a). lra. }
  destruct (Z.leb_spec 0 (Zfloor a)); [| lia].
  destruct (Z.ltb_spec (Zfloor a) 256); [reflexivity | lia].
Qed.

Lemma pixel_of_fin d :
  pixel_of (Fin d)
  = Some (if Rlt_dec d (- 1) then 0%Z
          else if Rlt_dec 1 d then 255%Z
          else Zfloor ((d * (1 / 2) + 1 / 2) * 255)).
Proof.
  unfold pixel_of. simpl xmul at 2. simpl xadd. rewrite std_clamp_unit.
  destruct (Rlt_dec (d * (1 / 2) + 1 / 2) 0) as [Hn | Hn].
  - simpl xmul. rewrite to_uint8_fin by lra.
    destruct (Rlt_dec d (- 1)); [| lra].
    f_equal. apply Zfloor_eq. simpl. lra.
  - destruct (Rlt_dec 1 (d * (1 / 2) + 1 / 2)) as [Hp | Hp].
    + simpl xmul. rewrite to_uint8_fin by lra.
      destruct (Rlt_dec d (- 1)); [lra |]. destruct (Rlt_dec 1 d); [| lra].
      f_equal. apply Zfloor_eq. simpl. lra.
    + simpl xmul. rewrite to_uint8_fin by nra.
      destruct (Rlt_dec d (- 1)); [lra |]. destruct (Rlt_dec 1 d); [lra |].
      reflexivity.
Qed.

Lemma pixel_of_range d z : pixel_of d = Some z -> (0 <= z <= 255)%Z.
Proof.
  unfold pixel_of, to_uint8. intros H.
  destruct (xmul _ _) as [a| | |]; try discriminate. cbv zeta in H.
  destruct (Z.leb_spec 0 (Rtrunc a)); [| discriminate].
  destruct (Z.ltb_spec (Rtrunc a) 256); [| discriminate].
  injection H as <-. lia.
Qed.

Lemma pixel_of_special :
  pixel_of PInf = Some 255%Z /\ pixel_of NInf = Some 0%Z /\ pixel_of NaN = None.
Proof.
  unfold pixel_of. repeat split.
  - simpl xmul at 2. rewrite Reqb_false by lra. rewrite Rltb_false by lra.
    cbn [xinf xadd]. unfold std_clamp. cbn [xltb]. 
    change (xmul (Fin 1) (Fin 255)) with (Fin (1 * 255)).
    rewrite to_uint8_fin by lra. f_equal. apply Zfloor_eq. simpl. lra.
  - simpl xmul at 2. rewrite Reqb_false by lra. rewrite Rltb_false by lra.
    cbn [negb xinf xadd]. unfold std_clamp. cbn [xltb].
    change (xmul (Fin 0) (Fin 255)) with (Fin (0 * 255)).
    rewrite to_uint8_fin by lra. f_equal. apply Zfloor_eq. simpl. lra.
Qed.

Lemma pixel_of_monotone d d' z z' :
  d <= d' -> pixel_of (Fin d) = Some z -> pixel_of (Fin d') = Some z' ->
  (z <= z')%Z.
Proof.
  intros Hd. rewrite !pixel_of_fin. intros H H'.
  injection H as <-. injection H' as <-.
  assert (Hf : forall x, - 1 <= x <= 1 ->
            (0 <= Zfloor ((x * (1 / 2) + 1 / 2) * 255) <= 255)%Z).
  { intros x Hx. split.
    - apply Zfloor_lub. simpl. nra.
    - apply le_IZR. pose proof (Zfloor_bound ((x * (1 / 2) + 1 / 2) * 255)). nra. }
  destruct (Rlt_dec d (- 1)) as [H1 | H1].
  - destruct (Rlt_dec d' (- 1)); [lia |].
    destruct (Rlt_dec 1 d'); [lia | apply Hf; lra].
  - destruct (Rlt_dec d' (- 1)); [lra |].
    destruct (Rlt_dec 1 d) as [H2 | H2].
    + destruct (Rlt_dec 1 d'); [lia | lra].
    + destruct (Rlt_dec 1 d'); [apply Hf; lra |].
      apply Zfloor_le. nra.
Qed.

Lemma pixel_of_defined d : d <> NaN -> exists z, pixel_of d = Some z.
Proof.
  intros H. destruct d as [a| | |].
  - rewrite pixel_of_fin. eauto.
  - exists 255%Z. apply pixel_of_special.
  - exists 0%Z. apply pixel_of_special.
  - congruence.
Qed.

Lemma mapM_defined {A B : Type} (f : A -> option B) l :
  (forall a, In a l -> exists b, f a = Some b) ->
  exists bs, mapM f l = Some bs.
Proof.
  induction l as [|a l IH]; intros H; [simpl; eauto |].
  destruct (H a (or_introl eq_refl)) as [b Eb].
  destruct IH as [bs Ebs]; [intros; apply H; now right |].
  exists (b :: bs). simpl. now rewrite Eb, Ebs.
Qed.

Lemma mapM_forall {A B : Type} (f : A -> option B) (P : B -> Prop) l : forall bs,
  (forall a b, f a = Some b -> P b) -> mapM f l = Some bs -> Forall P bs.
Proof.
  induction l as [|a l IH]; intros bs HP H; simpl in H.
  - injection H as <-. constructor.
  - apply bind_some in H as (b & Eb & H).
    apply bind_some in H as (bs' & Ebs & H). injection H as <-.
    constructor; [eapply HP; eassumption | now apply IH].
Qed.

Lemma mapM_none {A B : Type} (f : A -> option B) l a :
  In a l -> f a = None -> mapM f l = None.
Proof.
  induction l as [|x l IH]; intros Hin Ha; [contradiction |].
  simpl. destruct Hin as [-> | Hin].
  - now rewrite Ha.
  - destruct (f x); [| reflexivity]. simpl. now rewrite IH.
Qed.

Lemma vae_scaled_sample sample ss :
  data sample = map Fin ss -> get_size sample = Z.of_nat (List.length ss) ->
  mapM (fun i => x <- vec_at (data sample) i ;; Some (xmul x vae_coeffs_const))
       (int_range (get_size sample))
  = Some (map (fun x => Fin (x * (1 / (18215 / 100000)))) ss).
Proof.
  intros Hd Hs. rewrite Hd, Hs, int_range_nat.
  rewrite (mapM_total _
    (fun i => Fin (nth (Z.to_nat i) ss 0 * (1 / (18215 / 100000))))).
  - f_equal. rewrite map_map.
    rewrite (map_ext _ (fun n => (fun x => Fin (x * (1 / (18215 / 100000))))
                                   (nth n ss 0)))
      by (intros n; now rewrite Nat2Z.id).
    apply (map_nth_seq (fun x => Fin (x * (1 / (18215 / 100000))))).
  - intros j Hj. apply in_map_iff in Hj as (n & <- & Hn). apply in_seq in Hn.
    rewrite (vec_at_fin ss n) by lia. cbn [bind]. rewrite Nat2Z.id.
    unfold vae_coeffs_const. rewrite xdiv_fin by lra. reflexivity.
Qed.

Lemma vae_decoder_function_image decoder sample ss :
  data sample = map Fin ss -> get_size sample = Z.of_nat (List.length ss) ->
  let scaled :=
    mkTensor (get_shape sample)
             (map (fun x => Fin (x * (1 / (18215 / 100000)))) ss) in
  let decoded := decoder scaled in
  (forall i, (0 <= i < get_size decoded)%Z ->
     exists d, vec_at (data decoded) i = Some d /\ d <> NaN) ->
  exists image,
    vae_decoder_function decoder sample = Some (scaled, image)
    /\ image_type image = u8
    /\ image_shape image = get_shape decoded
    /\ List.length (image_data image) = Z.to_nat (get_size decoded)
    /\ Forall (fun z => (0 <= z <= 255)%Z) (image_data image).
Proof.
  intros Hd Hs scaled decoded Hdec. unfold vae_decoder_function.
  rewrite (vae_scaled_sample sample ss Hd Hs). cbn [bind]. cbv zeta.
  rewrite Hd, skipn_all2, app_nil_r by (rewrite !length_map; lia).
  fold scaled. fold decoded.
  destruct (mapM_defined
              (fun i => d <- vec_at (data decoded) i ;; pixel_of d)
              (int_range (get_size decoded))) as [pixels Ep].
  { intros i Hi. apply int_range_bounds in Hi.
    destruct (Hdec i Hi) as (d & -> & Hn). cbn [bind].
    now apply pixel_of_defined. }
  rewrite Ep. cbn [bind]. eexists. split; [reflexivity |].
  cbn [image_type image_shape image_data]. repeat split.
  - apply mapM_length in Ep. now rewrite Ep, int_range_length.
  - eapply mapM_forall; [| exact Ep]. intros i z H.
    apply bind_some in H as (d & _ & H). eapply pixel_of_range. exact H.
Qed.

Lemma vae_decoder_function_nan decoder sample ss i :
  data sample = map Fin ss -> get_size sample = Z.of_nat (List.length ss) ->
  let scaled :=
    mkTensor (get_shape sample)
             (map (fun x => Fin (x * (1 / (18215 / 100000)))) ss) in
  (0 <= i < get_size (decoder scaled))%Z ->
  vec_at (data (decoder scaled)) i = Some NaN ->
  vae_decoder_function decoder sample = None.
Proof.
  intros Hd Hs scaled Hi Hnan. unfold vae_decoder_function.
  rewrite (vae_scaled_sample sample ss Hd Hs). cbn [bind]. cbv zeta.
  rewrite Hd, skipn_all2, app_nil_r by (rewrite !length_map; lia).
  fold scaled.
  rewrite (mapM_none _ _ i); [reflexivity | now apply in_int_range |].
  rewrite Hnan. cbn [bind]. apply pixel_of_special.
Qed.

(** ** [convertBGRtoRGB] *)

Lemma set_nth_length {A : Type} (l : list A) : forall n v,
  List.length (set_nth l n v) = List.length l.
Proof.
  induction l as [|x l IH]; intros [|n] v; simpl; try reflexivity.
  now rewrite IH.
Qed.

Lemma set_nth_same {A : Type} (l : list A) : forall n v d,
  (n < List.length l)%nat -> nth n (set_nth l n v) d = v.
Proof.
  induction l as [|x l IH]; intros [|n] v d H; simpl in *; try lia;
    [reflexivity | apply IH; lia].
Qed.

Lemma set_nth_other {A : Type} (l : list A) : forall n m v d,
  n <> m -> nth m (set_nth l n v) d = nth m l d.
Proof.
  induction l as [|x l IH]; intros [|n] [|m] v d H; simpl; try reflexivity;
    try congruence.
  apply IH. congruence.
Qed.

Lemma vec_at_nth (l : list Z) (i : nat) :
  (i < List.length l)%nat -> vec_at l (Z.of_nat i) = Some (nth i l 0%Z).
Proof. intros H. rewrite vec_at_nat. now apply nth_error_nth'. Qed.

Lemma swap_at_spec l (i j : nat) :
  (i < List.length l)%nat -> (j < List.length l)%nat -> i <> j ->
  exists l', swap_at l (Z.of_nat i) (Z.of_nat j) = Some l'
             /\ List.length l' = List.length l
             /\ nth i l' 0%Z = nth j l 0%Z
             /\ nth j l' 0%Z = nth i l 0%Z
             /\ (forall k, k <> i -> k <> j -> nth k l' 0%Z = nth k l 0%Z).
Proof.
  intros Hi Hj Hij. unfold swap_at. rewrite !vec_at_nth by assumption.
  cbn [bind]. rewrite !Nat2Z.id. eexists. split; [reflexivity |].
  repeat split.
  - now rewrite !set_nth_length.
  - rewrite set_nth_other by congruence. now apply set_nth_same.
  - apply set_nth_same. now rewrite set_nth_length.
  - intros k Hki Hkj. rewrite !set_nth_other by congruence. reflexivity.
Qed.

(** The loop over the pixels [m], ..., [m + n - 1]: in each of them the
    channels 0 and 2 change places, everything else stays. *)
Lemma swap_loop_spec n : forall m l,
  (3 * (m + n) <= List.length l)%nat ->
  (Z.of_nat (List.length l) < 2 ^ 64)%Z ->
  exists l', swap_loop (map Z.of_nat (seq m n)) l = Some l'
             /\ List.length l' = List.length l
             /\ (forall p c, (m <= p < m + n)%nat -> (c <= 2)%nat ->
                   nth (3 * p + c) l' 0%Z = nth (3 * p + (2 - c)) l 0%Z)
             /\ (forall k, (k < 3 * m \/ 3 * (m + n) <= k)%nat ->
                   nth k l' 0%Z = nth k l 0%Z).
Proof.
  induction n as [|n IH]; intros m l Hlen Hmax.
  - exists l. repeat split; intros; lia || reflexivity.
  - cbn [seq map swap_loop].
    assert (E0 : size_t_wrap (Z.of_nat m * 3) = Z.of_nat (3 * m))
      by (unfold size_t_wrap; rewrite Z.mod_small; lia).
    assert (E2 : size_t_wrap (Z.of_nat m * 3 + 2) = Z.of_nat (3 * m + 2))
      by (unfold size_t_wrap; rewrite Z.mod_small; lia).
    rewrite E0, E2.
    destruct (swap_at_spec l (3 * m) (3 * m + 2))
      as (l1 & -> & Hl1 & H0 & H2 & Hother); try lia.
    cbn [bind].
    destruct (IH (S m) l1) as (l' & -> & Hl' & Hin & Hout); try lia.
    exists l'. repeat split.
    + lia.
    + intros p c Hp Hc. destruct (Nat.eq_dec p m) as [-> | Hne].
      * rewrite Hout by lia.
        destruct c as [|[|[|c]]]; try lia.
        -- replace (3 * m + 0)%nat with (3 * m)%nat by lia.
           replace (3 * m + (2 - 0))%nat with (3 * m + 2)%nat by lia. exact H0.
        -- replace (3 * m + (2 - 1))%nat with (3 * m + 1)%nat by lia.
           apply Hother; lia.
        -- replace (3 * m + (2 - 2))%nat with (3 * m)%nat by lia. exact H2.
      * rewrite Hin by lia. apply Hother; lia.
    + intros k Hk. rewrite Hout by lia. apply Hother; lia.
Qed.

Lemma swap_loop_twice n l l' l'' :
  List.length l = (3 * n)%nat -> (Z.of_nat (List.length l) < 2 ^ 64)%Z ->
  swap_loop (int_range (Z.of_nat n)) l = Some l' ->
  swap_loop (int_range (Z.of_nat n)) l' = Some l'' ->
  l'' = l.
Proof.
  intros Hlen Hmax H1 H2. rewrite int_range_nat in *.
  destruct (swap_loop_spec n 0 l) as (r1 & E1 & L1 & In1 & _); try lia.
  rewrite E1 in H1. injection H1 as <-.
  destruct (swap_loop_spec n 0 r1) as (r2 & E2 & L2 & In2 & _); try lia.
  rewrite E2 in H2. injection H2 as <-.
  apply nth_ext with (d := 0%Z) (d' := 0%Z); [lia |].
  intros k Hk.
  pose proof (Nat.div_mod_eq k 3) as Ek.
  pose proof (Nat.mod_upper_bound k 3 ltac:(lia)) as Hc.
  set (p := (k / 3)%nat) in *. set (c := (k mod 3)%nat) in *.
  rewrite Ek. rewrite In2 by lia. rewrite In1 by lia. f_equal. lia.
Qed.

Lemma ramp_length : List.length ramp_table = 1000%nat.
Proof. unfold ramp_table. now rewrite length_map, length_seq. Qed.

Lemma ramp_nth i : (i < 1000)%nat -> nth i ramp_table 0 = INR i.
Proof.
  intros H. unfold ramp_table. change 0 with (INR 0).
  rewrite map_nth, seq_nth by assumption. reflexivity.
Qed.

Lemma ramp_increasing : increasing_reals ramp_table.
Proof.
  intros i j H. rewrite ramp_length in H. rewrite !ramp_nth by lia.
  apply lt_INR. lia.
Qed.

(** ** Degenerate counts of training timesteps *)

Lemma scheduler_linear_one bs be pt :
  snd (LMSDiscreteScheduler 1 (Fin bs) (Fin be) "linear" pt []) = [NaN].
Proof.
  rewrite scheduler_linear. cbn [snd]. unfold linear_betas.
  change (int_range 1) with [0%Z]. cbn [map]. unfold of_Z.
  change (1 - 1)%Z with 0%Z.
  change (xmul (xsub (Fin be) (Fin bs)) (Fin 0)) with (Fin ((be - bs) * 0)).
  assert (E : xdiv (Fin ((be - bs) * 0)) (Fin 0) = NaN).
  { simpl. rewrite (Reqb_true 0 0) by reflexivity.
    now rewrite (Reqb_true ((be - bs) * 0) 0) by ring. }
  rewrite E. reflexivity.
Qed.

Lemma scheduler_scaled_linear_one bs be pt :
  0 < bs < 1 ->
  exists l, snd (LMSDiscreteScheduler 1 (Fin bs) be "scaled_linear" pt [])
            = [Fin l]
            /\ exp l = sqrt (bs / (1 - bs)).
Proof.
  intros Hb. rewrite scheduler_scaled_linear. cbn [snd].
  unfold scaled_linear_betas. cbv zeta.
  change (size_t_wrap 1) with 1%Z. rewrite linspace_one.
  rewrite xsqrt_fin by lra. cbn [map].
  change (xmul (Fin (sqrt bs)) (Fin (sqrt bs))) with (Fin (sqrt bs * sqrt bs)).
  rewrite sqrt_sqrt by lra.
  change [Fin bs] with (map Fin [bs]).
  rewrite log_sigma_table_fin by (constructor; [lra | constructor]).
  cbn [List.length seq map]. eexists. split; [reflexivity |].
  unfold cumprod. cbn [firstn fold_left].
  assert (Hs : 0 < sigma_of_cumprod (1 * (1 - bs)))
    by (apply sigma_of_cumprod_pos; lra).
  rewrite exp_ln by assumption. unfold sigma_of_cumprod. f_equal. field. lra.
Qed.

Lemma scheduler_empty N bs be pt :
  ((N <= 0)%Z ->
     snd (LMSDiscreteScheduler N bs be "linear" pt []) = [])
  /\ snd (LMSDiscreteScheduler 0 bs be "scaled_linear" pt []) = [].
Proof.
  split.
  - intros H. rewrite scheduler_linear. cbn [snd]. unfold linear_betas, int_range.
    replace (Z.to_nat N) with 0%nat by lia. reflexivity.
  - reflexivity.
Qed.

Lemma interpolate_Z ls (z : Z) : interpolate ls (IZR z) = entry_at ls z.
Proof.
  unfold interpolate. cbv zeta. rewrite ZfloorZ.
  replace (Zceil (IZR z)) with z by (symmetry; apply Zceil_eq; lra).
  unfold entry_at. ring.
Qed.

Lemma combine_same_guidance us :
  map (fun uc : R * R => Fin (fst uc + 75 / 10 * (snd uc - fst uc)))
      (combine us us)
  = map Fin us.
Proof.
  induction us as [|u us IH]; [reflexivity |].
  cbn [combine map fst snd]. rewrite IH. do 2 f_equal. ring.
Qed.

Lemma ramp_in x : In x ramp_table -> 0 <= x <= 999.
Proof.
  unfold ramp_table. intros H. apply in_map_iff in H as (i & <- & Hi).
  apply in_seq in Hi. split; [apply pos_INR |].
  change 999 with (IZR 999). rewrite INR_IZR_INZ. apply IZR_le. lia.
Qed.

(** ** The mapper is monotone *)

Lemma Rround_away_monotone a b : 0 <= a -> a <= b ->
  (Rround_away a <= Rround_away b)%Z.
Proof.
  intros Ha Hab. unfold Rround_away. rewrite !Rleb_true by lra.
  apply Zfloor_le. lra.
Qed.

Lemma find_segment ls t n :
  (n <= 999)%nat -> nth 0 ls 0 <= t -> t < nth n ls 0 ->
  exists k, (k < n)%nat /\ nth k ls 0 <= t /\ t < nth (S k) ls 0.
Proof.
  induction n as [|n IH]; intros Hn H0 Ht; [lra |].
  destruct (Rlt_dec t (nth n ls 0)) as [Hlt | Hge].
  - destruct IH as (k & Hk & Hlo & Hhi); try assumption; try lia.
    exists k. repeat split; try assumption. lia.
  - exists n. repeat split; [lia | lra | assumption].
Qed.

(** Where a finite target lies: below the table, in a segment, or at or
    above the last of the 1000 entries. *)
Lemma target_cases ls t :
  increasing_reals ls -> (1000 <= List.length ls)%nat ->
  (forall x, In x ls -> t < x)
  \/ (exists k, (k <= 998)%nat /\ brackets ls k t)
  \/ (forall i, (i < 1000)%nat -> nth i ls 0 <= t).
Proof.
  intros Hinc Hlen.
  destruct (Rlt_dec t (nth 0 ls 0)) as [Hb | Hb].
  - left. intros x Hx. apply (In_nth _ _ 0) in Hx as (i & Hi & <-).
    pose proof (increasing_le ls 0 i Hinc ltac:(lia)). lra.
  - destruct (Rlt_dec t (nth 999 ls 0)) as [Ht | Ht].
    + right. left.
      destruct (find_segment ls t 999) as (k & Hk & Hlo & Hhi); try lia; try lra.
      exists k. split; [lia |]. apply brackets_between; try assumption. lia.
    + right. right. intros i Hi.
      pose proof (increasing_le ls i 999 Hinc ltac:(lia)). lra.
Qed.

Lemma sigma_to_timestemp_monotone_log ls t t' sigma sigma' :
  increasing_reals ls -> (1000 <= List.length ls)%nat ->
  xlog sigma = Fin t -> xlog sigma' = Fin t' -> t <= t' ->
  exists T T',
    sigma_to_timestemp (map Fin ls) sigma = Some T
    /\ sigma_to_timestemp (map Fin ls) sigma' = Some T'
    /\ (T <= T')%Z.
Proof.
  intros Hinc Hlen Hlog Hlog' Htt.
  assert (Hlen' : (1000 <= List.length (map Fin ls))%nat)
    by (rewrite length_map; lia).
  destruct (sigma_to_timestemp_total (map Fin ls) sigma Hlen')
    as (d & lo & hi & w & T & _ & _ & _ & _ & _ & ET & HT).
  destruct (sigma_to_timestemp_total (map Fin ls) sigma' Hlen')
    as (d' & lo' & hi' & w' & T' & _ & _ & _ & _ & _ & ET' & HT').
  pose proof (stt_low_idx_bounds d) as Hd.
  pose proof (stt_low_idx_bounds d') as Hd'.
  exists T, T'. split; [exact ET | split; [exact ET' |]].
  pose proof (Hinc 0%nat 1%nat ltac:(lia)) as H01.
  pose proof (Hinc 998%nat 999%nat ltac:(lia)) as H89.
  destruct (target_cases ls t Hinc Hlen) as [Hb | [(k & Hk & Hbr) | Htop]].
  - rewrite (sigma_to_timestemp_bottom ls sigma Hlen H01) in ET
      by (right; eauto).
    injection ET as <-. lia.
  - destruct (target_cases ls t' Hinc Hlen) as [Hb' | [(k' & Hk' & Hbr') | Htop']].
    + destruct Hbr as (_ & Hle & _).
      pose proof (Hle 0%nat ltac:(lia)).
      pose proof (Hb' (nth 0 ls 0) ltac:(apply nth_In; lia)). lra.
    + pose proof (sigma_to_timestemp_segment ls k t sigma Hbr Hlen Hk Hlog) as E.
      pose proof (sigma_to_timestemp_segment ls k' t' sigma' Hbr' Hlen Hk' Hlog')
        as E'.
      pose proof (segment_round_range ls k t Hbr Hk) as Hr.
      pose proof (segment_round_range ls k' t' Hbr' Hk') as Hr'.
      rewrite E in ET. rewrite E' in ET'.
      injection ET as <-. injection ET' as <-.
      destruct Hbr as (_ & Hle & Hgt). destruct Hbr' as (_ & Hle' & Hgt').
      assert (Hkk : (k <= k')%nat).
      { destruct (Nat.le_gt_cases k k') as [H | H]; [assumption |].
        pose proof (Hle k (Nat.le_refl k)). pose proof (Hgt' k ltac:(lia)). lra. }
      destruct (Nat.eq_dec k k') as [<- | Hne]; [| lia].
      pose proof (Hle k (Nat.le_refl k)). pose proof (Hgt (S k) ltac:(lia)).
      apply Rround_away_monotone.
      * pose proof (div_unit (t - nth k ls 0) (nth (S k) ls 0 - nth k ls 0)
                      ltac:(lra) ltac:(lra)).
        pose proof (pos_INR k). lra.
      * apply Rplus_le_compat_l. unfold Rdiv. apply Rmult_le_compat_r.
        -- left. apply Rinv_0_lt_compat. lra.
        -- lra.
    + rewrite (sigma_to_timestemp_top ls t' sigma' Hlen H89 Htop' Hlog') in ET'.
      injection ET' as <-. lia.
  - rewrite (sigma_to_timestemp_top ls t sigma Hlen H89 Htop Hlog) in ET.
    assert (Htop' : forall i, (i < 1000)%nat -> nth i ls 0 <= t').
    { intros i Hi. pose proof (Htop i Hi). lra. }
    rewrite (sigma_to_timestemp_top ls t' sigma' Hlen H89 Htop' Hlog') in ET'.
    injection ET as <-. injection ET' as <-. lia.
Qed.

(** ** Two steps with the stub that predicts zeros *)

Lemma transform2_zeros_left xs :
  transform2 xadd (zeros (List.length xs)) (map Fin xs) = Some (map Fin xs).
Proof.
  unfold zeros. induction xs as [|x xs IH]; [reflexivity |].
  cbn [List.length repeat map transform2]. rewrite IH. cbn [bind].
  change (xadd (Fin 0) (Fin x)) with (Fin (0 + x)). do 3 f_equal. ring.
Qed.

Lemma zero_latent_input_shape ls :
  get_size (mkTensor [1; 4; 8; 8]%Z ls) = 256%Z.
Proof. reflexivity. Qed.

Lemma lms_step_zero_unet_first log_sigma_vec sigma a b emb ls xs :
  (1000 <= List.length log_sigma_vec)%nat ->
  vec_at sigma 0 = Some (Fin a) -> vec_at sigma 1 = Some (Fin b) -> a <> 0 ->
  List.length ls = 256%nat -> List.length xs = 256%nat ->
  lms_step zero_unet log_sigma_vec sigma [2; 4; 8; 8]%Z
    (mkTensor [1; 4; 8; 8]%Z (map Fin ls)) emb 0
    (mkLoopState (map Fin xs) [])
  = Some (mkLoopState (map Fin xs) [zeros 256]).
Proof.
  intros Hlen Ha Hb Ha0 Hls Hxs. unfold lms_step.
  change (Z.of_nat 0) with 0%Z. rewrite Ha. cbn [bind]. cbv zeta.
  rewrite zero_latent_input_shape.
  change (shape_size [2; 4; 8; 8]%Z) with 512%Z.
  change (2 * 256 =? 512)%Z with true. cbn [bind].
  destruct (sigma_to_timestemp_total log_sigma_vec (Fin a) Hlen)
    as (_ & _ & _ & _ & t & _ & _ & _ & _ & _ & -> & _).
  cbn [bind]. rewrite unet_infer_zero. cbn [bind].
  rewrite (derivative_vec_fin _ _ ls (repeat 0 256) a);
    [ | reflexivity | apply zeros_fin
      | rewrite zero_latent_input_shape, Hls; reflexivity
      | rewrite repeat_length; lia | assumption ].
  cbn [bind data derivative_list latent_vector_1d_new].
  change (push_derivative [] (zeros 256)) with [zeros 256].
  change (lms_order 0) with 1%Z.
  rewrite (lms_coeffs_order_one sigma 0 a b) by assumption. cbn [bind].
  unfold scale_derivatives. change (int_range 1) with [0%Z].
  cbn [mapM rev app]. change (vec_at [Fin (b - a)] 0) with (Some (Fin (b - a))).
  change (vec_at [zeros 256] 0) with (Some (zeros 256)). cbn [bind].
  rewrite scale_zeros.
  change (skipn (Z.to_nat 1) [zeros 256]) with (@nil (list xreal)).
  cbn [app]. change (vec_at [zeros 256] 0) with (Some (zeros 256)). cbn [bind].
  change (1 <? 1)%Z with false. cbv iota. cbn [bind].
  rewrite <- Hxs at 1. rewrite transform2_zeros_left. cbn [bind].
  rewrite skipn_all2, app_nil_r
    by (unfold zeros; rewrite repeat_length, length_map; lia).
  reflexivity.
Qed.

Lemma lms_step_zero_unet_second log_sigma_vec ss emb ls xs :
  (1000 <= List.length log_sigma_vec)%nat ->
  (3 <= List.length ss)%nat -> nth 1 ss 0 <> 0 -> nth 0 ss 0 <> nth 1 ss 0 ->
  List.length ls = 256%nat -> List.length xs = 256%nat ->
  lms_step zero_unet log_sigma_vec (map Fin ss) [2; 4; 8; 8]%Z
    (mkTensor [1; 4; 8; 8]%Z (map Fin ls)) emb 1
    (mkLoopState (map Fin xs) [zeros 256])
  = Some (mkLoopState (map Fin xs) [zeros 256; zeros 256]).
Proof.
  intros Hlen Hss Hb0 Hab Hls Hxs. unfold lms_step.
  rewrite (vec_at_fin ss 1) by lia. cbn [bind]. cbv zeta.
  rewrite zero_latent_input_shape.
  change (shape_size [2; 4; 8; 8]%Z) with 512%Z.
  change (2 * 256 =? 512)%Z with true. cbn [bind].
  destruct (sigma_to_timestemp_total log_sigma_vec (Fin (nth 1 ss 0)) Hlen)
    as (_ & _ & _ & _ & t & _ & _ & _ & _ & _ & -> & _).
  cbn [bind]. rewrite unet_infer_zero. cbn [bind].
  rewrite (derivative_vec_fin _ _ ls (repeat 0 256) (nth 1 ss 0));
    [ | reflexivity | apply zeros_fin
      | rewrite zero_latent_input_shape, Hls; reflexivity
      | rewrite repeat_length; lia | assumption ].
  cbn [bind data derivative_list latent_vector_1d_new].
  change (push_derivative [zeros 256] (zeros 256)) with [zeros 256; zeros 256].
  change (lms_order 1) with 2%Z.
  destruct (lms_coeffs_order_two ss 1) as (c0 & c1 & -> & _); try lia;
    [simpl; lra |].
  cbn [bind]. unfold scale_derivatives. change (int_range 2) with [0; 1]%Z.
  cbn [mapM rev app].
  change (vec_at [Fin c0; Fin c1] 0) with (Some (Fin c0)).
  change (vec_at [Fin c0; Fin c1] 1) with (Some (Fin c1)).
  change (vec_at [zeros 256; zeros 256] 0) with (Some (zeros 256)).
  change (vec_at [zeros 256; zeros 256] 1) with (Some (zeros 256)).
  cbn [bind]. rewrite !scale_zeros.
  change (skipn (Z.to_nat 2) [zeros 256; zeros 256]) with (@nil (list xreal)).
  cbn [app]. change (vec_at [zeros 256; zeros 256] 0) with (Some (zeros 256)).
  cbn [bind]. change (1 <? 2)%Z with true. cbv iota.
  change (int_range (2 - 1)) with [0%Z]. cbn [sum_derivatives].
  change (vec_at [zeros 256; zeros 256] (0 + 1)) with (Some (zeros 256)).
  cbn [bind]. rewrite transform2_zeros. cbn [bind].
  rewrite <- Hxs at 1. rewrite transform2_zeros_left. cbn [bind].
  rewrite skipn_all2, app_nil_r
    by (unfold zeros; rewrite repeat_length, length_map; lia).
  reflexivity.
Qed.

Lemma diffusion_two_steps_zero_unet seed emb ls :
  List.length ls = 256%nat ->
  exists sigma_0,
    0 < sigma_0
    /\ (exists sigma,
          t_to_sigma (snd LMSDiscreteScheduler_default) 2 = Some sigma
          /\ nth_error sigma 0 = Some (Fin sigma_0))
    /\ diffusion_function zero_unet seed 2
         (mkTensor [1; 4; 8; 8]%Z (map Fin ls)) emb
       = Some (mkTensor [1; 4; 8; 8]%Z
                 (map (fun x => Fin (x * sigma_0)) ls)).
Proof.
  intros Hls. destruct default_table_fin as (tbl & Etbl & Htl & Hinc).
  assert (Hlen : (1000 <= List.length tbl)%nat) by lia.
  assert (Hsig : t_to_sigma (map Fin tbl) 2
                 = Some (map Fin [exp (nth 999 tbl 0); exp (nth 0 tbl 0); 0])).
  { rewrite t_to_sigma_fin by (simpl; lia).
    change (int_range (Z.of_nat 2)) with [0; 1]%Z. cbn [map app].
    rewrite run_time_first.
    change 1%Z with (Z.of_nat 2 - 1)%Z. rewrite run_time_last by lia.
    change 999 with (IZR 999). change 0 with (IZR 0) at 1.
    rewrite !interpolate_Z. reflexivity. }
  set (a := exp (nth 999 tbl 0)). set (b := exp (nth 0 tbl 0)).
  fold a b in Hsig.
  assert (Ha : 0 < a) by apply exp_pos. assert (Hb : 0 < b) by apply exp_pos.
  assert (Hab : a <> b).
  { pose proof (Hinc 0%nat 999%nat ltac:(lia)).
    pose proof (exp_increasing _ _ H). unfold a, b. lra. }
  exists a. split; [exact Ha | split].
  - rewrite Etbl, Hsig. eexists. split; reflexivity.
  - unfold diffusion_function. cbv zeta. rewrite Etbl, Hsig. cbn [bind].
    cbn [get_shape set_dim0 bind].
    unfold init_state. change (vec_at (map Fin [a; b; 0]) 0) with (Some (Fin a)).
    cbn [bind]. rewrite zero_latent_input_shape. cbn [data].
    rewrite (mapM_total _ (fun i => Fin (nth (Z.to_nat i) ls 0 * a))).
    2:{ intros i Hi. apply int_range_bounds in Hi.
        rewrite <- (Z2Nat.id i) at 1 by lia.
        rewrite (vec_at_fin ls) by lia. reflexivity. }
    cbn [bind]. change 256%Z with (Z.of_nat 256). rewrite int_range_nat, map_map.
    rewrite (map_ext _ (fun n => (fun x => Fin (x * a)) (nth n ls 0)))
      by (intros n; now rewrite Nat2Z.id).
    rewrite <- Hls, (map_nth_seq (fun x => Fin (x * a))).
    rewrite <- (map_map (fun x => x * a) Fin).
    change (seq 0 2) with [0; 1]%nat. cbn [lms_loop].
    assert (Hlen' : (1000 <= List.length (map Fin tbl))%nat)
      by (rewrite length_map; lia).
    assert (Hxs : List.length (map (fun x => x * a) ls) = 256%nat)
      by (rewrite length_map; exact Hls).
    rewrite (lms_step_zero_unet_first (map Fin tbl) (map Fin [a; b; 0]) a b
               emb ls _ Hlen' eq_refl eq_refl ltac:(lra) Hls Hxs).
    cbn [bind].
    rewrite (lms_step_zero_unet_second (map Fin tbl) [a; b; 0] emb ls _ Hlen'
               ltac:(simpl; lia) ltac:(simpl; lra) ltac:(simpl; lra) Hls Hxs).
    cbn [bind latent_vector_1d_new]. reflexivity.
Qed.

(** ** [trapezoidal] when it returns at the second refinement *)






(** ** Steps of the loop on zero predictions *)











(** ** The table on [float] *)




(** ** The reads of the run schedule on [float] *)

Lemma t_to_sigma_reads_checked :
  forallb (fun steps => forallb (t_to_sigma_reads_check steps) (int_range steps))
          (map (fun n => Z.of_nat n) (seq 2 99))
  = true.
Proof. vm_compute. reflexivity. Qed.

Lemma t_to_sigma_reads_check_at steps i :
  (2 <= steps <= 100)%Z -> (0 <= i < steps)%Z ->
  t_to_sigma_reads_check steps i = true.
Proof.
  intros Hs Hi. pose proof t_to_sigma_reads_checked as H.
  rewrite forallb_forall in H.
  specialize (H steps). rewrite forallb_forall in H.
  apply H.
  - apply in_map_iff. exists (Z.to_nat steps). split; [lia |].
    apply in_seq. lia.
  - now apply in_int_range.
Qed.



(** * The claims *)

(** Claim C1 (defect of the code).  A non-empty [trained_betas] is not used
    as the beta sequence: the copy is made into a variable of the inner
    block, the [betas] of the function stays empty, and the function
    returns the empty table, of length 0 and not of the length of
    [trained_betas], whatever the other arguments are. *)
Theorem trained_betas_are_discarded :
  forall N beta_start beta_end beta_schedule prediction_type b rest,
    snd (LMSDiscreteScheduler N beta_start beta_end beta_schedule
           prediction_type (b :: rest)) = []
    /\ List.length (snd (LMSDiscreteScheduler N beta_start beta_end
                           beta_schedule prediction_type (b :: rest)))
       <> List.length (b :: rest).
Proof.
  intros. rewrite scheduler_trained_betas. split; [reflexivity | discriminate].
Qed.

(** Claim C2 (defect of the code).  For [steps = 1] the run schedule is not
    defined: [delta] is [-999 / 0], which is minus infinity and not 0, the
    time [t = 999 + 0 * delta] is [NaN], and the conversion of its floor to
    the index [low_idx] is undefined, whatever the table is. *)
Theorem run_schedule_one_step_undefined :
  forall log_sigma_vec,
    xdiv (Fin (- 999)) (of_Z (size_t_wrap (Z.of_nat 1 - 1))) = NInf
    /\ xadd (Fin 999) (xmul (of_Z 0) NInf) = NaN
    /\ t_to_sigma log_sigma_vec 1 = None.
Proof.
  intros tbl. split; [exact delta_one_step | split].
  - unfold of_Z. simpl. now rewrite (Reqb_true 0 0).
  - apply t_to_sigma_one_step.
Qed.

(** Claim C3 (defect of the code).  With the schedule name ["cosine"], which
    is neither ["linear"] nor ["scaled_linear"], and no [trained_betas], the
    function writes its warning and returns normally, with the empty table
    computed from the empty beta sequence. *)
Theorem unknown_schedule_returns_empty_table :
  forall N beta_start beta_end prediction_type,
    LMSDiscreteScheduler N beta_start beta_end "cosine" prediction_type []
    = ([warning_beta_schedule], []).
Proof.
  intros. apply scheduler_unknown_schedule; discriminate.
Qed.

(** Claim C4 (defect of the code).  With [steps = 1], the all-zero latent
    of shape [1, 4, 8, 8] and the stub that predicts zeros, the sampling
    loop returns no latent at all, and so for every other latent and
    predictor: the run schedule is undefined there (see C2). *)
Theorem diffusion_one_step_undefined :
  forall seed text_embeddings,
    diffusion_function zero_unet seed 1 zero_latent text_embeddings = None
    /\ (forall unet latent_vector_1d,
          diffusion_function unet seed 1 latent_vector_1d text_embeddings
          = None).
Proof.
  intros. unfold diffusion_function. cbv zeta.
  now rewrite t_to_sigma_one_step.
Qed.




(** Claim C6.  For every index [k] of the default table of 1000 entries,
    the mapper applied to the sigma [exp (table[k])] returns the timestep
    [k]; and on that table the mapper returns a timestep, between 0 and
    999, for every sigma, also below the first and above the last entry. *)
Theorem timestep_of_table_sigma :
  forall k, (k < 1000)%nat ->
    let table := snd LMSDiscreteScheduler_default in
    (exists x, nth_error table k = Some x
               /\ sigma_to_timestemp table (xexp x) = Some (Z.of_nat k))
    /\ (forall sigma, exists t,
           sigma_to_timestemp table sigma = Some t /\ (0 <= t <= 999)%Z).
Proof.
  intros k Hk. cbv zeta.
  destruct default_table_fin as (ls & -> & Hlen & Hinc). split.
  - exists (Fin (nth k ls 0)). split.
    + apply map_nth_error, nth_error_nth'. lia.
    + apply sigma_to_timestemp_aligned; [assumption | lia | assumption].
  - intros sigma.
    destruct (sigma_to_timestemp_total (map Fin ls) sigma)
      as (dists & low & high & w & t & _ & _ & _ & _ & _ & Et & Ht);
      [rewrite length_map; lia |].
    pose proof (stt_low_idx_bounds dists). exists t. split; [assumption | lia].
Qed.

Lemma timestep_of_table_sigma_witness :
  let table := snd LMSDiscreteScheduler_default in
  (exists x, nth_error table 0 = Some x
             /\ sigma_to_timestemp table (xexp x) = Some 0%Z)
  /\ (forall sigma, exists t,
         sigma_to_timestemp table sigma = Some t /\ (0 <= t <= 999)%Z).
Proof.
  apply (timestep_of_table_sigma 0). lia.
Defined.

(** Claim C7.  At a step [i] with [sigma[i] > sigma[i + 1] >= 0], the
    coefficients of order 1 are the single coefficient
    [sigma[i + 1] - sigma[i]]: the product of [lms_derivative_function] is
    empty, the integrand is the constant 1, and [trapezoidal] returns the
    length of the interval. *)
Theorem lms_coefficient_order_one :
  forall sigma i a b,
    vec_at sigma (Z.of_nat i) = Some (Fin a) ->
    vec_at sigma (Z.of_nat i + 1) = Some (Fin b) ->
    a > b -> b >= 0 ->
    (forall tau t, lms_derivative_function tau 1 0 sigma t = Some (Fin 1))
    /\ lms_coeffs sigma i 1 = Some [Fin (b - a)].
Proof.
  intros sigma i a b Ha Hb _ _. split.
  - intros tau t. apply lms_derivative_order_one.
  - now apply lms_coeffs_order_one.
Qed.

Lemma lms_coefficient_order_one_witness :
  (forall tau t, lms_derivative_function tau 1 0 [Fin 2; Fin 1; Fin 0] t
                 = Some (Fin 1))
  /\ lms_coeffs [Fin 2; Fin 1; Fin 0] 1 1 = Some [Fin (0 - 1)].
Proof.
  apply (lms_coefficient_order_one [Fin 2; Fin 1; Fin 0] 1 1 0);
    [reflexivity | reflexivity | lra | lra].
Defined.




(** Claim C9.  In exact arithmetic, with a sigma that is not 0 and finite
    latent and noise values, the derivative of a step is the guided noise
    prediction, element by element, whichever latent the predicted sample
    is taken from (the code takes [latent_vector_1d]); it is the last entry
    of the history after the push. *)
Theorem derivative_is_guided_noise :
  forall latent_vector_1d latent_other noise_pred_1d ls ls' es s hist,
    data latent_vector_1d = map Fin ls ->
    data latent_other = map Fin ls' ->
    data noise_pred_1d = map Fin es ->
    get_size latent_vector_1d = Z.of_nat (List.length ls) ->
    get_size latent_other = Z.of_nat (List.length ls') ->
    List.length es = List.length ls ->
    List.length ls' = List.length ls ->
    s <> 0 ->
    derivative_vec latent_vector_1d noise_pred_1d (Fin s)
    = Some (data noise_pred_1d)
    /\ derivative_vec latent_other noise_pred_1d (Fin s)
       = Some (data noise_pred_1d)
    /\ last (push_derivative hist (data noise_pred_1d)) []
       = data noise_pred_1d.
Proof.
  intros lat lat' np ls ls' es s hist Hl Hl' He Hsz Hsz' Hlen Hlen' Hs.
  split; [| split].
  - now apply derivative_vec_fin with (ls := ls) (es := es).
  - apply derivative_vec_fin with (ls := ls') (es := es); congruence.
  - apply push_derivative_last.
Qed.

Lemma derivative_is_guided_noise_witness :
  let latent := mkTensor [1%Z; 2%Z] [Fin 3; Fin 4] in
  let scaled := mkTensor [1%Z; 2%Z] [Fin 6; Fin 8] in
  let noise := mkTensor [1%Z; 2%Z] [Fin 5; Fin 7] in
  derivative_vec latent noise (Fin 2) = Some [Fin 5; Fin 7]
  /\ derivative_vec scaled noise (Fin 2) = Some [Fin 5; Fin 7]
  /\ last (push_derivative [] [Fin 5; Fin 7]) [] = [Fin 5; Fin 7].
Proof.
  apply (derivative_is_guided_noise
           (mkTensor [1%Z; 2%Z] [Fin 3; Fin 4])
           (mkTensor [1%Z; 2%Z] [Fin 6; Fin 8])
           (mkTensor [1%Z; 2%Z] [Fin 5; Fin 7])
           [3; 4] [6; 8] [5; 7] 2 []);
    try reflexivity. lra.
Defined.

(** Claim C10.  The mapper reads the table entries 0 to 999 and no other:
    on a table of fewer than 1000 entries it is undefined, and its result
    depends on the first 1000 entries only.  On a table of at least 1000
    entries it returns, for every sigma, a timestep between 0 and 999: the
    low index is at most 998, the weight is clamped between 0 and 1, and
    the rounded combination lies between the low index and the next. *)
Theorem sigma_to_timestemp_in_bounds :
  forall log_sigmas sigma,
    ((List.length log_sigmas < 1000)%nat ->
       sigma_to_timestemp log_sigmas sigma = None)
    /\ sigma_to_timestemp (firstn 1000 log_sigmas) sigma
       = sigma_to_timestemp log_sigmas sigma
    /\ ((1000 <= List.length log_sigmas)%nat ->
        exists dists low high w t,
          dists_loop log_sigmas (xlog sigma) 1000 0 (Fin 0) = Some dists
          /\ (0 <= stt_low_idx dists <= 998)%Z
          /\ vec_at log_sigmas (stt_low_idx dists) = Some low
          /\ vec_at log_sigmas (stt_low_idx dists + 1) = Some high
          /\ stt_weight low high (xlog sigma) = Fin w /\ 0 <= w <= 1
          /\ sigma_to_timestemp log_sigmas sigma = Some t
          /\ (stt_low_idx dists <= t <= stt_low_idx dists + 1)%Z
          /\ (0 <= t <= 999)%Z).
Proof.
  intros tbl sigma. split; [| split].
  - apply sigma_to_timestemp_short.
  - apply sigma_to_timestemp_firstn.
  - intros Hlen.
    destruct (sigma_to_timestemp_total tbl sigma Hlen)
      as (dists & low & high & w & t & Ed & El & Eh & Ew & Hw & Et & Ht).
    pose proof (stt_low_idx_bounds dists) as Hb.
    exists dists, low, high, w, t. repeat split; try assumption; lra || lia.
Qed.

Lemma sigma_to_timestemp_in_bounds_witness :
  sigma_to_timestemp (repeat (Fin 0) 999) (Fin 1) = None
  /\ exists t, sigma_to_timestemp (repeat (Fin 0) 1000) (Fin 1) = Some t
               /\ (0 <= t <= 999)%Z.
Proof.
  split.
  - destruct (sigma_to_timestemp_in_bounds (repeat (Fin 0) 999) (Fin 1))
      as (H & _ & _).
    apply H. rewrite repeat_length. lia.
  - destruct (sigma_to_timestemp_in_bounds (repeat (Fin 0) 1000) (Fin 1))
      as (_ & _ & H).
    destruct H as (dists & low & high & w & t & H);
      [rewrite repeat_length; lia |].
    exists t. split; apply H.
Defined.

(** * Further properties of the code *)

(** Extra X1.  [linspace] with a count [N >= 2]: [N] values, the value
    number [k] is [a + k * (b - a) / (N - 1)], the first one is [a] and,
    in exact arithmetic, the last one is [b]. *)
Theorem linspace_evenly_spaced :
  forall a b (N : Z) (k : nat),
    (2 <= N < 2 ^ 64)%Z -> (Z.of_nat k < N)%Z ->
    List.length (linspace (Fin a) (Fin b) N) = Z.to_nat N
    /\ nth_error (linspace (Fin a) (Fin b) N) k
       = Some (Fin (a + INR k * ((b - a) / IZR (N - 1))))
    /\ nth_error (linspace (Fin a) (Fin b) N) 0 = Some (Fin a)
    /\ exists last,
         nth_error (linspace (Fin a) (Fin b) N) (Z.to_nat N - 1)
         = Some (Fin last) /\ last = b.
Proof.
  intros a b N k HN Hk.
  destruct (linspace_endpoints a b N HN) as (Hl & H0 & Hlast).
  repeat split; try assumption. now apply linspace_nth.
Qed.

Lemma linspace_evenly_spaced_witness :
  List.length (linspace (Fin 0) (Fin 1) 3) = 3%nat
  /\ nth_error (linspace (Fin 0) (Fin 1) 3) 1
     = Some (Fin (0 + INR 1 * ((1 - 0) / IZR (3 - 1))))
  /\ nth_error (linspace (Fin 0) (Fin 1) 3) 0 = Some (Fin 0)
  /\ exists last,
       nth_error (linspace (Fin 0) (Fin 1) 3) (Z.to_nat 3 - 1)
       = Some (Fin last) /\ last = 1.
Proof.
  apply (linspace_evenly_spaced 0 1 3 1); lia.
Defined.

(** Extra X2.  Degenerate counts of training timesteps.  With a count of 0
    or less the schedule ["linear"] gives the empty table, and so does
    ["scaled_linear"] with the count 0.  With the count 1 the schedule
    ["linear"] divides 0 by 0 and gives the table of the single entry
    [NaN], while ["scaled_linear"] gives the single finite entry whose
    sigma is [sqrt (beta_start / (1 - beta_start))]. *)
Theorem scheduler_degenerate_counts :
  forall N beta_start beta_end prediction_type,
    0 < beta_start < 1 ->
    ((N <= 0)%Z ->
       snd (LMSDiscreteScheduler N (Fin beta_start) (Fin beta_end) "linear"
              prediction_type []) = [])
    /\ snd (LMSDiscreteScheduler 0 (Fin beta_start) (Fin beta_end)
              "scaled_linear" prediction_type []) = []
    /\ snd (LMSDiscreteScheduler 1 (Fin beta_start) (Fin beta_end) "linear"
              prediction_type []) = [NaN]
    /\ exists l,
         snd (LMSDiscreteScheduler 1 (Fin beta_start) (Fin beta_end)
                "scaled_linear" prediction_type []) = [Fin l]
         /\ exp l = sqrt (beta_start / (1 - beta_start)).
Proof.
  intros N bs be pt Hb.
  destruct (scheduler_empty N (Fin bs) (Fin be) pt) as [H0 H0'].
  repeat split; try assumption.
  - apply scheduler_linear_one.
  - now apply scheduler_scaled_linear_one.
Qed.

Lemma scheduler_degenerate_counts_witness :
  snd (LMSDiscreteScheduler 0 (Fin (1 / 4)) (Fin (1 / 2)) "linear"
         "epsilon" []) = []
  /\ snd (LMSDiscreteScheduler 1 (Fin (1 / 4)) (Fin (1 / 2)) "linear"
            "epsilon" []) = [NaN].
Proof.
  destruct (scheduler_degenerate_counts 0 (1 / 4) (1 / 2) "epsilon")
    as (H0 & _ & H1 & _); [lra |].
  split; [apply H0; lia | exact H1].
Defined.

(** Extra X3.  On an integrand that is affine on the finite numbers,
    [trapezoidal] with a positive tolerance and at least 2 refinements
    returns at the second refinement, with the exact integral
    [(f (a) + f (b)) * (b - a) / 2]. *)
Theorem trapezoidal_exact_on_affine :
  forall f p q a b tol (max_refinements : Z),
    (forall x, f (Fin x) = Some (Fin (p * x + q))) ->
    0 < tol -> (2 <= max_refinements)%Z ->
    trapezoidal f (Fin a) (Fin b) (Fin tol) max_refinements
    = Some (Fin ((p * a + q + (p * b + q)) * ((b - a) / 2))).
Proof. intros. now apply trapezoidal_affine. Qed.

Lemma trapezoidal_exact_on_affine_witness :
  trapezoidal affine_example (Fin 0) (Fin 1) (Fin (1 / 10000)) 100
  = Some (Fin ((2 * 0 + 1 + (2 * 1 + 1)) * ((1 - 0) / 2))).
Proof.
  apply (trapezoidal_exact_on_affine affine_example 2 1 0 1 (1 / 10000) 100);
    [reflexivity | lra | lia].
Defined.

(** Extra X4.  On a schedule of finite values whose nodes
    [sigma[t - k]], [k < order], differ from [sigma[t - curr_order]],
    [lms_derivative_function] is the Lagrange basis polynomial of
    [curr_order]: it is 1 at its own node and 0 at every other node. *)
Theorem lms_derivative_function_nodes :
  forall ss (order curr_order t j : Z),
    (0 <= curr_order < order)%Z -> (order <= t + 1)%Z ->
    (t < Z.of_nat (List.length ss))%Z ->
    (forall k, (0 <= k < order)%Z -> k <> curr_order ->
               entry_at ss (t - curr_order) <> entry_at ss (t - k)) ->
    lms_derivative_function (Fin (entry_at ss (t - curr_order))) order
      curr_order (map Fin ss) t = Some (Fin 1)
    /\ ((0 <= j < order)%Z -> j <> curr_order ->
        lms_derivative_function (Fin (entry_at ss (t - j))) order curr_order
          (map Fin ss) t = Some (Fin 0)).
Proof.
  intros ss order c t j Hc Ho Ht Hd.
  assert (Hd' : forall k, In k (int_range order) -> k <> c ->
                  entry_at ss (t - c) <> entry_at ss (t - k)).
  { intros k Hk. apply Hd. now apply int_range_bounds. }
  split.
  - rewrite lms_derivative_function_fin by assumption.
    now rewrite lagrange_basis_own.
  - intros Hj Hjc. rewrite lms_derivative_function_fin by assumption.
    rewrite (lagrange_basis_other ss t c j); try assumption; [reflexivity |].
    now apply in_int_range.
Qed.

Lemma lms_derivative_function_nodes_witness :
  lms_derivative_function (Fin (entry_at [3; 2; 1] (1 - 0))) 2 0
    (map Fin [3; 2; 1]) 1 = Some (Fin 1)
  /\ lms_derivative_function (Fin (entry_at [3; 2; 1] (1 - 1))) 2 0
       (map Fin [3; 2; 1]) 1 = Some (Fin 0).
Proof.
  destruct (lms_derivative_function_nodes [3; 2; 1] 2 0 1 1) as [H1 H0];
    try (simpl; lia).
  - intros k Hk Hk0. assert (k = 1%Z) as -> by lia.
    unfold entry_at. simpl. lra.
  - split; [exact H1 | apply H0; lia].
Defined.

(** Extra X5.  The reads of [lms_derivative_function] stay inside the
    schedule exactly when [order <= t + 1]: then the function is defined
    for every [tau] and every [curr_order < order]; with a greater order
    it reads before the start of the schedule, for every [curr_order]. *)
Theorem lms_derivative_function_bounds :
  forall sigma_vec tau (order curr_order t : Z),
    (0 <= t < Z.of_nat (List.length sigma_vec))%Z ->
    ((0 <= curr_order < order)%Z -> (order <= t + 1)%Z ->
       exists y, lms_derivative_function tau order curr_order sigma_vec t
                 = Some y)
    /\ ((t + 1 < order)%Z ->
        lms_derivative_function tau order curr_order sigma_vec t = None).
Proof.
  intros sigma_vec tau order c t Ht. split.
  - intros Hc Ho. apply lms_derivative_loop_defined; [lia |].
    intros k Hk. apply int_range_bounds in Hk. lia.
  - intros Ho. apply lms_derivative_loop_undefined.
    destruct (Z.eq_dec c (t + 1)) as [-> | Hne].
    + exists 0%Z. split; [apply in_int_range; lia | lia].
    + exists (t + 1)%Z. split; [apply in_int_range; lia | lia].
Qed.

Lemma lms_derivative_function_bounds_witness :
  (exists y, lms_derivative_function (Fin 5) 1 0 [Fin 2; Fin 1] 0 = Some y)
  /\ lms_derivative_function (Fin 5) 2 0 [Fin 2; Fin 1] 0 = None.
Proof.
  destruct (lms_derivative_function_bounds [Fin 2; Fin 1] (Fin 5) 1 0 0)
    as [H1 _]; [simpl; lia |].
  destruct (lms_derivative_function_bounds [Fin 2; Fin 1] (Fin 5) 2 0 0)
    as [_ H2]; [simpl; lia |].
  split; [apply H1; lia | apply H2; lia].
Defined.

(** Extra X6.  The coefficients of order 2 at a step [i >= 1] with
    [sigma[i - 1] <> sigma[i]], in exact arithmetic: with
    [h = sigma[i + 1] - sigma[i]] and [h_prev = sigma[i] - sigma[i - 1]]
    they are [h * (1 + h / (2 * h_prev))] and [- h * h / (2 * h_prev)],
    and their sum is the length [h] of the step. *)
Theorem lms_coefficients_order_two :
  forall ss (i : nat),
    (1 <= i)%nat -> (i + 1 < List.length ss)%nat -> (Z.of_nat i < 2 ^ 31)%Z ->
    nth (i - 1) ss 0 <> nth i ss 0 ->
    let h := nth (i + 1) ss 0 - nth i ss 0 in
    let h_prev := nth i ss 0 - nth (i - 1) ss 0 in
    exists c0 c1,
      lms_coeffs (map Fin ss) i 2 = Some [Fin c0; Fin c1]
      /\ c0 = h * (1 + h / (2 * h_prev))
      /\ c1 = - (h * h) / (2 * h_prev)
      /\ c0 + c1 = h.
Proof. intros ss i H1 H2 H3 H4. now apply lms_coeffs_order_two. Qed.

Lemma lms_coefficients_order_two_witness :
  exists c0 c1,
    lms_coeffs (map Fin [4; 2; 1; 0]) 1 2 = Some [Fin c0; Fin c1]
    /\ c0 + c1 = 1 - 2.
Proof.
  destruct (lms_coefficients_order_two [4; 2; 1; 0] 1)
    as (c0 & c1 & E & _ & _ & Hsum); try (simpl; lia).
  - simpl. lra.
  - exists c0, c1. split; [exact E | exact Hsum].
Defined.

(** Extra X8.  The ends of an increasing finite table of 1000 entries or
    more.  The sigma 0 and every sigma whose logarithm is below all the
    entries give the timestep 0; every sigma whose logarithm reaches the
    first 1000 entries gives the timestep 999. *)
Theorem sigma_to_timestemp_clamps_ends :
  forall ls sigma t,
    increasing_reals ls -> (1000 <= List.length ls)%nat ->
    sigma_to_timestemp (map Fin ls) (Fin 0) = Some 0%Z
    /\ (xlog sigma = Fin t -> (forall x, In x ls -> t < x) ->
        sigma_to_timestemp (map Fin ls) sigma = Some 0%Z)
    /\ (xlog sigma = Fin t -> (forall i, (i < 1000)%nat -> nth i ls 0 <= t) ->
        sigma_to_timestemp (map Fin ls) sigma = Some 999%Z).
Proof.
  intros ls sigma t Hinc Hlen.
  pose proof (Hinc 0%nat 1%nat ltac:(lia)) as H01.
  pose proof (Hinc 998%nat 999%nat ltac:(lia)) as H89.
  split; [| split].
  - apply sigma_to_timestemp_bottom; [assumption | assumption | now left].
  - intros Hlog Hbelow. apply sigma_to_timestemp_bottom; try assumption.
    right. eauto.
  - intros Hlog Habove. now apply sigma_to_timestemp_top with (t := t).
Qed.

Lemma sigma_to_timestemp_clamps_ends_witness :
  sigma_to_timestemp (map Fin ramp_table) (Fin 0) = Some 0%Z
  /\ sigma_to_timestemp (map Fin ramp_table) (Fin (exp (- 1))) = Some 0%Z
  /\ sigma_to_timestemp (map Fin ramp_table) (Fin (exp 1000)) = Some 999%Z.
Proof.
  assert (Hlen : (1000 <= List.length ramp_table)%nat)
    by (rewrite ramp_length; lia).
  destruct (sigma_to_timestemp_clamps_ends ramp_table (Fin (exp (- 1))) (- 1)
              ramp_increasing Hlen) as (H0 & Hlow & _).
  destruct (sigma_to_timestemp_clamps_ends ramp_table (Fin (exp 1000)) 1000
              ramp_increasing Hlen) as (_ & _ & Hhigh).
  split; [exact H0 | split].
  - apply Hlow.
    + rewrite xlog_fin by apply exp_pos. now rewrite ln_exp.
    + intros x Hx. apply ramp_in in Hx. lra.
  - apply Hhigh.
    + rewrite xlog_fin by apply exp_pos. now rewrite ln_exp.
    + intros i Hi. pose proof (ramp_in (nth i ramp_table 0)
                                 ltac:(apply nth_In; rewrite ramp_length; lia)).
      lra.
Defined.

(** Extra X9.  A sigma without a logarithm, that is [NaN], minus infinity
    or a negative number, is not rejected: on every table of 1000 entries
    or more, whatever they are, the mapper returns the timestep 1. *)
Theorem sigma_to_timestemp_of_nan :
  forall log_sigmas sigma,
    (1000 <= List.length log_sigmas)%nat ->
    sigma = NaN \/ sigma = NInf \/ (exists a, sigma = Fin a /\ a < 0) ->
    sigma_to_timestemp log_sigmas sigma = Some 1%Z.
Proof.
  intros tbl sigma Hlen Hs. apply sigma_to_timestemp_nan; [assumption |].
  now apply xlog_nan.
Qed.

Lemma sigma_to_timestemp_of_nan_witness :
  sigma_to_timestemp (zeros 1000) (Fin (- 1)) = Some 1%Z.
Proof.
  apply (sigma_to_timestemp_of_nan (zeros 1000) (Fin (- 1))).
  - unfold zeros. rewrite repeat_length. lia.
  - right. right. exists (- 1). split; [reflexivity | lra].
Defined.

(** Extra X11.  The reads of the schedule block on [float], for runs of 2
    to 100 steps.  Every run index reads [log_sigma_vec] at a defined pair
    [low_idx <= high_idx <= 999], and the first index reads the entry 999.
    The low index is negative exactly at the last index of the runs of 22,
    43, 46, 56, 85 and 91 steps, whose last time is rounded below 0: there
    it is -1 and the block reads before the start of the table.  Every
    other read is inside the 1000 entries. *)
Theorem run_schedule_binary32_reads :
  forall steps i, (2 <= steps <= 100)%Z -> (0 <= i < steps)%Z ->
    exists low_idx high_idx,
      Binary32.t_to_sigma_indices steps i = Some (low_idx, high_idx)
      /\ (low_idx <= high_idx <= 999)%Z
      /\ (i = 0%Z -> low_idx = 999%Z)
      /\ ((low_idx < 0)%Z
          <-> i = (steps - 1)%Z /\ In steps steps_reading_before_table)
      /\ ((low_idx < 0)%Z -> low_idx = (- 1)%Z).
Proof.
  intros steps i Hs Hi.
  pose proof (t_to_sigma_reads_check_at steps i Hs Hi) as H.
  unfold t_to_sigma_reads_check in H.
  destruct (Binary32.t_to_sigma_indices steps i) as [[lo hi] |];
    [| discriminate].
  exists lo, hi. split; [reflexivity |].
  apply andb_true_iff in H as [H H5]. apply andb_true_iff in H as [H H4].
  apply andb_true_iff in H as [H H3]. apply andb_true_iff in H as [H1 H2].
  apply Z.leb_le in H2, H3. apply Bool.eqb_prop in H4.
  split; [lia | split; [| split]].
  - intros ->. change (0 =? 0)%Z with true in H1.
    apply andb_true_iff in H1 as [H1 _]. now apply Z.eqb_eq in H1.
  - rewrite <- Z.ltb_lt, H4, andb_true_iff, Z.eqb_eq, existsb_exists.
    split.
    + intros [E (x & Hx & Ex)]. apply Z.eqb_eq in Ex. subst x. now split.
    + intros [E Hin]. split; [assumption |]. exists steps.
      split; [assumption | apply Z.eqb_refl].
  - intros Hlo. apply Z.ltb_lt in Hlo. rewrite Hlo in H5.
    now apply Z.eqb_eq in H5.
Qed.

Lemma run_schedule_binary32_reads_witness :
  Binary32.t_to_sigma_time 22 21 = S754_finite true 8388608 (- 37)
  /\ exists high_idx,
       Binary32.t_to_sigma_indices 22 21 = Some ((- 1)%Z, high_idx).
Proof.
  split; [reflexivity |].
  destruct (run_schedule_binary32_reads 22 21) as (lo & hi & E & _ & _ & Hneg & Hm);
    [lia | lia |].
  exists hi. rewrite E. do 2 f_equal. apply Hm. apply Hneg.
  split; [reflexivity | simpl; tauto].
Defined.

(** Extra X12.  The history is a queue of capacity 4: after the
    derivatives [ds] have been pushed one after the other on the empty
    history, it holds the last four of them (all of them when they are
    fewer), in the order of their arrival. *)
Theorem history_keeps_last_four :
  forall ds,
    fold_left push_derivative ds [] = skipn (List.length ds - 4) ds.
Proof. intros ds. apply (fold_push_derivative ds []). simpl. lia. Qed.

(** Extra X13.  Every run that returns a latent returns it with the shape
    of the initial latent and with as many values as that shape counts. *)
Theorem diffusion_function_keeps_shape :
  forall unet seed steps latent_vector_1d text_embeddings out,
    diffusion_function unet seed steps latent_vector_1d text_embeddings
    = Some out ->
    get_shape out = get_shape latent_vector_1d
    /\ List.length (data out) = Z.to_nat (get_size latent_vector_1d).
Proof. intros. eapply diffusion_function_shape. eassumption. Qed.

Lemma diffusion_function_keeps_shape_witness :
  exists out,
    diffusion_function zero_unet 0 2
      (mkTensor [1; 4; 8; 8]%Z (map Fin (repeat 1 256))) (mkTensor [] [])
    = Some out
    /\ get_shape out = [1; 4; 8; 8]%Z
    /\ List.length (data out) = 256%nat.
Proof.
  destruct (diffusion_two_steps_zero_unet 0 (mkTensor [] []) (repeat 1 256))
    as (s & _ & _ & E); [now rewrite repeat_length |].
  eexists. split; [exact E |].
  apply (diffusion_function_keeps_shape _ _ _ _ _ _ E).
Defined.

(** Extra X14.  With [steps = 0] the function is defined and does not call
    the UNet: the schedule is the single sigma 0, the latent is multiplied
    by it, and the result is the all-zero tensor of the shape of a finite
    initial latent. *)
Theorem diffusion_function_without_steps :
  forall unet seed latent_vector_1d text_embeddings d rest ls,
    get_shape latent_vector_1d = d :: rest ->
    data latent_vector_1d = map Fin ls ->
    get_size latent_vector_1d = Z.of_nat (List.length ls) ->
    t_to_sigma (snd LMSDiscreteScheduler_default) 0 = Some [Fin 0]
    /\ diffusion_function unet seed 0 latent_vector_1d text_embeddings
       = Some (mkTensor (d :: rest) (zeros (List.length ls))).
Proof.
  intros. split; [reflexivity | now apply diffusion_function_no_step].
Qed.

Lemma diffusion_function_without_steps_witness :
  diffusion_function zero_unet 7 0 (mkTensor [1; 2]%Z [Fin 3; Fin 4])
    (mkTensor [] [])
  = Some (mkTensor [1; 2]%Z (zeros 2)).
Proof.
  apply (diffusion_function_without_steps zero_unet 7
           (mkTensor [1; 2]%Z [Fin 3; Fin 4]) (mkTensor [] []) 1%Z [2%Z] [3; 4]);
    reflexivity.
Defined.

(** Extra X15.  The guidance of [unet_infer_function] pairs the value [j]
    of the first half of the UNet output (unconditional) with the value
    [j] of the second half (conditioned on the text) and returns
    [u + 7.5 * (c - u)] for each pair, in a tensor of batch 1; where the
    two halves agree it returns that common prediction. *)
Theorem guidance_combines_halves :
  forall unet timestemp input emb batch rest us cs more,
    get_shape (unet timestemp input emb) = batch :: rest ->
    data (unet timestemp input emb) = map Fin us ++ map Fin cs ++ more ->
    shape_size (1%Z :: rest) = Z.of_nat (List.length us) ->
    List.length cs = List.length us ->
    unet_infer_function unet timestemp input emb
    = Some (mkTensor (1%Z :: rest)
              (map (fun uc => Fin (fst uc + 75 / 10 * (snd uc - fst uc)))
                   (combine us cs)))
    /\ (cs = us ->
        unet_infer_function unet timestemp input emb
        = Some (mkTensor (1%Z :: rest) (map Fin us))).
Proof.
  intros unet ts input emb batch rest us cs more Hshape Hdata Hn Hlen.
  pose proof (unet_infer_function_halves unet ts input emb batch rest us cs
                more Hshape Hdata Hn Hlen) as E.
  split; [exact E |].
  intros ->. now rewrite E, combine_same_guidance.
Qed.

Lemma guidance_combines_halves_witness :
  unet_infer_function pair_unet 0 (mkTensor [] []) (mkTensor [] [])
  = Some (mkTensor [1; 2]%Z
            (map (fun uc => Fin (fst uc + 75 / 10 * (snd uc - fst uc)))
                 (combine [1; 2] [3; 4]))).
Proof.
  apply (guidance_combines_halves pair_unet 0 (mkTensor [] [])
           (mkTensor [] []) 2%Z [2%Z] [1; 2] [3; 4] []); reflexivity.
Defined.

(** Extra X16.  The guidance needs both halves: when the UNet output holds
    fewer than twice the values of one batch (a model of batch 1, say),
    [unet_infer_function] reads past its end and is undefined. *)
Theorem guidance_needs_two_batches :
  forall unet timestemp input emb batch rest,
    get_shape (unet timestemp input emb) = batch :: rest ->
    (0 < shape_size (1%Z :: rest))%Z ->
    (Z.of_nat (List.length (data (unet timestemp input emb)))
     < 2 * shape_size (1%Z :: rest))%Z ->
    unet_infer_function unet timestemp input emb = None.
Proof. intros. eapply unet_infer_function_short; eassumption. Qed.

Lemma guidance_needs_two_batches_witness :
  unet_infer_function single_unet 0 (mkTensor [] []) (mkTensor [] []) = None.
Proof.
  apply (guidance_needs_two_batches single_unet 0 (mkTensor [] [])
           (mkTensor [] []) 1%Z [2%Z]); reflexivity.
Defined.

(** Extra X17.  The noise of [std_randn_function] has
    [h / 8 * w / 8 * 4] values (the product is taken before the second
    division) as long as [h / 8 * w] fits [uint32_t]; that is never fewer
    than the latent of shape [1, 4, h / 8, w / 8] needs, and exactly as
    many when [w] is a multiple of 8. *)
Theorem randn_noise_covers_latent :
  forall normal seed h w,
    (0 <= h)%Z -> (0 <= w)%Z -> (h / 8 * w < 2 ^ 32)%Z ->
    Z.of_nat (List.length (std_randn_function normal seed h w))
    = (h / 8 * w / 8 * 4)%Z
    /\ (shape_size (latent_vector_shape h w)
        <= Z.of_nat (List.length (std_randn_function normal seed h w)))%Z
    /\ ((w mod 8 = 0)%Z ->
        shape_size (latent_vector_shape h w)
        = Z.of_nat (List.length (std_randn_function normal seed h w))).
Proof.
  intros normal seed h w Hh Hw Hmax.
  destruct (randn_covers_latent h w Hh Hw Hmax) as [Hle Heq].
  assert (Hsize : (0 <= randn_size h w)%Z).
  { rewrite randn_size_exact by assumption.
    assert (0 <= h / 8)%Z by (apply Z.div_pos; lia).
    assert (0 <= h / 8 * w / 8)%Z by (apply Z.div_pos; lia). lia. }
  assert (El : Z.of_nat (List.length (std_randn_function normal seed h w))
               = randn_size h w).
  { unfold std_randn_function. rewrite length_map, length_seq. lia. }
  rewrite El. split; [now apply randn_size_exact | split; assumption].
Qed.

Lemma randn_noise_covers_latent_witness :
  Z.of_nat (List.length (std_randn_function (fun _ _ => Fin 0) 42 20 12))
  = (20 / 8 * 12 / 8 * 4)%Z
  /\ (shape_size (latent_vector_shape 20 12)
      <= Z.of_nat (List.length (std_randn_function (fun _ _ => Fin 0) 42 20 12)))%Z.
Proof.
  destruct (randn_noise_covers_latent (fun _ _ => Fin 0) 42 20 12)
    as (H1 & H2 & _); try (simpl; lia).
  split; assumption.
Defined.

(** Extra X18.  Given a finite sample and a decoder output without [NaN],
    [vae_decoder_function] leaves the caller's sample multiplied by
    [1 / 0.18215] and returns an image of type [u8] with the shape of the
    decoder output, one value for each of its elements, every value
    between 0 and 255. *)
Theorem vae_decoder_function_image_in_range :
  forall decoder sample ss,
    data sample = map Fin ss ->
    get_size sample = Z.of_nat (List.length ss) ->
    let scaled :=
      mkTensor (get_shape sample)
               (map (fun x => Fin (x * (1 / (18215 / 100000)))) ss) in
    let decoded := decoder scaled in
    (forall i, (0 <= i < get_size decoded)%Z ->
       exists d, vec_at (data decoded) i = Some d /\ d <> NaN) ->
    exists image,
      vae_decoder_function decoder sample = Some (scaled, image)
      /\ image_type image = u8
      /\ image_shape image = get_shape decoded
      /\ List.length (image_data image) = Z.to_nat (get_size decoded)
      /\ Forall (fun z => (0 <= z <= 255)%Z) (image_data image).
Proof. intros decoder sample ss Hd Hs. now apply vae_decoder_function_image. Qed.

Lemma vae_decoder_function_image_in_range_witness :
  exists image,
    vae_decoder_function (fun _ => mkTensor [1; 2]%Z [Fin 0; PInf])
      (mkTensor [1%Z] [Fin 1])
    = Some (mkTensor [1%Z] [Fin (1 * (1 / (18215 / 100000)))], image)
    /\ image_type image = u8
    /\ Forall (fun z => (0 <= z <= 255)%Z) (image_data image).
Proof.
  destruct (vae_decoder_function_image_in_range
              (fun _ => mkTensor [1; 2]%Z [Fin 0; PInf])
              (mkTensor [1%Z] [Fin 1]) [1])
    as (image & E & Ht & _ & _ & Hr); try reflexivity.
  - intros i Hi. change (get_size _) with 2%Z in Hi.
    assert (i = 0 \/ i = 1)%Z as [-> | ->] by lia.
    + exists (Fin 0). split; [reflexivity | discriminate].
    + exists PInf. split; [reflexivity | discriminate].
  - exists image. repeat split; assumption.
Defined.

(** Extra X19.  The pixel of a decoded value [d] is 0 up to [d = -1] and
    255 from [d = 1] on; it never leaves 0..255, it does not decrease when
    [d] grows, and the infinities saturate like large finite values. *)
Theorem pixel_of_saturates :
  forall d d',
    d <= d' ->
    exists z z',
      pixel_of (Fin d) = Some z /\ pixel_of (Fin d') = Some z'
      /\ (0 <= z <= 255)%Z /\ (z <= z')%Z
      /\ (d <= - 1 -> z = 0%Z) /\ (1 <= d -> z = 255%Z)
      /\ pixel_of NInf = Some 0%Z /\ pixel_of PInf = Some 255%Z.
Proof.
  intros d d' Hd.
  destruct (pixel_of_defined (Fin d) ltac:(discriminate)) as [z Ez].
  destruct (pixel_of_defined (Fin d') ltac:(discriminate)) as [z' Ez'].
  exists z, z'. split; [exact Ez | split; [exact Ez' |]].
  split; [eapply pixel_of_range; eassumption |].
  split; [eapply pixel_of_monotone; eassumption |].
  rewrite pixel_of_fin in Ez. injection Ez as <-.
  repeat split; try apply pixel_of_special.
  - intros H. destruct (Rlt_dec d (- 1)); [reflexivity |].
    destruct (Rlt_dec 1 d); [lra |]. apply Zfloor_eq. simpl. lra.
  - intros H. destruct (Rlt_dec d (- 1)); [lra |].
    destruct (Rlt_dec 1 d); [reflexivity |]. apply Zfloor_eq. simpl. lra.
Qed.

Lemma pixel_of_saturates_witness :
  exists z z',
    pixel_of (Fin (- 2)) = Some z /\ pixel_of (Fin 3) = Some z'
    /\ z = 0%Z /\ (z <= z')%Z.
Proof.
  destruct (pixel_of_saturates (- 2) 3) as (z & z' & E & E' & _ & Hle & H0 & _);
    [lra |].
  exists z, z'. repeat split; try assumption. apply H0. lra.
Defined.

(** Extra X20.  A [NaN] among the values of the decoder output makes
    [vae_decoder_function] undefined: the comparisons of [std::clamp] are
    false on it, so it reaches the conversion to [std::uint8_t], which has
    no defined result for it. *)
Theorem vae_decoder_function_nan_undefined :
  forall decoder sample ss i,
    data sample = map Fin ss ->
    get_size sample = Z.of_nat (List.length ss) ->
    let scaled :=
      mkTensor (get_shape sample)
               (map (fun x => Fin (x * (1 / (18215 / 100000)))) ss) in
    (0 <= i < get_size (decoder scaled))%Z ->
    vec_at (data (decoder scaled)) i = Some NaN ->
    vae_decoder_function decoder sample = None.
Proof.
  intros decoder sample ss i Hd Hs scaled Hi Hnan.
  now apply (vae_decoder_function_nan decoder sample ss i).
Qed.

Lemma vae_decoder_function_nan_undefined_witness :
  vae_decoder_function (fun _ => mkTensor [1%Z] [NaN]) (mkTensor [1%Z] [Fin 1])
  = None.
Proof.
  apply (vae_decoder_function_nan_undefined
           (fun _ => mkTensor [1%Z] [NaN]) (mkTensor [1%Z] [Fin 1]) [1] 0);
    try reflexivity.
  change (get_size _) with 1%Z. lia.
Defined.

(** Extra X21.  On an image of type [u8] and shape [1, H, W, 3] that holds
    its [3 * H * W] values, [convertBGRtoRGB] exchanges the channels 0 and
    2 of every pixel and keeps channel 1, the type and the shape; applied
    again it gives the image back. *)
Theorem convertBGRtoRGB_swaps_and_inverts :
  forall image (H W : Z) (n : nat),
    image_type image = u8 ->
    image_shape image = [1; H; W; 3]%Z ->
    (H * W)%Z = Z.of_nat n ->
    List.length (image_data image) = (3 * n)%nat ->
    (Z.of_nat (List.length (image_data image)) < 2 ^ 64)%Z ->
    exists swapped,
      convertBGRtoRGB image = Ok (mkImage u8 [1; H; W; 3]%Z swapped)
      /\ List.length swapped = (3 * n)%nat
      /\ (forall p c, (p < n)%nat -> (c <= 2)%nat ->
            nth (3 * p + c) swapped 0%Z
            = nth (3 * p + (2 - c)) (image_data image) 0%Z)
      /\ convertBGRtoRGB (mkImage u8 [1; H; W; 3]%Z swapped) = Ok image.
Proof.
  intros [ty shape dat] H W n Hty Hshape HW Hlen Hmax.
  cbn [image_type image_shape image_data] in *. subst ty shape.
  assert (Hw : size_t_wrap (H * W) = Z.of_nat n).
  { rewrite HW. apply Z.mod_small. lia. }
  destruct (swap_loop_spec n 0 dat) as (l1 & E1 & L1 & In1 & _); try lia.
  destruct (swap_loop_spec n 0 l1) as (l2 & E2 & L2 & _); try lia.
  exists l1. unfold convertBGRtoRGB.
  cbn [image_type image_shape image_data element_type_eqb List.length nth].
  change ((Z.of_nat 4 =? 4)%Z) with true.
  change ((1 =? 1)%Z) with true. change ((3 =? 3)%Z) with true.
  cbn [andb]. cbv zeta. rewrite Hw, int_range_nat, E1, E2.
  repeat split.
  - lia.
  - intros p c Hp Hc. apply In1; lia.
  - do 2 f_equal.
    apply (swap_loop_twice n dat l1 l2); try assumption;
      now rewrite int_range_nat.
Qed.

Lemma convertBGRtoRGB_swaps_and_inverts_witness :
  exists swapped,
    convertBGRtoRGB (mkImage u8 [1; 1; 2; 3]%Z [10; 20; 30; 40; 50; 60]%Z)
    = Ok (mkImage u8 [1; 1; 2; 3]%Z swapped)
    /\ convertBGRtoRGB (mkImage u8 [1; 1; 2; 3]%Z swapped)
       = Ok (mkImage u8 [1; 1; 2; 3]%Z [10; 20; 30; 40; 50; 60]%Z).
Proof.
  destruct (convertBGRtoRGB_swaps_and_inverts
              (mkImage u8 [1; 1; 2; 3]%Z [10; 20; 30; 40; 50; 60]%Z) 1 2 2)
    as (swapped & E & _ & _ & E'); try reflexivity.
  exists swapped. split; assumption.
Defined.

(** Extra X22.  [convertBGRtoRGB] throws, and changes nothing, unless the
    image has the type [u8], four dimensions, the first of them 1 and the
    last of them 3. *)
Theorem convertBGRtoRGB_rejects :
  forall image,
    image_type image <> u8
    \/ List.length (image_shape image) <> 4%nat
    \/ nth 0 (image_shape image) 0%Z <> 1%Z
    \/ nth 3 (image_shape image) 0%Z <> 3%Z ->
    convertBGRtoRGB image = Throws expected_image.
Proof.
  intros image H. unfold convertBGRtoRGB. cbv zeta.
  destruct (element_type_eqb (image_type image) u8) eqn:Et;
    [| reflexivity].
  destruct (Z.eqb_spec (Z.of_nat (List.length (image_shape image))) 4) as [E4 | N4];
    [| reflexivity].
  destruct (Z.eqb_spec (nth 0 (image_shape image) 0%Z) 1) as [E1 | N1];
    [| reflexivity].
  destruct (Z.eqb_spec (nth 3 (image_shape image) 0%Z) 3) as [E3 | N3];
    [| reflexivity].
  exfalso. destruct H as [H | [H | [H | H]]]; try contradiction; try lia.
  destruct (image_type image); simpl in Et; congruence.
Qed.

Lemma convertBGRtoRGB_rejects_witness :
  convertBGRtoRGB (mkImage f32 [1; 1; 1; 3]%Z [1; 2; 3]%Z)
  = Throws expected_image.
Proof.
  apply (convertBGRtoRGB_rejects (mkImage f32 [1; 1; 1; 3]%Z [1; 2; 3]%Z)).
  left. discriminate.
Defined.

(** Extra X23.  On an increasing finite table of 1000 entries or more the
    mapper is defined and monotone on the positive sigmas: a greater sigma
    never gets a smaller timestep. *)
Theorem sigma_to_timestemp_monotone :
  forall ls s s',
    increasing_reals ls -> (1000 <= List.length ls)%nat ->
    0 < s -> s <= s' ->
    exists T T',
      sigma_to_timestemp (map Fin ls) (Fin s) = Some T
      /\ sigma_to_timestemp (map Fin ls) (Fin s') = Some T'
      /\ (T <= T')%Z.
Proof.
  intros ls s s' Hinc Hlen Hs Hss.
  apply (sigma_to_timestemp_monotone_log ls (ln s) (ln s')); try assumption.
  - now apply xlog_fin.
  - apply xlog_fin. lra.
  - destruct Hss as [Hlt | ->]; [left; apply ln_increasing; assumption | lra].
Qed.

Lemma sigma_to_timestemp_monotone_witness :
  exists T T',
    sigma_to_timestemp (map Fin ramp_table) (Fin 1) = Some T
    /\ sigma_to_timestemp (map Fin ramp_table) (Fin 2) = Some T'
    /\ (T <= T')%Z.
Proof.
  apply (sigma_to_timestemp_monotone ramp_table 1 2).
  - exact ramp_increasing.
  - rewrite ramp_length. lia.
  - lra.
  - lra.
Defined.

(** Extra X24.  A run of two steps is defined from end to end: with the
    stub that predicts zeros and any finite latent of shape [1, 4, 8, 8]
    the function returns the initial latent multiplied by the first sigma
    of the schedule, which is positive. *)
Theorem diffusion_two_steps_with_zero_prediction :
  forall seed text_embeddings ls,
    List.length ls = 256%nat ->
    exists sigma_0,
      0 < sigma_0
      /\ (exists sigma,
            t_to_sigma (snd LMSDiscreteScheduler_default) 2 = Some sigma
            /\ nth_error sigma 0 = Some (Fin sigma_0))
      /\ diffusion_function zero_unet seed 2
           (mkTensor [1; 4; 8; 8]%Z (map Fin ls)) text_embeddings
         = Some (mkTensor [1; 4; 8; 8]%Z
                   (map (fun x => Fin (x * sigma_0)) ls)).
Proof. intros. now apply diffusion_two_steps_zero_unet. Qed.

Lemma diffusion_two_steps_with_zero_prediction_witness :
  exists sigma_0,
    0 < sigma_0
    /\ diffusion_function zero_unet 0 2
         (mkTensor [1; 4; 8; 8]%Z (map Fin (repeat 1 256))) (mkTensor [] [])
       = Some (mkTensor [1; 4; 8; 8]%Z
                 (map (fun x => Fin (x * sigma_0)) (repeat 1 256))).
Proof.
  destruct (diffusion_two_steps_with_zero_prediction 0 (mkTensor [] [])
              (repeat 1 256)) as (s & Hs & _ & E).
  - now rewrite repeat_length.
  - exists s. split; assumption.
Defined.

(** Extra X25.  The size check of [stable_diffusion] for a UNet of static
    shape compares dimension 2 of the [sample] input with the width and
    dimension 3 with the height, while the latent gets the shape
    [1, 4, height / 8, width / 8]: when the check passes, the last two
    dimensions of the latent are those of the model in the opposite
    order, and the two shapes agree only for a square model. *)
Theorem static_shape_check_transposes :
  forall sample_shape width height,
    static_shape_accepted sample_shape width height = true ->
    latent_vector_shape height width
    = [1; 4; nth 3 sample_shape 0; nth 2 sample_shape 0]%Z
    /\ (latent_vector_shape height width
        = [1; 4; nth 2 sample_shape 0; nth 3 sample_shape 0]%Z
        <-> nth 2 sample_shape 0%Z = nth 3 sample_shape 0%Z).
Proof.
  intros shape width height H. unfold static_shape_accepted in H.
  apply andb_true_iff in H as [Hw Hh].
  apply Z.eqb_eq in Hw, Hh. subst width height.
  unfold latent_vector_shape. rewrite !Z.div_mul by lia.
  split; [reflexivity |]. split.
  - intros E. injection E as E _. congruence.
  - intros ->. reflexivity.
Qed.

Lemma static_shape_check_transposes_witness :
  latent_vector_shape 512 768 = [1; 4; 64; 96]%Z.
Proof.
  apply (static_shape_check_transposes [1; 4; 96; 64]%Z 768 512). reflexivity.
Defined.
